(** * CMSIS++ RTOS: thread signal flags and the priority message queue

    A shallow embedding of the portable implementation (the branches taken
    when no [OS_INCLUDE_PORT_RTOS_*] macro is defined) of [os::rtos::Thread]
    and [os::rtos::Message_queue], with the properties of the kernel
    specification stated over it. *)

From Stdlib Require Import ZArith List Bool Lia Permutation Sorted.
Import ListNotations.
Local Open Scope Z_scope.

(** ** Result codes

    [result_t] carries [result::ok] or a POSIX error number; only the
    identity of the code matters, so it is an enumeration. *)
Inductive result_t : Type :=
| ok | EPERM | EINVAL | EMSGSIZE | EAGAIN | EINTR | ETIMEDOUT | ENOTRECOVERABLE.

Definition result_eqb (a b : result_t) : bool :=
  match a, b with
  | ok, ok | EPERM, EPERM | EINVAL, EINVAL | EMSGSIZE, EMSGSIZE
  | EAGAIN, EAGAIN | EINTR, EINTR | ETIMEDOUT, ETIMEDOUT
  | ENOTRECOVERABLE, ENOTRECOVERABLE => true
  | _, _ => false
  end.

(** Modelled from the spec: the macro [os_assert_err (e, er)] is declared in
    a header that is not among the sources.  A failed precondition is
    "returned synchronously; no state mutation has occurred": the function
    returns [er] at once when [e] is false and goes on with [k] otherwise. *)
Definition os_assert_err {A : Type} (e : bool) (er : A) (k : A) : A :=
  if e then k else er.

Notation "'os_assert_err!' e , er ; k" := (os_assert_err e er k)
  (at level 10, e at level 0, er at level 0, k at level 200,
   format "'[v' 'os_assert_err!'  e ,  er ; '/' k ']'").

(** ** Threads *)

(** [thread::state]: the scheduler-visible life cycle. *)
Inductive state_t : Type :=
| inactive | ready | running | suspended | terminated | destroyed.

(** The members of [Thread] written by the functions below.  Pointers
    ([stack_addr_], [func_], [func_args_], [func_result_]) are addresses. *)
Record Thread : Type := mkThread {
  prio_ : Z;
  stack_size_bytes_ : Z;
  stack_addr_ : Z;
  func_ : Z;
  func_args_ : Z;
  func_result_ : Z;
  sig_mask_ : Z;
  sched_state_ : state_t;
  wakeup_reason_ : result_t
}.

Definition set_sig_mask (t : Thread) (m : Z) : Thread :=
  mkThread (prio_ t) (stack_size_bytes_ t) (stack_addr_ t) (func_ t)
           (func_args_ t) (func_result_ t) m (sched_state_ t)
           (wakeup_reason_ t).

Definition set_sched_state (t : Thread) (s : state_t) : Thread :=
  mkThread (prio_ t) (stack_size_bytes_ t) (stack_addr_ t) (func_ t)
           (func_args_ t) (func_result_ t) (sig_mask_ t) s
           (wakeup_reason_ t).

Definition set_wakeup_reason (t : Thread) (r : result_t) : Thread :=
  mkThread (prio_ t) (stack_size_bytes_ t) (stack_addr_ t) (func_ t)
           (func_args_ t) (func_result_ t) (sig_mask_ t) (sched_state_ t) r.

Definition set_func_result (t : Thread) (v : Z) : Thread :=
  mkThread (prio_ t) (stack_size_bytes_ t) (stack_addr_ t) (func_ t)
           (func_args_ t) v (sig_mask_ t) (sched_state_ t)
           (wakeup_reason_ t).

(** [thread::sigset_t] is a 32-bit unsigned integer; [~mask] is the
    complement within those 32 bits. *)
Definition sigset_bits : Z := 32.

Definition sig_not (mask : Z) : Z := Z.land (Z.lnot mask) (Z.ones sigset_bits).

(** [Thread::wakeup (void)]: records the reason [result::ok]; waking the
    thread itself is left to the port. *)
Definition wakeup (t : Thread) : Thread := set_wakeup_reason t ok.

(** [Thread::interrupted]. *)
Definition interrupted (t : Thread) : bool := false.


(** [Thread::exit]; [None] stands for the exception that
    [os_assert_throw] raises in handler mode. *)
Definition exit (in_handler_mode : bool) (t : Thread) (value_ptr : Z)
  : option Thread :=
  if in_handler_mode then None
  else
    match sched_state_ t with
    | terminated => Some t
    | _ => Some (set_sched_state (set_func_result t value_ptr) terminated)
    end.

(** [Thread::kill]. *)
Definition kill (t : Thread) : result_t * Thread :=
  let res := ok in
  let t := set_sched_state t inactive in
  (res, t).

Section Flags.

(** The bits of [flags::mode] and the value [sig::error] come from a
    header that is not among the sources: they are parameters. *)
Variables mode_all mode_any mode_clear : Z.
Variable sig_error : Z.

(** [Thread::sig_raise]; [oflags] tells whether the pointer is non-null,
    the third component is what is stored through it. *)
Definition sig_raise (t : Thread) (mask : Z) (oflags : bool)
  : result_t * Thread * option Z :=
  os_assert_err! (negb (mask =? 0)), (EINVAL, t, None);
  let out := if oflags then Some (sig_mask_ t) else None in
  let t := set_sig_mask t (Z.lor (sig_mask_ t) mask) in
  let t := wakeup t in
  (ok, t, out).

(** [Thread::sig_get]. *)
Definition sig_get (in_handler_mode : bool) (t : Thread) (mask mode : Z)
  : Z * Thread :=
  os_assert_err! (negb in_handler_mode), (sig_error, t);
  if mask =? 0 then
    (* Return the entire mask. *)
    (sig_mask_ t, t)
  else
    let ret := Z.land (sig_mask_ t) mask in
    let t :=
      if negb (Z.land mode mode_clear =? 0)
      then set_sig_mask t (Z.land (sig_mask_ t) (sig_not mask))
      else t in
    (ret, t).

(** [Thread::sig_clear]. *)
Definition sig_clear (in_handler_mode : bool) (t : Thread) (mask : Z)
           (oflags : bool) : result_t * Thread * option Z :=
  os_assert_err! (negb in_handler_mode), (EPERM, t, None);
  os_assert_err! (negb (mask =? 0)), (EINVAL, t, None);
  let out := if oflags then Some (sig_mask_ t) else None in
  (ok, set_sig_mask t (Z.land (sig_mask_ t) (sig_not mask)), out).

(** [Thread::_try_wait]. *)
Definition _try_wait (t : Thread) (mask : Z) (oflags : bool) (mode : Z)
  : result_t * Thread * option Z :=
  if negb (mask =? 0) && negb (Z.land mode mode_all =? 0) then
    (* Only if all desired signals are raised we're done. *)
    if Z.land (sig_mask_ t) mask =? mask then
      let out := if oflags then Some (sig_mask_ t) else None in
      (ok, set_sig_mask t (Z.land (sig_mask_ t) (sig_not mask)), out)
    else (EAGAIN, t, None)
  else if (mask =? 0) || negb (Z.land mode mode_any =? 0) then
    (* Any signal will do it. *)
    if negb (sig_mask_ t =? 0) then
      let out := if oflags then Some (sig_mask_ t) else None in
      (ok, set_sig_mask t 0, out)
    else (EAGAIN, t, None)
  else (EAGAIN, t, None).

(** [Thread::try_sig_wait]. *)
Definition try_sig_wait (in_handler_mode : bool) (t : Thread) (mask : Z)
           (oflags : bool) (mode : Z) : result_t * Thread * option Z :=
  os_assert_err! (negb in_handler_mode), (EPERM, t, None);
  _try_wait t mask oflags mode.

End Flags.

(** ** Memory

    The queue threads its free blocks through the blocks themselves
    ([*(void** ) p = ...]), so the content array is modelled as bytes at
    addresses.  Pointers are 32-bit little-endian words (the Cortex-M
    targets of the kernel); [nullptr] is address 0. *)
Definition memory : Type := Z -> Z.

Definition nullptr : Z := 0.

Definition sizeof_ptr : Z := 4.

Definition store_byte (m : memory) (a v : Z) : memory :=
  fun x => if x =? a then v else m x.

(** [*(void** ) a = p]. *)
Definition store_ptr (m : memory) (a p : Z) : memory :=
  let m := store_byte m a (p mod 256) in
  let m := store_byte m (a + 1) ((p / 256) mod 256) in
  let m := store_byte m (a + 2) ((p / 65536) mod 256) in
  store_byte m (a + 3) ((p / 16777216) mod 256).

(** [*(void** ) a]. *)
Definition load_ptr (m : memory) (a : Z) : Z :=
  m a + 256 * m (a + 1) + 65536 * m (a + 2) + 16777216 * m (a + 3).

(** [memcpy (dest, src, n)] from a caller's buffer, given by its bytes
    (what lies behind the bytes given reads as 0). *)
Definition memcpy_to (m : memory) (dest : Z) (src : list Z) (n : Z) : memory :=
  fun x =>
    if (dest <=? x) && (x <? dest + n)
    then nth (Z.to_nat (x - dest)) src 0
    else m x.

(** [memset (dest, c, n)]. *)
Definition memset (m : memory) (dest c n : Z) : memory :=
  fun x => if (dest <=? x) && (x <? dest + n) then c else m x.

(** [memcpy (dest, src, n)] into a caller's buffer: the bytes written. *)
Definition memcpy_from (m : memory) (src n : Z) : list Z :=
  map (fun i => m (src + Z.of_nat i)) (seq 0 (Z.to_nat n)).

(** An array of indexes or priorities, updated in place. *)
Definition array : Type := Z -> Z.

Definition upd (a : array) (i v : Z) : array :=
  fun j => if j =? i then v else a j.

(** ** Lists of waiting threads

    Modelled from the spec: the class [Waiting_threads_list] and its guard
    are not among the sources.  It is a "FIFO list of thread-waiter nodes":
    [enqueue] appends, [wakeup_one] detaches the head, [wakeup_all] drains,
    and the guard's destructor detaches the node if it is still enrolled.
    A thread is named by the address of its object. *)
Definition Waiting_threads_list : Type := list Z.

Definition list_empty (l : Waiting_threads_list) : bool :=
  match l with [] => true | _ => false end.

Definition list_enqueue (l : Waiting_threads_list) (th : Z)
  : Waiting_threads_list := l ++ [th].

Definition wakeup_one (l : Waiting_threads_list) : Waiting_threads_list :=
  tl l.

Definition wakeup_all (l : Waiting_threads_list) : Waiting_threads_list := [].

Definition list_clear (l : Waiting_threads_list) : Waiting_threads_list := [].

Definition list_remove (l : Waiting_threads_list) (th : Z)
  : Waiting_threads_list := filter (fun x => negb (x =? th)) l.

(** ** The message queue *)

(** The members of [Message_queue].  [mem_] is the memory the object points
    into.  [prev_array_], [next_array_] and [prio_array_] are the three
    arrays as the functions index them, kept as arrays of their own;
    [prev_array_addr_], [next_array_addr_] and [prio_array_addr_] are the
    values of the three pointers, which only the constructor assigns.
    Arrays apart from [mem_] stand for the code where the pointers point
    into the queue's storage behind the content array, the blocks can hold
    a pointer and no copy leaves its block. *)
Record Message_queue : Type := mkMessage_queue {
  msg_size_bytes_ : Z;
  msgs_ : Z;
  queue_addr_ : Z;
  queue_size_bytes_ : Z;
  flags_ : Z;
  mem_ : memory;
  prev_array_ : array;
  next_array_ : array;
  prio_array_ : array;
  head_ : Z;
  first_free_ : Z;
  count_ : Z;
  send_list_ : Waiting_threads_list;
  receive_list_ : Waiting_threads_list;
  prev_array_addr_ : Z;
  next_array_addr_ : Z;
  prio_array_addr_ : Z
}.

(** The loop of [_init]: block [i - 1] receives the address of block [i]. *)
Fixpoint init_blocks (n : nat) (m : memory) (p size : Z) : memory * Z :=
  match n with
  | O => (m, p)
  | S n' => init_blocks n' (store_ptr m p (p + size)) (p + size) size
  end.

(** The [while] loop of [_try_send]: [None] when it does not stop within
    [fuel] iterations. *)
Fixpoint walk_back (fuel : nat) (prev prio : array) (mprio ix : Z)
  : option Z :=
  match fuel with
  | O => None
  | S fuel' =>
      if mprio >? prio ix
      then walk_back fuel' prev prio mprio (prev ix)
      else Some ix
  end.

(** What a blocking call has done when the trace of wake-ups ends. *)
Inductive outcome (A : Type) : Type :=
| Returned (r : result_t) (a : A)
| Suspended (a : A).
Arguments Returned {A} r a.
Arguments Suspended {A} a.

(** What happens between a suspension of the calling thread and the moment
    it runs again: other threads and interrupt handlers act on the queue
    and on the thread, and the tick counter moves on. *)
Record wake : Type := mkWake {
  wake_queue : Message_queue -> Message_queue;
  wake_thread : Thread -> Thread;
  wake_now : Z
}.

(** What a receive call hands back through its pointers: the bytes written
    to [msg] and the priority stored through [mprio], when written. *)
Record received : Type := mkReceived {
  rcv_queue : Message_queue;
  rcv_msg : option (list Z);
  rcv_prio : option Z
}.

Definition set_mem (q : Message_queue) (m : memory) : Message_queue :=
  mkMessage_queue (msg_size_bytes_ q) (msgs_ q) (queue_addr_ q)
    (queue_size_bytes_ q) (flags_ q) m (prev_array_ q) (next_array_ q)
    (prio_array_ q) (head_ q) (first_free_ q) (count_ q) (send_list_ q)
    (receive_list_ q)
    (prev_array_addr_ q) (next_array_addr_ q) (prio_array_addr_ q).

Definition set_prev (q : Message_queue) (a : array) : Message_queue :=
  mkMessage_queue (msg_size_bytes_ q) (msgs_ q) (queue_addr_ q)
    (queue_size_bytes_ q) (flags_ q) (mem_ q) a (next_array_ q)
    (prio_array_ q) (head_ q) (first_free_ q) (count_ q) (send_list_ q)
    (receive_list_ q)
    (prev_array_addr_ q) (next_array_addr_ q) (prio_array_addr_ q).

Definition set_next (q : Message_queue) (a : array) : Message_queue :=
  mkMessage_queue (msg_size_bytes_ q) (msgs_ q) (queue_addr_ q)
    (queue_size_bytes_ q) (flags_ q) (mem_ q) (prev_array_ q) a
    (prio_array_ q) (head_ q) (first_free_ q) (count_ q) (send_list_ q)
    (receive_list_ q)
    (prev_array_addr_ q) (next_array_addr_ q) (prio_array_addr_ q).

Definition set_prio (q : Message_queue) (a : array) : Message_queue :=
  mkMessage_queue (msg_size_bytes_ q) (msgs_ q) (queue_addr_ q)
    (queue_size_bytes_ q) (flags_ q) (mem_ q) (prev_array_ q) (next_array_ q)
    a (head_ q) (first_free_ q) (count_ q) (send_list_ q)
    (receive_list_ q)
    (prev_array_addr_ q) (next_array_addr_ q) (prio_array_addr_ q).

Definition set_head (q : Message_queue) (h : Z) : Message_queue :=
  mkMessage_queue (msg_size_bytes_ q) (msgs_ q) (queue_addr_ q)
    (queue_size_bytes_ q) (flags_ q) (mem_ q) (prev_array_ q) (next_array_ q)
    (prio_array_ q) h (first_free_ q) (count_ q) (send_list_ q)
    (receive_list_ q)
    (prev_array_addr_ q) (next_array_addr_ q) (prio_array_addr_ q).

Definition set_first_free (q : Message_queue) (p : Z) : Message_queue :=
  mkMessage_queue (msg_size_bytes_ q) (msgs_ q) (queue_addr_ q)
    (queue_size_bytes_ q) (flags_ q) (mem_ q) (prev_array_ q) (next_array_ q)
    (prio_array_ q) (head_ q) p (count_ q) (send_list_ q)
    (receive_list_ q)
    (prev_array_addr_ q) (next_array_addr_ q) (prio_array_addr_ q).

Definition set_count (q : Message_queue) (c : Z) : Message_queue :=
  mkMessage_queue (msg_size_bytes_ q) (msgs_ q) (queue_addr_ q)
    (queue_size_bytes_ q) (flags_ q) (mem_ q) (prev_array_ q) (next_array_ q)
    (prio_array_ q) (head_ q) (first_free_ q) c (send_list_ q)
    (receive_list_ q)
    (prev_array_addr_ q) (next_array_addr_ q) (prio_array_addr_ q).

Definition set_send_list (q : Message_queue) (l : Waiting_threads_list)
  : Message_queue :=
  mkMessage_queue (msg_size_bytes_ q) (msgs_ q) (queue_addr_ q)
    (queue_size_bytes_ q) (flags_ q) (mem_ q) (prev_array_ q) (next_array_ q)
    (prio_array_ q) (head_ q) (first_free_ q) (count_ q) l
    (receive_list_ q)
    (prev_array_addr_ q) (next_array_addr_ q) (prio_array_addr_ q).

Definition set_receive_list (q : Message_queue) (l : Waiting_threads_list)
  : Message_queue :=
  mkMessage_queue (msg_size_bytes_ q) (msgs_ q) (queue_addr_ q)
    (queue_size_bytes_ q) (flags_ q) (mem_ q) (prev_array_ q) (next_array_ q)
    (prio_array_ q) (head_ q) (first_free_ q) (count_ q) (send_list_ q) l
    (prev_array_addr_ q) (next_array_addr_ q) (prio_array_addr_ q).

Section Queue.

(** Constants and sizes of [namespace mqueue] and of the class, declared
    in a header that is not among the sources: they are parameters.
    Indexes are below [no_index], so the casts to [mqueue::index_t] keep
    their values and are not written. *)
Variable no_index : Z.
Variable max_size : Z.
Variable flags_allocated : Z.
Variables sizeof_index sizeof_priority : Z.

(** [Message_queue::_init]. *)
Definition _init (q : Message_queue) : Message_queue :=
  let q := set_count q 0 in
  let p := queue_addr_ q in
  let '(m, p) :=
    init_blocks (Z.to_nat (msgs_ q - 1)) (mem_ q) p (msg_size_bytes_ q) in
  let q := set_mem q (store_ptr m p nullptr) in
  let q := set_first_free q (queue_addr_ q) in
  let q := set_head q no_index in
  let q :=
    if negb (list_empty (send_list_ q))
    then set_send_list q (list_clear (wakeup_all (send_list_ q)))
    else q in
  if negb (list_empty (receive_list_ q))
  then set_receive_list q (list_clear (wakeup_all (receive_list_ q)))
  else q.

(** The constructor [Message_queue (attr, msgs, msg_size_bytes)].
    [this] is the object before the body runs (its members hold what the
    class gave them), [new_addr] is what [new (std::nothrow)] returns if
    it is called.  [None] stands for the exception of [os_assert_throw].
    The three pointers to the arrays are derived from [queue_addr_] as
    the attributes give it, before the allocation, as in the source. *)
Definition Message_queue_ctor (in_handler_mode : bool)
           (this : Message_queue) (mq_queue_address mq_queue_size_bytes : Z)
           (new_addr : Z) (msgs msg_size_bytes : Z)
  : option Message_queue :=
  if in_handler_mode then None
  else
    let storage_size :=
      msgs * (msg_size_bytes + 2 * sizeof_index + sizeof_priority) in
    if negb (mq_queue_address =? nullptr)
       && negb ((mq_queue_size_bytes >? 0)
                && (mq_queue_size_bytes >=? storage_size))
    then None
    else
      (* The array of prev indexes follows immediately after the content
         array, the array of next indexes the prev array, the array of
         priorities the next array. *)
      let prev_array := mq_queue_address + msgs * msg_size_bytes in
      let next_array := prev_array + msgs * sizeof_index in
      let prio_array := next_array + msgs * sizeof_index in
      let q :=
        mkMessage_queue msg_size_bytes msgs mq_queue_address
          mq_queue_size_bytes (flags_ this) (mem_ this) (prev_array_ this)
          (next_array_ this) (prio_array_ this) no_index (first_free_ this)
          (count_ this) (send_list_ this) (receive_list_ this)
          prev_array next_array prio_array in
      let q :=
        if queue_addr_ q =? nullptr
        then
          (* Dynamically allocate queue and the arrays. *)
          mkMessage_queue msg_size_bytes msgs new_addr
            mq_queue_size_bytes (Z.lor (flags_ q) flags_allocated)
            (mem_ q) (prev_array_ q) (next_array_ q) (prio_array_ q)
            (head_ q) (first_free_ q) (count_ q) (send_list_ q)
            (receive_list_ q) (prev_array_addr_ q) (next_array_addr_ q)
            (prio_array_addr_ q)
        else q in
      Some (_init q).

(** The constructor [Message_queue (msgs, msg_size_bytes)], which
    delegates to the one above with [mqueue::initializer]: attributes
    whose [mq_queue_address] is [nullptr], "which means there is no user
    defined message queue".  The size held by these attributes, declared
    in a header that is not among the sources, is a parameter; it is not
    read when the address is null. *)
Definition Message_queue_default (in_handler_mode : bool)
           (this : Message_queue) (initializer_size_bytes : Z)
           (new_addr : Z) (msgs msg_size_bytes : Z)
  : option Message_queue :=
  Message_queue_ctor in_handler_mode this nullptr initializer_size_bytes
                     new_addr msgs msg_size_bytes.

(** The destructor [~Message_queue]: the address passed to [delete[]],
    if the destructor deallocates. *)
Definition Message_queue_dtor (q : Message_queue) : option Z :=
  if negb (Z.lor (flags_ q) flags_allocated =? 0)
  then Some (queue_addr_ q)
  else None.

(** [Message_queue::_try_send]; [None] when the [while] loop does not
    stop within [fuel] iterations. *)
Definition _try_send (fuel : nat) (q : Message_queue) (msg : list Z)
           (nbytes mprio : Z) : option (bool * Message_queue) :=
  if first_free_ q =? nullptr then
    (* No available space to send the message. *)
    Some (false, q)
  else
    let dest := first_free_ q in
    (* Update to next free, if any (the last one has nullptr). *)
    let q := set_first_free q (load_ptr (mem_ q) (first_free_ q)) in
    (* Using the address, compute the index in the array. *)
    let msg_ix := Z.quot (dest - queue_addr_ q) (msg_size_bytes_ q) in
    let q := set_prio q (upd (prio_array_ q) msg_ix mprio) in
    let linked :=
      if head_ q =? no_index then
        let q := set_head q msg_ix in
        let q := set_prev q (upd (prev_array_ q) msg_ix msg_ix) in
        Some (set_next q (upd (next_array_ q) msg_ix msg_ix))
      else
        let ix := prev_array_ q (head_ q) in
        let found :=
          if mprio >? prio_array_ q (head_ q)
          then Some (set_head q msg_ix, ix)
          else
            match walk_back fuel (prev_array_ q) (prio_array_ q) mprio ix
            with
            | Some ix => Some (q, ix)
            | None => None
            end in
        match found with
        | None => None
        | Some (q, ix) =>
            let q := set_prev q (upd (prev_array_ q) msg_ix ix) in
            let q :=
              set_next q (upd (next_array_ q) msg_ix (next_array_ q ix)) in
            (* Break the chain and insert the new index. *)
            let tmp_ix := next_array_ q ix in
            let q := set_next q (upd (next_array_ q) ix msg_ix) in
            Some (set_prev q (upd (prev_array_ q) tmp_ix msg_ix))
        end in
    match linked with
    | None => None
    | Some q =>
        (* One more message added to the queue. *)
        let q := set_count q (count_ q + 1) in
        (* Copy message from user buffer to queue storage. *)
        let q := set_mem q (memcpy_to (mem_ q) dest msg nbytes) in
        let q :=
          if nbytes <? msg_size_bytes_ q
          then set_mem q (memset (mem_ q) (dest + nbytes) 0
                                 (msg_size_bytes_ q - nbytes))
          else q in
        (* Wake-up one thread, if any. *)
        let q := set_receive_list q (wakeup_one (receive_list_ q)) in
        Some (true, q)
    end.

(** [Message_queue::_try_receive]; [mprio] tells whether the pointer is
    non-null. *)
Definition _try_receive (q : Message_queue) (nbytes : Z) (mprio : bool)
  : bool * received :=
  if head_ q =? no_index then (false, mkReceived q None None)
  else
    let src := queue_addr_ q + head_ q * msg_size_bytes_ q in
    (* Copy message from queue to user buffer. *)
    let msg := memcpy_from (mem_ q) src nbytes in
    let prio := if mprio then Some (prio_array_ q (head_ q)) else None in
    let q :=
      if count_ q >? 1 then
        (* Remove the current element from the list. *)
        let q :=
          set_prev q (upd (prev_array_ q) (next_array_ q (head_ q))
                          (prev_array_ q (head_ q))) in
        let q :=
          set_next q (upd (next_array_ q) (prev_array_ q (head_ q))
                          (next_array_ q (head_ q))) in
        (* Next becomes the new head. *)
        set_head q (next_array_ q (head_ q))
      else
        (* If there was only one, the list is empty now. *)
        set_head q no_index in
    (* Link previous list to this block; may be null. *)
    let q := set_mem q (store_ptr (mem_ q) src (first_free_ q)) in
    (* Now this block is the first one. *)
    let q := set_first_free q src in
    let q := set_count q (count_ q - 1) in
    (* Wake-up one thread, if any. *)
    let q := set_send_list q (wakeup_one (send_list_ q)) in
    (true, mkReceived q (Some msg) prio).

(** [Message_queue::try_send]; [msg] is [None] for a null pointer. *)
Definition try_send (fuel : nat) (q : Message_queue) (msg : option (list Z))
           (nbytes mprio : Z) : option (result_t * Message_queue) :=
  match msg with
  | None => Some (EINVAL, q)
  | Some msg =>
      os_assert_err! (nbytes >=? msg_size_bytes_ q), (Some (EMSGSIZE, q));
      match _try_send fuel q msg nbytes mprio with
      | None => None
      | Some (true, q) => Some (ok, q)
      | Some (false, q) => Some (EAGAIN, q)
      end
  end.

(** [Message_queue::try_receive]; [msg] tells whether the pointer is
    non-null. *)
Definition try_receive (q : Message_queue) (msg : bool) (nbytes : Z)
           (mprio : bool) : result_t * received :=
  os_assert_err! msg, (EINVAL, mkReceived q None None);
  os_assert_err! (nbytes >=? msg_size_bytes_ q),
                 (EMSGSIZE, mkReceived q None None);
  os_assert_err! (nbytes <=? max_size), (EMSGSIZE, mkReceived q None None);
  let '(done, r) := _try_receive q nbytes mprio in
  if done then (ok, r) else (EAGAIN, r).

(** [Message_queue::reset]. *)
Definition reset (in_handler_mode : bool) (q : Message_queue)
  : result_t * Message_queue :=
  os_assert_err! (negb in_handler_mode), (EPERM, q);
  (ok, _init q).

End Queue.

(** Modelled from the spec: the types of [Systick_clock] are not among the
    sources.  "Ticks are a monotonic unsigned counter; subtraction is
    modular": the ticks slept are the difference of two readings within
    32 bits. *)
Definition slept (now start : Z) : Z := (now - start) mod 2 ^ 32.

Section Blocking.

Variable no_index : Z.
Variable max_size : Z.
Variables mode_all mode_any : Z.

(** The enrolment of the calling thread by
    [Waiting_threads_list_guard lg { send_list_, node }], and what its
    destructor does when the block ends. *)
Definition enrol_sender (q : Message_queue) (crt : Z) : Message_queue :=
  set_send_list q (list_enqueue (send_list_ q) crt).

Definition leave_senders (q : Message_queue) (crt : Z) : Message_queue :=
  set_send_list q (list_remove (send_list_ q) crt).

Definition enrol_receiver (q : Message_queue) (crt : Z) : Message_queue :=
  set_receive_list q (list_enqueue (receive_list_ q) crt).

Definition leave_receivers (q : Message_queue) (crt : Z) : Message_queue :=
  set_receive_list q (list_remove (receive_list_ q) crt).

(** The [for (;;)] loop of [Message_queue::send], run along a trace of
    wake-ups of the calling thread [crt] (at address [crt_addr]). *)
Fixpoint send_loop (fuel : nat) (env : list wake) (crt : Thread)
         (crt_addr : Z) (q : Message_queue) (msg : list Z)
         (nbytes mprio : Z) : option (outcome Message_queue) :=
  match _try_send no_index fuel q msg nbytes mprio with
  | None => None
  | Some (true, q) => Some (Returned ok q)
  | Some (false, q) =>
      let q := enrol_sender q crt_addr in
      match env with
      | [] => Some (Suspended q)
      | w :: env =>
          let q := leave_senders (wake_queue w q) crt_addr in
          let crt := wake_thread w crt in
          if interrupted crt then Some (Returned EINTR q)
          else send_loop fuel env crt crt_addr q msg nbytes mprio
      end
  end.

(** [Message_queue::send]. *)
Definition send (in_handler_mode : bool) (fuel : nat) (env : list wake)
           (crt : Thread) (crt_addr : Z) (q : Message_queue)
           (msg : option (list Z)) (nbytes mprio : Z)
  : option (outcome Message_queue) :=
  os_assert_err! (negb in_handler_mode), (Some (Returned EPERM q));
  match msg with
  | None => Some (Returned EINVAL q)
  | Some msg =>
      os_assert_err! (nbytes >=? msg_size_bytes_ q),
                     (Some (Returned EMSGSIZE q));
      send_loop fuel env crt crt_addr q msg nbytes mprio
  end.

(** The loop of [Message_queue::timed_send]; [now] is the tick count read
    after a failed attempt. *)
Fixpoint timed_send_loop (fuel : nat) (env : list wake) (crt : Thread)
         (crt_addr : Z) (q : Message_queue) (msg : list Z)
         (nbytes mprio timeout start now : Z)
  : option (outcome Message_queue) :=
  match _try_send no_index fuel q msg nbytes mprio with
  | None => None
  | Some (true, q) => Some (Returned ok q)
  | Some (false, q) =>
      let slept_ticks := slept now start in
      if slept_ticks >=? timeout then Some (Returned ETIMEDOUT q)
      else
        let q := enrol_sender q crt_addr in
        match env with
        | [] => Some (Suspended q)
        | w :: env =>
            let q := leave_senders (wake_queue w q) crt_addr in
            let crt := wake_thread w crt in
            if interrupted crt then Some (Returned EINTR q)
            else timed_send_loop fuel env crt crt_addr q msg nbytes mprio
                                 timeout start (wake_now w)
        end
  end.

(** [Message_queue::timed_send]; [start] and [now] are the tick counts
    read at entry and after the first attempt. *)
Definition timed_send (in_handler_mode : bool) (fuel : nat)
           (env : list wake) (crt : Thread) (crt_addr : Z)
           (q : Message_queue) (msg : option (list Z))
           (nbytes mprio timeout start now : Z)
  : option (outcome Message_queue) :=
  os_assert_err! (negb in_handler_mode), (Some (Returned EPERM q));
  match msg with
  | None => Some (Returned EINVAL q)
  | Some msg =>
      os_assert_err! (nbytes >=? msg_size_bytes_ q),
                     (Some (Returned EMSGSIZE q));
      let timeout := if timeout =? 0 then 1 else timeout in
      timed_send_loop fuel env crt crt_addr q msg nbytes mprio timeout
                      start now
  end.

(** The loop of [Message_queue::receive]. *)
Fixpoint receive_loop (env : list wake) (crt : Thread) (crt_addr : Z)
         (q : Message_queue) (nbytes : Z) (mprio : bool)
  : outcome received :=
  match _try_receive no_index q nbytes mprio with
  | (true, r) => Returned ok r
  | (false, r) =>
      let q := enrol_receiver (rcv_queue r) crt_addr in
      match env with
      | [] => Suspended (mkReceived q None None)
      | w :: env =>
          let q := leave_receivers (wake_queue w q) crt_addr in
          let crt := wake_thread w crt in
          if interrupted crt then Returned EINTR (mkReceived q None None)
          else receive_loop env crt crt_addr q nbytes mprio
      end
  end.

(** [Message_queue::receive]; [msg] tells whether the pointer is
    non-null. *)
Definition receive (in_handler_mode : bool) (env : list wake)
           (crt : Thread) (crt_addr : Z) (q : Message_queue) (msg : bool)
           (nbytes : Z) (mprio : bool) : outcome received :=
  let fail := mkReceived q None None in
  os_assert_err! (negb in_handler_mode), (Returned EPERM fail);
  os_assert_err! msg, (Returned EINVAL fail);
  os_assert_err! (nbytes >=? msg_size_bytes_ q), (Returned EMSGSIZE fail);
  os_assert_err! (nbytes <=? max_size), (Returned EMSGSIZE fail);
  receive_loop env crt crt_addr q nbytes mprio.

(** The loop of [Message_queue::timed_receive]. *)
Fixpoint timed_receive_loop (env : list wake) (crt : Thread)
         (crt_addr : Z) (q : Message_queue) (nbytes : Z) (mprio : bool)
         (timeout start now : Z) : outcome received :=
  match _try_receive no_index q nbytes mprio with
  | (true, r) => Returned ok r
  | (false, r) =>
      let slept_ticks := slept now start in
      if slept_ticks >=? timeout then Returned ETIMEDOUT r
      else
        let q := enrol_receiver (rcv_queue r) crt_addr in
        match env with
        | [] => Suspended (mkReceived q None None)
        | w :: env =>
            let q := leave_receivers (wake_queue w q) crt_addr in
            let crt := wake_thread w crt in
            if interrupted crt then Returned EINTR (mkReceived q None None)
            else timed_receive_loop env crt crt_addr q nbytes mprio
                                    timeout start (wake_now w)
        end
  end.

(** [Message_queue::timed_receive]. *)
Definition timed_receive (in_handler_mode : bool) (env : list wake)
           (crt : Thread) (crt_addr : Z) (q : Message_queue) (msg : bool)
           (nbytes : Z) (mprio : bool) (timeout start now : Z)
  : outcome received :=
  let fail := mkReceived q None None in
  os_assert_err! (negb in_handler_mode), (Returned EPERM fail);
  os_assert_err! msg, (Returned EINVAL fail);
  os_assert_err! (nbytes >=? msg_size_bytes_ q), (Returned EMSGSIZE fail);
  os_assert_err! (nbytes <=? max_size), (Returned EMSGSIZE fail);
  let timeout := if timeout =? 0 then 1 else timeout in
  timed_receive_loop env crt crt_addr q nbytes mprio timeout start now.

(** The loop of [Thread::sig_wait], on the thread [t] itself. *)
Fixpoint sig_wait_loop (env : list wake) (t : Thread) (mask : Z)
         (oflags : bool) (mode : Z) : outcome (Thread * option Z) :=
  match _try_wait mode_all mode_any t mask oflags mode with
  | (ok, t, out) => Returned ok (t, out)
  | (_, t, out) =>
      match env with
      | [] => Suspended (t, out)
      | w :: env =>
          let t := wake_thread w t in
          if interrupted t then Returned EINTR (t, out)
          else sig_wait_loop env t mask oflags mode
      end
  end.

(** [Thread::sig_wait]. *)
Definition sig_wait (in_handler_mode : bool) (env : list wake)
           (t : Thread) (mask : Z) (oflags : bool) (mode : Z)
  : outcome (Thread * option Z) :=
  os_assert_err! (negb in_handler_mode), (Returned EPERM (t, None));
  sig_wait_loop env t mask oflags mode.

End Blocking.

(** ** Sample objects

    A ready thread with a given signal mask, and a message queue object
    before its constructor has run. *)
Definition thread0 (sig : Z) : Thread :=
  mkThread 8 1024 536870912 134217728 0 0 sig ready ok.

Definition blank_queue : Message_queue :=
  mkMessage_queue 0 0 0 0 0 (fun _ => 0) (fun _ => 0) (fun _ => 0)
                  (fun _ => 0) 0 0 0 [] [] 0 0 0.

(** The constants of the missing header as the kernel's 8-bit index and
    priority types give them: [no_index] and [max_size] are 255, the flag
    [flags_allocated] is 1, an index and a priority take one byte each. *)
Definition new_queue (mq_queue_address mq_queue_size_bytes new_addr : Z)
           (msgs msg_size_bytes : Z) : option Message_queue :=
  Message_queue_ctor 255 1 1 1 false blank_queue mq_queue_address
                     mq_queue_size_bytes new_addr msgs msg_size_bytes.

(** A queue of three messages of four bytes over 64 bytes of caller's
    storage at 0x20000000. *)
Definition demo_queue : Message_queue :=
  match new_queue 536870912 64 0 3 4 with
  | Some q => q
  | None => blank_queue
  end.

(** A queue of three messages of one byte over the same storage. *)
Definition small_queue : Message_queue :=
  match new_queue 536870912 64 0 3 1 with
  | Some q => q
  | None => blank_queue
  end.


(** ** The shape of a queue

    The free blocks and the ring of messages, read off the memory and the
    arrays, and the invariant that ties them to the members of the
    object. *)

(** The address of block [i] of the content array. *)
Definition slot_addr (q : Message_queue) (i : Z) : Z :=
  queue_addr_ q + i * msg_size_bytes_ q.

(** The blocks met when following the pointers stored in the blocks from
    [p] up to [nullptr], at most [n] of them. *)
Fixpoint free_list (n : nat) (m : memory) (p : Z) : list Z :=
  match n with
  | O => []
  | S n' => if p =? nullptr then [] else p :: free_list n' m (load_ptr m p)
  end.

(** [chain m p addrs]: from [p] the pointers run through [addrs] and end
    with [nullptr]. *)
Fixpoint chain (m : memory) (p : Z) (addrs : list Z) : Prop :=
  match addrs with
  | [] => p = nullptr
  | a :: rest => p = a /\ chain m (load_ptr m a) rest
  end.

(** [adjacent P l]: [P] holds of each element of [l] and the one after
    it. *)
Fixpoint adjacent (P : Z -> Z -> Prop) (l : list Z) : Prop :=
  match l with
  | a :: (b :: _) as rest => P a b /\ adjacent P rest
  | _ => True
  end.

(** [linked prev next l]: each element of [l] has the one after it as
    [next], and is the [prev] of that one. *)
Definition linked (prev next : array) (l : list Z) : Prop :=
  adjacent (fun a b => next a = b /\ prev b = a) l.

(** The ring of messages [R], read from [head]: closed from its last
    element back to its first. *)
Definition ring (no_index : Z) (prev next : array) (head : Z) (R : list Z)
  : Prop :=
  match R with
  | [] => head = no_index
  | r :: _ => head = r /\ linked prev next (R ++ [r])
  end.

(** Priorities do not increase along [R]. *)
Definition descending (prio : array) (R : list Z) : Prop :=
  adjacent (fun a b => prio b <= prio a) R.

(** What the constructor is given: blocks that can hold a pointer, at
    least one message, indexes below [no_index], and a content array that
    lies in the 32-bit address space above [nullptr]. *)
Record geometry (no_index : Z) (q : Message_queue) : Prop := mkGeometry {
  geo_size : sizeof_ptr <= msg_size_bytes_ q;
  geo_msgs : 0 < msgs_ q <= no_index;
  geo_low : 0 < queue_addr_ q;
  geo_high : queue_addr_ q + msgs_ q * msg_size_bytes_ q <= 2 ^ 32
}.

(** The invariant: [L] lists the free blocks from [first_free_], [R] the
    enqueued ones from [head_]; each block is in exactly one of them. *)
Record Inv (no_index : Z) (q : Message_queue) (L R : list Z) : Prop := mkInv {
  inv_geometry : geometry no_index q;
  inv_slots : Forall (fun i => 0 <= i < msgs_ q) (L ++ R);
  inv_nodup : NoDup (L ++ R);
  inv_length : Z.of_nat (length (L ++ R)) = msgs_ q;
  inv_free : chain (mem_ q) (first_free_ q) (map (slot_addr q) L);
  inv_ring : ring no_index (prev_array_ q) (next_array_ q) (head_ q) R;
  inv_sorted : descending (prio_array_ q) R;
  inv_count : count_ q = Z.of_nat (length R)
}.

(** The three arrays where the code needs them: behind the content
    array, one after the other. *)
Definition arrays_in_storage (sizeof_index : Z) (q : Message_queue) : Prop :=
  prev_array_addr_ q = queue_addr_ q + msgs_ q * msg_size_bytes_ q /\
  next_array_addr_ q = prev_array_addr_ q + msgs_ q * sizeof_index /\
  prio_array_addr_ q = next_array_addr_ q + msgs_ q * sizeof_index.

(** The members that only the constructor assigns are the same in [q']
    and [q]. *)
Definition same_storage (q' q : Message_queue) : Prop :=
  msg_size_bytes_ q' = msg_size_bytes_ q /\
  msgs_ q' = msgs_ q /\
  queue_addr_ q' = queue_addr_ q /\
  prev_array_addr_ q' = prev_array_addr_ q /\
  next_array_addr_ q' = next_array_addr_ q /\
  prio_array_addr_ q' = prio_array_addr_ q.

(** A message: its priority and the bytes of its block. *)
Definition message : Type := (Z * list Z)%type.

(** The block after [_try_send]: [nbytes] bytes of the buffer, then
    zeroes up to the message size. *)
Definition payload (msg : list Z) (nbytes size : Z) : list Z :=
  map (fun k => if Z.of_nat k <? nbytes then nth k msg 0 else 0)
      (seq 0 (Z.to_nat size)).

(** The messages held by the blocks [R]. *)
Definition contents (q : Message_queue) (R : list Z) : list message :=
  map (fun i => (prio_array_ q i,
                 memcpy_from (mem_ q) (slot_addr q i) (msg_size_bytes_ q)))
      R.

(** The queue of the specification: a message goes "after the last
    equal-priority message", before the first one of lower priority. *)
Fixpoint enqueue (x : message) (l : list message) : list message :=
  match l with
  | [] => [x]
  | y :: rest => if fst x >? fst y then x :: l else y :: enqueue x rest
  end.

(** The queue after a list of sends, oldest first. *)
Definition enqueue_all (xs l : list message) : list message :=
  fold_left (fun acc x => enqueue x acc) xs l.

(** The block written by [_try_send]. *)
Definition written (m : memory) (dest : Z) (msg : list Z) (nbytes size : Z)
  : memory :=
  if nbytes <? size
  then memset (memcpy_to m dest msg nbytes) (dest + nbytes) 0 (size - nbytes)
  else memcpy_to m dest msg nbytes.

(** [before x y]: [x] may come out before [y]. *)
Definition before (x y : message) : Prop := fst y <= fst x.

(** The blocks of a queue, in the order [_init] links them. *)
Definition all_slots (q : Message_queue) : list Z :=
  map Z.of_nat (seq 0 (Z.to_nat (msgs_ q))).

(** ** Sequences of operations

    Every variant of send and receive acts on the queue through
    [_try_send] and [_try_receive], and [reset] through [_init]: an
    operation is one such attempt, a call of [try_send] or [try_receive],
    or a call of [reset]. *)
Inductive operation : Type :=
| Send (msg : list Z) (nbytes mprio : Z)
| Receive (nbytes : Z) (mprio : bool)
| TrySend (msg : option (list Z)) (nbytes mprio : Z)
| TryReceive (msg : bool) (nbytes : Z) (mprio : bool)
| Reset (in_handler_mode : bool).

Definition run_operation (no_index max_size : Z) (fuel : nat)
           (q : Message_queue) (o : operation) : option Message_queue :=
  match o with
  | Send msg nbytes mprio =>
      match _try_send no_index fuel q msg nbytes mprio with
      | Some (_, q) => Some q
      | None => None
      end
  | Receive nbytes mprio =>
      Some (rcv_queue (snd (_try_receive no_index q nbytes mprio)))
  | TrySend msg nbytes mprio =>
      match try_send no_index fuel q msg nbytes mprio with
      | Some (_, q) => Some q
      | None => None
      end
  | TryReceive msg nbytes mprio =>
      Some (rcv_queue (snd (try_receive no_index max_size q msg nbytes
                                        mprio)))
  | Reset h => Some (snd (reset no_index h q))
  end.

Fixpoint run_operations (no_index max_size : Z) (fuel : nat)
         (q : Message_queue) (os : list operation) : option Message_queue :=
  match os with
  | [] => Some q
  | o :: os =>
      match run_operation no_index max_size fuel q o with
      | Some q => run_operations no_index max_size fuel q os
      | None => None
      end
  end.

(** A send that stays within its block: [0 <= nbytes <= msg_size]. *)
Definition fits (msg_size : Z) (o : operation) : Prop :=
  match o with
  | Send _ nbytes _ | TrySend _ nbytes _ => 0 <= nbytes <= msg_size
  | _ => True
  end.

(** [send_all]: the sends of a list of messages, each of the full
    message size; the flags tell which attempts succeeded. *)
Fixpoint send_all (no_index : Z) (fuel : nat) (q : Message_queue)
         (xs : list message) : option (list bool * Message_queue) :=
  match xs with
  | [] => Some ([], q)
  | (mprio, msg) :: xs =>
      match _try_send no_index fuel q msg (msg_size_bytes_ q) mprio with
      | None => None
      | Some (b, q) =>
          match send_all no_index fuel q xs with
          | None => None
          | Some (bs, q) => Some (b :: bs, q)
          end
      end
  end.

(** [receive_all]: [n] receives into buffers of the message size, with
    the priority asked for; what each one returned. *)
Fixpoint receive_all (no_index : Z) (n : nat) (q : Message_queue)
  : list (bool * option (list Z) * option Z) * Message_queue :=
  match n with
  | O => ([], q)
  | S n' =>
      let '(b, r) := _try_receive no_index q (msg_size_bytes_ q) true in
      let '(rs, q') := receive_all no_index n' (rcv_queue r) in
      ((b, rcv_msg r, rcv_prio r) :: rs, q')
  end.

(** What a successful receive returns for a message. *)
Definition delivered (x : message)
  : bool * option (list Z) * option Z :=
  (true, Some (snd x), Some (fst x)).

(** ** Sample runs

    A sample of operations on the sample queue, the three messages of the
    first scenario of the specification, and the sample queue after a
    message of priority 5 and one of priority 1, of four bytes each. *)
Definition demo_operations : list operation :=
  [Send [1; 2; 3; 4] 4 5; Send [9; 9] 2 7; Receive 4 true;
   TrySend (Some [5; 6; 7; 8]) 4 5; Send [0; 0; 0; 1] 4 6; Send [7] 1 9;
   TryReceive true 4 true; Reset false; TrySend (Some [1; 1]) 2 0;
   Send [1; 1; 1; 1] 4 0; Receive 8 false].

Definition demo_messages : list message :=
  [(5, [1; 0; 0; 0]); (9, [2; 0; 0; 0]); (5, [3; 0; 0; 0])].

Definition demo_sent : Message_queue :=
  match send_all 255 3 demo_queue [(5, [1; 2; 3; 4]); (1, [5; 6; 7; 8])] with
  | Some (_, q) => q
  | None => blank_queue
  end.

(** ** More of the thread and of the queue

    The functions of [Thread] beside the signal flags, the timed wait for
    signal flags, and the ring of the queue read off its arrays. *)

Definition set_thread_prio (t : Thread) (p : Z) : Thread :=
  mkThread p (stack_size_bytes_ t) (stack_addr_ t) (func_ t)
           (func_args_ t) (func_result_ t) (sig_mask_ t) (sched_state_ t)
           (wakeup_reason_ t).

Section Priority.

(** The values [thread::priority::none] and [thread::priority::error] come
    from a header that is not among the sources: they are parameters. *)
Variables priority_none priority_error : Z.

(** [Thread::sched_prio (void)]. *)
Definition sched_prio (in_handler_mode : bool) (t : Thread) : Z :=
  os_assert_err! (negb in_handler_mode), priority_error;
  prio_ t.

(** [Thread::sched_prio (prio)]; [None] stands for the failed
    [assert (prio != thread::priority::none)]. *)
Definition sched_prio_set (in_handler_mode : bool) (t : Thread) (prio : Z)
  : option (result_t * Thread) :=
  os_assert_err! (negb in_handler_mode), (Some (EPERM, t));
  if prio =? priority_none then None
  else Some (ok, set_thread_prio t prio).

End Priority.

(** [Thread::join]; [exit_ptr] tells whether the pointer is non-null, the
    second component is what is stored through it. *)
Definition join (in_handler_mode : bool) (t : Thread) (exit_ptr : bool)
  : result_t * option Z :=
  os_assert_err! (negb in_handler_mode), (EPERM, None);
  (ok, if exit_ptr then Some (func_result_ t) else None).

(** [Thread::detach]. *)
Definition detach (in_handler_mode : bool) (t : Thread) : result_t :=
  os_assert_err! (negb in_handler_mode), EPERM;
  ok.

Section TimedFlags.

Variables mode_all mode_any : Z.

(** The loop of [Thread::timed_sig_wait]; [now] is the tick count read
    after a failed attempt, the wake-up ends [Systick_clock::sleep_for]. *)
Fixpoint timed_sig_wait_loop (env : list wake) (t : Thread) (mask : Z)
         (oflags : bool) (mode ticks start now : Z)
  : outcome (Thread * option Z) :=
  match _try_wait mode_all mode_any t mask oflags mode with
  | (ok, t, out) => Returned ok (t, out)
  | (_, t, out) =>
      let slept_ticks := slept now start in
      if slept_ticks >=? ticks then Returned ETIMEDOUT (t, out)
      else
        match env with
        | [] => Suspended (t, out)
        | w :: env =>
            let t := wake_thread w t in
            if interrupted t then Returned EINTR (t, out)
            else timed_sig_wait_loop env t mask oflags mode ticks start
                                     (wake_now w)
        end
  end.

(** [Thread::timed_sig_wait]. *)
Definition timed_sig_wait (in_handler_mode : bool) (env : list wake)
           (t : Thread) (mask : Z) (oflags : bool)
           (mode ticks start now : Z) : outcome (Thread * option Z) :=
  os_assert_err! (negb in_handler_mode), (Returned EPERM (t, None));
  let ticks := if ticks =? 0 then 1 else ticks in
  timed_sig_wait_loop env t mask oflags mode ticks start now.

End TimedFlags.

(** The blocks met when following [next_array_] from [i], [n] of them. *)
Fixpoint ring_walk (n : nat) (next : array) (i : Z) : list Z :=
  match n with
  | O => []
  | S n' => i :: ring_walk n' next (next i)
  end.

(** The wake-up of a thread by a [sig_raise (mask)] from an interrupt
    handler or another thread. *)
Definition wake_raise (mask now : Z) : wake :=
  mkWake (fun q => q) (fun t => snd (fst (sig_raise t mask false))) now.

(** The wake-up of a blocked sender after another thread or a handler
    made an attempt to receive, and of a blocked receiver after an attempt
    to send. *)
Definition wake_after_receive (no_index nbytes : Z) (mprio : bool)
           (now : Z) : wake :=
  mkWake (fun q => rcv_queue (snd (_try_receive no_index q nbytes mprio)))
         wakeup now.

Definition wake_after_send (no_index : Z) (fuel : nat) (msg : list Z)
           (nbytes mprio now : Z) : wake :=
  mkWake (fun q => match _try_send no_index fuel q msg nbytes mprio with
                   | Some (_, q') => q'
                   | None => q
                   end)
         wakeup now.

(** A queue of two messages of 300 bytes. *)
Definition wide_queue : Message_queue :=
  match new_queue 536870912 1024 0 2 300 with
  | Some q => q
  | None => blank_queue
  end.

(** The sample queue after a list of operations, three sends that fill
    it, and a use that leaves it with two messages and one free block. *)
Definition demo_after (os : list operation) : Message_queue :=
  match run_operations 255 255 3 demo_queue os with
  | Some q => q
  | None => blank_queue
  end.

Definition demo_fill : list operation :=
  [Send [1; 2; 3; 4] 4 5; Send [5; 6; 7; 8] 4 9; Send [9; 10; 11; 12] 4 5].

Definition demo_some : list operation :=
  [Send [1; 2; 3; 4] 4 5; Send [5; 6; 7; 8] 4 9; Receive 4 true;
   Send [9; 10; 11; 12] 4 5].

(** * Properties *)

(** ** Bits of the signal mask *)

Lemma testbit_sig_not (mask i : Z) :
  0 <= i ->
  Z.testbit (sig_not mask) i = negb (Z.testbit mask i) && (i <? sigset_bits).
Proof.
  intros Hi. unfold sig_not, sigset_bits.
  rewrite Z.land_spec, Z.lnot_spec by exact Hi.
  rewrite Z.testbit_ones_nonneg by lia.
  reflexivity.
Qed.

Lemma land_sig_not_land (s mask : Z) :
  Z.land (Z.land s (sig_not mask)) mask = 0.
Proof.
  apply Z.bits_inj'. intros i Hi.
  rewrite !Z.land_spec, testbit_sig_not, Z.bits_0 by exact Hi.
  destruct (Z.testbit mask i); simpl.
  - now rewrite andb_false_r.
  - now rewrite andb_false_r.
Qed.

(** ** Thread life cycle and signal flags *)

Section ThreadProperties.

Variables mode_all mode_any mode_clear sig_error : Z.

(** C10. [kill] returns [ok] whatever the state of the thread, terminated
    and destroyed included; afterwards the scheduling state is
    [inactive] and every other member (the priority, the signal mask and
    the exit value among them) is as before. *)
Theorem kill_sets_inactive_only (t : Thread) :
  fst (kill t) = ok /\
  sched_state_ (snd (kill t)) = inactive /\
  prio_ (snd (kill t)) = prio_ t /\
  sig_mask_ (snd (kill t)) = sig_mask_ t /\
  func_result_ (snd (kill t)) = func_result_ t /\
  stack_size_bytes_ (snd (kill t)) = stack_size_bytes_ t /\
  stack_addr_ (snd (kill t)) = stack_addr_ t /\
  func_ (snd (kill t)) = func_ t /\
  func_args_ (snd (kill t)) = func_args_ t /\
  wakeup_reason_ (snd (kill t)) = wakeup_reason_ t.
Proof.
  destruct t; cbn. repeat split; reflexivity.
Qed.

(** C9. Called from a thread with [mask = 0], [sig_get] returns the
    whole signal mask and leaves the thread as it is, whatever the mode,
    [clear] included. *)
Theorem sig_get_zero_mask_returns_all (t : Thread) (mode : Z) :
  sig_get mode_clear sig_error false t 0 mode = (sig_mask_ t, t).
Proof.
  unfold sig_get, os_assert_err. cbn [negb].
  rewrite Z.eqb_refl.
  reflexivity.
Qed.

(** In handler mode [sig_get] leaves the thread as it is, too. *)
Lemma sig_get_zero_mask_frame (h : bool) (t : Thread) (mode : Z) :
  snd (sig_get mode_clear sig_error h t 0 mode) = t.
Proof.
  destruct h; reflexivity.
Qed.

(** C8, amended. For a mask that is not zero, two [sig_get (mask, clear)]
    in a row from a thread: the second returns 0. *)
Theorem sig_get_clear_twice (t : Thread) (mask mode : Z) :
  mask <> 0 ->
  Z.land mode mode_clear <> 0 ->
  fst (sig_get mode_clear sig_error false
               (snd (sig_get mode_clear sig_error false t mask mode))
               mask mode) = 0.
Proof.
  intros Hmask Hclear.
  apply Z.eqb_neq in Hmask. apply Z.eqb_neq in Hclear.
  unfold sig_get, os_assert_err. cbn [negb].
  rewrite Hmask, Hclear. cbn.
  apply land_sig_not_land.
Qed.

(** C6, the code at the failing input. With the bit [any] and without the
    bit [all] in the mode, a thread whose signal mask is 0b0010 asks for
    the mask 0b0100: no bit of the mask is raised, yet the call returns
    [ok], stores 0b0010 and clears the whole signal mask. *)
Theorem try_sig_wait_any_ignores_mask (t : Thread) (mode : Z) :
  Z.land mode mode_all = 0 ->
  Z.land mode mode_any <> 0 ->
  sig_mask_ t = 2 ->
  Z.land (sig_mask_ t) 4 = 0 /\
  try_sig_wait mode_all mode_any false t 4 true mode
  = (ok, set_sig_mask t 0, Some 2).
Proof.
  intros Hall Hany Hsig.
  apply Z.eqb_neq in Hany.
  unfold try_sig_wait, _try_wait, os_assert_err. cbn [negb].
  rewrite Hall, Hany, Hsig. split; reflexivity.
Qed.

(** In the mode [any], [_try_wait] succeeds exactly when the signal mask
    is not zero, and then clears all of it. *)
Lemma try_wait_any (t : Thread) (mask : Z) (oflags : bool) (mode : Z) :
  Z.land mode mode_all = 0 ->
  Z.land mode mode_any <> 0 ->
  _try_wait mode_all mode_any t mask oflags mode
  = if sig_mask_ t =? 0 then (EAGAIN, t, None)
    else (ok, set_sig_mask t 0,
          if oflags then Some (sig_mask_ t) else None).
Proof.
  intros Hall Hany. apply Z.eqb_neq in Hany.
  unfold _try_wait. rewrite Hall, Hany. cbn.
  rewrite andb_false_r, orb_true_r.
  destruct (sig_mask_ t =? 0); reflexivity.
Qed.

End ThreadProperties.

(** C8 does not hold for the mask 0: the whole signal mask comes back and
    nothing is cleared, so the second call returns it again. *)
Lemma sig_get_clear_twice_counterexample :
  fst (sig_get 4 2147483648 false
               (snd (sig_get 4 2147483648 false (thread0 5) 0 4)) 0 4) = 5
  /\ 5 <> 0.
Proof.
  split; [reflexivity | discriminate].
Qed.

Lemma sig_get_clear_twice_witness :
  fst (sig_get 4 2147483648 false
               (snd (sig_get 4 2147483648 false (thread0 7) 5 4)) 5 4) = 0.
Proof.
  apply (sig_get_clear_twice 4 2147483648 (thread0 7) 5 4).
  - discriminate.
  - discriminate.
Defined.

Lemma try_sig_wait_any_ignores_mask_witness :
  Z.land (sig_mask_ (thread0 2)) 4 = 0 /\
  try_sig_wait 1 2 false (thread0 2) 4 true 2
  = (ok, set_sig_mask (thread0 2) 0, Some 2).
Proof.
  apply (try_sig_wait_any_ignores_mask 1 2 (thread0 2) 2).
  - reflexivity.
  - discriminate.
  - reflexivity.
Defined.

(** ** The checks at the entry of the queue functions *)

Section QueueEntry.

Variables no_index max_size flags_allocated : Z.
Variables sizeof_index sizeof_priority : Z.

(** What [_init] leaves as it is, and what it sets. *)
Lemma init_static (q : Message_queue) :
  msg_size_bytes_ (_init no_index q) = msg_size_bytes_ q /\
  msgs_ (_init no_index q) = msgs_ q /\
  queue_addr_ (_init no_index q) = queue_addr_ q /\
  flags_ (_init no_index q) = flags_ q /\
  prev_array_ (_init no_index q) = prev_array_ q /\
  next_array_ (_init no_index q) = next_array_ q /\
  prio_array_ (_init no_index q) = prio_array_ q.
Proof.
  unfold _init. destruct (init_blocks _ _ _ _) as [m p].
  destruct q as [? ? ? ? ? ? ? ? ? ? ? ? [|s sl] [|r rl] ? ? ?]; cbn;
    repeat split; reflexivity.
Qed.

Lemma init_dynamic (q : Message_queue) :
  count_ (_init no_index q) = 0 /\
  head_ (_init no_index q) = no_index /\
  first_free_ (_init no_index q) = queue_addr_ q /\
  send_list_ (_init no_index q) = [] /\
  receive_list_ (_init no_index q) = [] /\
  mem_ (_init no_index q)
  = store_ptr
      (fst (init_blocks (Z.to_nat (msgs_ q - 1)) (mem_ q) (queue_addr_ q)
                        (msg_size_bytes_ q)))
      (snd (init_blocks (Z.to_nat (msgs_ q - 1)) (mem_ q) (queue_addr_ q)
                        (msg_size_bytes_ q)))
      nullptr.
Proof.
  unfold _init.
  destruct q as [? ? ? ? ? ? ? ? ? ? ? ? [|s sl] [|r rl] ? ? ?]; cbn;
    destruct (init_blocks _ _ _ _) as [m p]; cbn;
    repeat split; reflexivity.
Qed.

Lemma send_loop_result (fuel : nat) (env : list wake) (crt : Thread)
      (crt_addr : Z) (q : Message_queue) (msg : list Z) (nbytes mprio : Z)
      (r : result_t) (q' : Message_queue) :
  send_loop no_index fuel env crt crt_addr q msg nbytes mprio
  = Some (Returned r q') -> r = ok.
Proof.
  revert crt q. induction env as [|w env IH]; intros crt q; cbn.
  - destruct (_try_send no_index fuel q msg nbytes mprio) as [[[] q1]|];
      intros H; inversion H; reflexivity.
  - destruct (_try_send no_index fuel q msg nbytes mprio) as [[[] q1]|];
      intros H; try (inversion H; reflexivity).
    unfold interrupted in H. apply IH in H. exact H.
Qed.

Lemma timed_send_loop_result (fuel : nat) (env : list wake) (crt : Thread)
      (crt_addr : Z) (q : Message_queue) (msg : list Z)
      (nbytes mprio timeout start now : Z)
      (r : result_t) (q' : Message_queue) :
  timed_send_loop no_index fuel env crt crt_addr q msg nbytes mprio timeout
                  start now
  = Some (Returned r q') -> r = ok \/ r = ETIMEDOUT.
Proof.
  revert crt q now. induction env as [|w env IH]; intros crt q now; cbn.
  - destruct (_try_send no_index fuel q msg nbytes mprio) as [[[] q1]|];
      [intros H; inversion H; auto | | discriminate].
    destruct (slept now start >=? timeout); intros H; inversion H; auto.
  - destruct (_try_send no_index fuel q msg nbytes mprio) as [[[] q1]|];
      [intros H; inversion H; auto | | discriminate].
    destruct (slept now start >=? timeout); intros H.
    + inversion H; auto.
    + unfold interrupted in H. apply IH in H. exact H.
Qed.

Lemma receive_loop_result (env : list wake) (crt : Thread) (crt_addr : Z)
      (q : Message_queue) (nbytes : Z) (mprio : bool)
      (r : result_t) (x : received) :
  receive_loop no_index env crt crt_addr q nbytes mprio = Returned r x ->
  r = ok.
Proof.
  revert crt q. induction env as [|w env IH]; intros crt q; cbn.
  - destruct (_try_receive no_index q nbytes mprio) as [[] r1];
      intros H; inversion H; reflexivity.
  - destruct (_try_receive no_index q nbytes mprio) as [[] r1];
      intros H; [inversion H; reflexivity|].
    unfold interrupted in H. apply IH in H. exact H.
Qed.

Lemma timed_receive_loop_result (env : list wake) (crt : Thread)
      (crt_addr : Z) (q : Message_queue) (nbytes : Z) (mprio : bool)
      (timeout start now : Z) (r : result_t) (x : received) :
  timed_receive_loop no_index env crt crt_addr q nbytes mprio timeout start
                     now = Returned r x ->
  r = ok \/ r = ETIMEDOUT.
Proof.
  revert crt q now. induction env as [|w env IH]; intros crt q now; cbn.
  - destruct (_try_receive no_index q nbytes mprio) as [[] r1];
      [intros H; inversion H; auto|].
    destruct (slept now start >=? timeout); intros H; inversion H; auto.
  - destruct (_try_receive no_index q nbytes mprio) as [[] r1];
      [intros H; inversion H; auto|].
    destruct (slept now start >=? timeout); intros H.
    + inversion H; auto.
    + unfold interrupted in H. apply IH in H. exact H.
Qed.

(** C1, the check as the code has it. Called from a thread with a buffer
    that is not null, each of [try_send], [send] and [timed_send] fails
    with [EMSGSIZE] exactly when [nbytes] is below the message size of the
    queue: a shorter message is refused and a longer one is not. *)
Theorem send_size_check (fuel : nat) (env : list wake) (crt : Thread)
        (crt_addr : Z) (q : Message_queue) (msg : list Z)
        (nbytes mprio timeout start now : Z) :
  ((exists q', try_send no_index fuel q (Some msg) nbytes mprio
               = Some (EMSGSIZE, q'))
   <-> nbytes < msg_size_bytes_ q) /\
  ((exists q', send no_index false fuel env crt crt_addr q (Some msg) nbytes
                    mprio = Some (Returned EMSGSIZE q'))
   <-> nbytes < msg_size_bytes_ q) /\
  ((exists q', timed_send no_index false fuel env crt crt_addr q (Some msg)
                          nbytes mprio timeout start now
               = Some (Returned EMSGSIZE q'))
   <-> nbytes < msg_size_bytes_ q).
Proof.
  unfold try_send, send, timed_send, os_assert_err. cbn [negb].
  destruct (Z.geb_spec nbytes (msg_size_bytes_ q)) as [Hge | Hlt].
  - repeat split; try (intros; lia).
    + intros [q' H].
      destruct (_try_send no_index fuel q msg nbytes mprio) as [[[] q1]|];
        discriminate H.
    + intros [q' H]. apply send_loop_result in H. discriminate H.
    + intros [q' H]. apply timed_send_loop_result in H.
      destruct H; discriminate.
  - repeat split; intros; try lia; exists q; reflexivity.
Qed.

(** C5, the destructor as the code has it. Whatever the ownership flag,
    the destructor deallocates: a queue built over storage of the caller,
    whose flag is not set, has that storage passed to [delete[]]. *)
Theorem dtor_frees_caller_storage (this : Message_queue)
        (address size new_addr msgs msg_size_bytes : Z)
        (q : Message_queue) :
  flags_allocated <> 0 ->
  address <> nullptr ->
  flags_ this = 0 ->
  Message_queue_ctor no_index flags_allocated sizeof_index sizeof_priority
                     false this address size new_addr msgs msg_size_bytes
  = Some q ->
  flags_ q = 0 /\ queue_addr_ q = address /\
  Message_queue_dtor flags_allocated q = Some address.
Proof.
  intros Hflag Haddr Hthis Hctor.
  unfold Message_queue_ctor in Hctor.
  apply Z.eqb_neq in Haddr. cbn [queue_addr_] in Hctor.
  rewrite Haddr in Hctor. cbn [negb andb] in Hctor.
  destruct (negb _) in Hctor; [discriminate|].
  injection Hctor as <-.
  assert (Hf : forall q0, flags_ (_init no_index q0) = flags_ q0)
    by (intros q0; apply init_static).
  assert (Ha : forall q0, queue_addr_ (_init no_index q0) = queue_addr_ q0)
    by (intros q0; apply init_static).
  unfold Message_queue_dtor. rewrite Hf, Ha. cbn.
  rewrite Hthis. repeat split.
  cbn. destruct flags_allocated; [contradiction Hflag | |]; reflexivity.
Qed.

(** The destructor deallocates whatever the flags are. *)
Lemma dtor_always_frees (q : Message_queue) :
  flags_allocated <> 0 ->
  Message_queue_dtor flags_allocated q = Some (queue_addr_ q).
Proof.
  intros Hflag. unfold Message_queue_dtor.
  destruct (Z.eqb_spec (Z.lor (flags_ q) flags_allocated) 0) as [H|H];
    [|reflexivity].
  apply Z.lor_eq_0_iff in H. tauto.
Qed.

End QueueEntry.

(** ** Interruption *)

Section Interruption.

Variables no_index max_size mode_all mode_any : Z.




End Interruption.


Lemma dtor_frees_caller_storage_witness :
  flags_ demo_queue = 0 /\ queue_addr_ demo_queue = 536870912 /\
  Message_queue_dtor 1 demo_queue = Some 536870912.
Proof.
  apply (dtor_frees_caller_storage 255 1 1 1 blank_queue 536870912 64 0 3 4).
  - discriminate.
  - discriminate.
  - reflexivity.
  - reflexivity.
Defined.

(** * The queue as a data structure *)

(** ** Memory *)

Ltac eqb_cases :=
  repeat match goal with
         | |- context [?x =? ?y] => destruct (Z.eqb_spec x y); try lia
         end.

Lemma store_ptr_outside (m : memory) (a p x : Z) :
  x < a \/ a + sizeof_ptr <= x -> store_ptr m a p x = m x.
Proof.
  unfold sizeof_ptr, store_ptr, store_byte. intros H. now eqb_cases.
Qed.

Lemma load_store_ptr (m : memory) (a p : Z) :
  0 <= p < 2 ^ 32 -> load_ptr (store_ptr m a p) a = p.
Proof.
  intros Hp. unfold load_ptr, store_ptr, store_byte. eqb_cases.
  change (2 ^ 32) with 4294967296 in Hp.
  Z.div_mod_to_equations. lia.
Qed.

Lemma load_ptr_ext (m m' : memory) (a : Z) :
  (forall x, a <= x < a + sizeof_ptr -> m x = m' x) ->
  load_ptr m a = load_ptr m' a.
Proof.
  unfold sizeof_ptr, load_ptr. intros H.
  rewrite (H a), (H (a + 1)), (H (a + 2)), (H (a + 3)) by lia.
  reflexivity.
Qed.

Lemma memcpy_from_ext (m m' : memory) (src n : Z) :
  (forall x, src <= x < src + n -> m x = m' x) ->
  memcpy_from m src n = memcpy_from m' src n.
Proof.
  intros H. unfold memcpy_from. apply map_ext_in.
  intros i Hi. apply in_seq in Hi. apply H. lia.
Qed.

Lemma memcpy_from_length (m : memory) (src n : Z) :
  length (memcpy_from m src n) = Z.to_nat n.
Proof.
  unfold memcpy_from. now rewrite length_map, length_seq.
Qed.

Lemma chain_ext (m m' : memory) (addrs : list Z) (p : Z) :
  (forall a, In a addrs ->
             forall x, a <= x < a + sizeof_ptr -> m x = m' x) ->
  chain m p addrs -> chain m' p addrs.
Proof.
  revert p. induction addrs as [|a addrs IH]; intros p H; cbn.
  - trivial.
  - intros [-> Hc]. split; [reflexivity|].
    rewrite <- (load_ptr_ext m m') by (apply H; left; reflexivity).
    apply IH; [|exact Hc].
    intros b Hb. apply H. right. exact Hb.
Qed.

Lemma chain_free_list (m : memory) (addrs : list Z) (p : Z) (n : nat) :
  chain m p addrs ->
  Forall (fun a => a <> nullptr) addrs ->
  (length addrs < n)%nat ->
  free_list n m p = addrs.
Proof.
  revert p n. induction addrs as [|a addrs IH]; intros p n Hc Hnz Hn.
  - cbn in Hc. subst p. destruct n; [inversion Hn | reflexivity].
  - destruct Hc as [-> Hc]. inversion Hnz as [|? ? Ha Hnz']; subst.
    destruct n as [|n]; [inversion Hn|]. cbn [free_list].
    apply Z.eqb_neq in Ha. rewrite Ha. f_equal.
    apply IH; [exact Hc | exact Hnz' | cbn in Hn; lia].
Qed.

(** The loop of [_init] writes at [p] and above only. *)
Lemma init_blocks_below (n : nat) (m : memory) (p size x : Z) :
  0 <= size -> x < p ->
  fst (init_blocks n m p size) x = m x.
Proof.
  intros Hsize. revert m p. induction n as [|n IH]; intros m p Hx; cbn.
  - reflexivity.
  - rewrite IH by lia. apply store_ptr_outside. lia.
Qed.

Lemma init_blocks_end (n : nat) (m : memory) (p size : Z) :
  snd (init_blocks n m p size) = p + Z.of_nat n * size.
Proof.
  revert m p. induction n as [|n IH]; intros m p.
  - cbn. lia.
  - cbn [init_blocks]. rewrite IH. lia.
Qed.

(** After the loop and the final [nullptr], the blocks form a chain. *)
Lemma init_blocks_chain (n : nat) (m : memory) (p size : Z) :
  sizeof_ptr <= size -> 0 < p ->
  p + (Z.of_nat n + 1) * size <= 2 ^ 32 ->
  chain (store_ptr (fst (init_blocks n m p size))
                   (snd (init_blocks n m p size)) nullptr)
        p (map (fun k => p + Z.of_nat k * size) (seq 0 (S n))).
Proof.
  intros Hsize. revert m p. induction n as [|n IH]; intros m p Hp Hhigh.
  - cbn. split; [lia|]. replace (p + 0) with p by lia.
    apply load_store_ptr. unfold nullptr. lia.
  - cbn [init_blocks].
    change (seq 0 (S (S n))) with (0%nat :: seq 1 (S n)).
    cbn [map chain]. split; [lia|].
    unfold sizeof_ptr in Hsize.
    assert (Hload :
      load_ptr (store_ptr (fst (init_blocks n (store_ptr m p (p + size))
                                            (p + size) size))
                          (snd (init_blocks n (store_ptr m p (p + size))
                                            (p + size) size)) nullptr)
               (p + Z.of_nat 0 * size) = p + size).
    { replace (p + Z.of_nat 0 * size) with p by lia.
      rewrite (load_ptr_ext _ (store_ptr m p (p + size))).
      - apply load_store_ptr. nia.
      - intros x Hx. unfold sizeof_ptr in Hx.
        rewrite store_ptr_outside
          by (rewrite init_blocks_end; unfold sizeof_ptr; nia).
        apply init_blocks_below; lia. }
    rewrite Hload.
    rewrite <- seq_shift, map_map.
    erewrite map_ext; [apply IH; nia|].
    intros k. cbn beta. lia.
Qed.

(** ** Arrays and adjacency *)

Lemma upd_same (a : array) (i v : Z) : upd a i v i = v.
Proof. unfold upd. now rewrite Z.eqb_refl. Qed.

Lemma upd_other (a : array) (i v j : Z) : j <> i -> upd a i v j = a j.
Proof. unfold upd. intros H. apply Z.eqb_neq in H. now rewrite H. Qed.

Lemma adjacent_app (P : Z -> Z -> Prop) (l1 : list Z) (c : Z) (l2 : list Z) :
  adjacent P (l1 ++ c :: l2) <-> adjacent P (l1 ++ [c]) /\ adjacent P (c :: l2).
Proof.
  induction l1 as [|a l1 IH].
  - cbn. tauto.
  - destruct l1 as [|b l1].
    + cbn. tauto.
    + change (adjacent P ((a :: b :: l1) ++ c :: l2))
        with (P a b /\ adjacent P ((b :: l1) ++ c :: l2)).
      change (adjacent P ((a :: b :: l1) ++ [c]))
        with (P a b /\ adjacent P ((b :: l1) ++ [c])).
      tauto.
Qed.

Lemma adjacent_ext (P Q : Z -> Z -> Prop) (l : list Z) :
  (forall a b, In a (removelast l) -> In b (tl l) -> P a b -> Q a b) ->
  adjacent P l -> adjacent Q l.
Proof.
  induction l as [|a l IH]; [trivial|].
  destruct l as [|b l]; [trivial|].
  intros H [Hab Hl]. split.
  - apply H; [left; reflexivity | left; reflexivity | exact Hab].
  - apply IH; [|exact Hl].
    intros x y Hx Hy. apply H.
    + change (removelast (a :: b :: l)) with (a :: removelast (b :: l)).
      right. exact Hx.
    + right. exact Hy.
Qed.

Lemma adjacent_tail (P : Z -> Z -> Prop) (a : Z) (l : list Z) :
  adjacent P (a :: l) -> adjacent P l.
Proof.
  destruct l as [|b l]; [trivial|]. intros [_ H]. exact H.
Qed.

Lemma in_removelast (a : Z) (l : list Z) : In a (removelast l) -> In a l.
Proof.
  induction l as [|b l IH]; [trivial|].
  destruct l as [|c l]; [contradiction|].
  intros [->|H]; [left; reflexivity | right; apply IH; exact H].
Qed.

Lemma in_tl (a : Z) (l : list Z) : In a (tl l) -> In a l.
Proof.
  destruct l; [trivial | right; assumption].
Qed.

Lemma removelast_snoc (l : list Z) (c : Z) : removelast (l ++ [c]) = l.
Proof.
  apply removelast_last.
Qed.

Lemma nodup_not_in_tl (l : list Z) (d : Z) :
  NoDup l -> ~ In (hd d l) (tl l).
Proof.
  destruct l as [|a l]; [intros _ []|].
  intros H. inversion H. assumption.
Qed.

Lemma nodup_snoc_not_in (l : list Z) (c : Z) :
  NoDup (l ++ [c]) -> ~ In c l.
Proof.
  intros H. apply NoDup_remove_2 in H. now rewrite app_nil_r in H.
Qed.

(** Inserting [x] between [a] and the element [t] that follows it. *)
Lemma linked_insert (pv nx : array) (l1 : list Z) (a t : Z) (l3 : list Z)
      (x : Z) :
  linked pv nx (l1 ++ a :: t :: l3) ->
  ~ In x (l1 ++ a :: t :: l3) ->
  ~ In a l1 -> ~ In a (removelast (t :: l3)) ->
  ~ In t (tl (l1 ++ [a])) -> ~ In t l3 ->
  linked (upd (upd pv x a) t x) (upd (upd nx x t) a x)
         (l1 ++ a :: x :: t :: l3).
Proof.
  unfold linked. intros Hl Hx Ha1 Ha3 Ht1 Ht3.
  apply adjacent_app in Hl. destruct Hl as [Hl1 [[Hnx Hpv] Hl3]].
  assert (Hxa : x <> a) by (intros ->; apply Hx, in_elt).
  assert (Hxt : x <> t).
  { intros ->. apply Hx. apply in_or_app. right. right. left. reflexivity. }
  apply adjacent_app. split; [|split; [|split]].
  - revert Hl1. apply adjacent_ext.
    intros c d Hc Hd [H1 H2].
    rewrite removelast_snoc in Hc.
    assert (c <> a) by (intros ->; contradiction).
    assert (c <> x).
    { intros ->. apply Hx. apply in_or_app. left. exact Hc. }
    assert (d <> t) by (intros ->; contradiction).
    assert (d <> x).
    { intros ->. apply Hx. apply in_tl in Hd. apply in_app_or in Hd.
      apply in_or_app. destruct Hd as [Hd|[<-|[]]];
        [left; exact Hd | right; left; reflexivity]. }
    now rewrite !upd_other by assumption.
  - rewrite upd_same, upd_other, upd_same by assumption. tauto.
  - rewrite upd_other, !upd_same by assumption. tauto.
  - revert Hl3. apply adjacent_ext.
    intros c d Hc Hd [H1 H2]. cbn [tl] in Hd.
    assert (c <> a) by (intros ->; contradiction).
    assert (c <> x).
    { intros ->. apply Hx. apply in_removelast in Hc.
      apply in_or_app. right. right. exact Hc. }
    assert (d <> t) by (intros ->; contradiction).
    assert (d <> x).
    { intros ->. apply Hx. apply in_or_app. right. right. right. exact Hd. }
    now rewrite !upd_other by assumption.
Qed.

(** The ring after [x] went in behind [l1] and before [l2]. *)
Lemma ring_insert (no_index : Z) (pv nx : array) (h : Z) (l1 l2 : list Z)
      (x : Z) :
  l1 ++ l2 <> [] ->
  ring no_index pv nx h (l1 ++ l2) ->
  NoDup (l1 ++ l2) -> ~ In x (l1 ++ l2) ->
  let ix := last l1 (pv h) in
  ring no_index (upd (upd pv x ix) (nx ix) x) (upd (upd nx x (nx ix)) ix x)
       (hd x l1) (l1 ++ x :: l2).
Proof.
  intros Hne Hring Hnd Hx ix.
  destruct (l1 ++ l2) as [|r R] eqn:HR; [contradiction Hne; reflexivity|].
  destruct Hring as [-> Hl]. clear Hne.
  destruct l1 as [|b l1].
  - (* the new message becomes the head: it goes in behind the last *)
    cbn in HR. subst l2. unfold ix; clear ix. cbn [hd app last].
    destruct (exists_last (l:=r :: R)) as [l0 [z Hz]]; [discriminate|].
    unfold linked in Hl. rewrite Hz in Hl, Hnd, Hx.
    rewrite <- app_assoc in Hl. cbn [app] in Hl.
    pose proof Hl as Hl'. apply adjacent_app in Hl'.
    destruct Hl' as [_ [[Hzn Hzp] _]].
    rewrite Hzp, Hzn.
    assert (Hhd : forall d, hd d (l0 ++ [z]) = r).
    { intros d. rewrite <- Hz. reflexivity. }
    pose proof (linked_insert pv nx l0 z r [] x Hl) as Hins.
    assert (Hxr : In r (l0 ++ [z])) by (rewrite <- Hz; left; reflexivity).
    unfold linked in Hins.
    assert (H : adjacent
                  (fun a b => upd (upd nx x r) z x a = b
                              /\ upd (upd pv x z) r x b = a)
                  (l0 ++ [z; x; r])).
    { apply Hins.
      - intros Hin. apply Hx. apply in_app_or in Hin.
        destruct Hin as [Hin|[<-|[<-|[]]]].
        + apply in_or_app. left. exact Hin.
        + apply in_elt.
        + exact Hxr.
      - apply nodup_snoc_not_in. exact Hnd.
      - intros [].
      - rewrite <- (Hhd 0). apply nodup_not_in_tl. exact Hnd.
      - intros []. }
    replace (l0 ++ [z; x; r]) with ((r :: R) ++ x :: [r]) in H
      by (rewrite Hz, <- app_assoc; reflexivity).
    apply adjacent_app in H. destruct H as [H1 [H2 _]].
    unfold ring. split; [reflexivity|]. unfold linked.
    cbn [app] in H1 |- *. split; [exact H2 | exact H1].
  - (* the new message goes in behind the last of [l1] *)
    cbn [hd]. injection HR as -> HR.
    destruct (exists_last (l:=r :: l1)) as [l0 [a Ha]]; [discriminate|].
    assert (Hix : ix = a).
    { unfold ix. rewrite Ha. apply last_last. }
    rewrite Hix. clear ix Hix.
    assert (Hhd : forall d, hd d (l0 ++ [a]) = r).
    { intros d. rewrite <- Ha. reflexivity. }
    assert (HR' : r :: R = l0 ++ a :: l2).
    { rewrite <- HR. change (r :: l1 ++ l2) with ((r :: l1) ++ l2).
      rewrite Ha, <- app_assoc. reflexivity. }
    rewrite HR' in Hl, Hnd, Hx.
    assert (Hsplit : exists t l3, l2 ++ [r] = t :: l3).
    { destruct l2 as [|t l2]; [exists r, [] | exists t, (l2 ++ [r])];
        reflexivity. }
    destruct Hsplit as [t [l3 Ht]].
    unfold linked in Hl. rewrite <- app_assoc in Hl. cbn [app] in Hl.
    rewrite Ht in Hl.
    pose proof Hl as Hl'. apply adjacent_app in Hl'.
    destruct Hl' as [_ [[Han Hap] _]].
    rewrite Han.
    change ((r :: l1) ++ x :: l2) with (r :: (l1 ++ x :: l2)).
    split; [reflexivity|]. unfold linked.
    change (r :: l1 ++ x :: l2) with ((r :: l1) ++ x :: l2).
    rewrite Ha, <- !app_assoc. cbn [app]. rewrite Ht.
    apply linked_insert; [exact Hl | | | | |].
    + intros Hin. apply in_app_or in Hin.
      destruct Hin as [Hin|[<-|Hin]].
      * apply Hx, in_or_app. left. exact Hin.
      * apply Hx, in_elt.
      * rewrite <- Ht in Hin. apply in_app_or in Hin.
        destruct Hin as [Hin|[<-|[]]].
        -- apply Hx, in_or_app. right. right. exact Hin.
        -- apply Hx. rewrite <- HR'. left. reflexivity.
    + apply NoDup_remove_2 in Hnd. intros Hin. apply Hnd, in_or_app.
      left. exact Hin.
    + rewrite <- Ht, removelast_snoc.
      apply NoDup_remove_2 in Hnd. intros Hin. apply Hnd, in_or_app.
      right. exact Hin.
    + intros Hin.
      assert (Hnd1 : NoDup (l0 ++ [a])).
      { replace (l0 ++ a :: l2) with ((l0 ++ [a]) ++ l2) in Hnd
          by (now rewrite <- app_assoc).
        apply NoDup_app_remove_r in Hnd. exact Hnd. }
      destruct l2 as [|t' l2].
      * injection Ht as <- <-.
        rewrite <- (Hhd 0) in Hin.
        revert Hin. apply nodup_not_in_tl. exact Hnd1.
      * injection Ht as <- <-.
        apply in_tl in Hin.
        replace (l0 ++ a :: t' :: l2) with ((l0 ++ [a]) ++ t' :: l2) in Hnd
          by (now rewrite <- app_assoc).
        apply NoDup_remove_2 in Hnd. apply Hnd, in_or_app. left. exact Hin.
    + intros Hin.
      destruct l2 as [|t' l2].
      * injection Ht as <- <-. contradiction Hin.
      * injection Ht as <- <-.
        apply in_app_or in Hin. destruct Hin as [Hin|[Hin|[]]].
        -- replace (l0 ++ a :: t' :: l2) with ((l0 ++ [a]) ++ t' :: l2)
             in Hnd by (now rewrite <- app_assoc).
           apply NoDup_app_remove_l in Hnd. inversion Hnd. contradiction.
        -- subst t'.
           replace (l0 ++ a :: r :: l2) with ((l0 ++ [a]) ++ r :: l2)
             in Hnd by (now rewrite <- app_assoc).
           apply NoDup_remove_2 in Hnd. apply Hnd, in_or_app. left.
           rewrite <- Ha. left. reflexivity.
Qed.

(** The ring after its head left. *)
Lemma ring_remove (no_index : Z) (pv nx : array) (h r : Z) (R : list Z) :
  R <> [] ->
  ring no_index pv nx h (r :: R) ->
  NoDup (r :: R) ->
  let pv' := upd pv (nx h) (pv h) in
  let nx' := upd nx (pv' h) (nx h) in
  ring no_index pv' nx' (nx' h) R.
Proof.
  intros Hne [-> Hl] Hnd pv' nx'.
  destruct R as [|r1 R]; [contradiction Hne; reflexivity|]. clear Hne.
  destruct (exists_last (l:=r1 :: R)) as [l0 [t Ht]]; [discriminate|].
  unfold linked in Hl. cbn [app] in Hl.
  destruct Hl as [[Hrn Hrp] Hl].
  change (r1 :: R ++ [r]) with ((r1 :: R) ++ [r]) in Hl.
  rewrite Ht, <- app_assoc in Hl. cbn [app] in Hl.
  apply adjacent_app in Hl. destruct Hl as [Hl [[Htn Htp] _]].
  assert (Hr1 : r <> r1).
  { inversion Hnd as [|? ? Hin _]. intros ->. apply Hin. left. reflexivity. }
  assert (Hrt : r <> t).
  { inversion Hnd as [|? ? Hin _]. intros ->. apply Hin. rewrite Ht.
    apply in_elt. }
  assert (Hnd' : NoDup (l0 ++ [t])).
  { rewrite <- Ht. inversion Hnd. assumption. }
  assert (Hhd : forall d, hd d (l0 ++ [t]) = r1).
  { intros d. rewrite <- Ht. reflexivity. }
  assert (Hpv' : pv' r = t).
  { unfold pv'. rewrite Hrn, upd_other; assumption. }
  assert (Hnx' : nx' r = r1).
  { unfold nx'. rewrite Hpv', upd_other; assumption. }
  rewrite Hnx'. unfold ring. split; [reflexivity|]. unfold linked.
  rewrite Ht, <- app_assoc. cbn [app].
  apply adjacent_app. split; [|split; [|exact I]].
  - revert Hl. apply adjacent_ext.
    intros c d Hc Hd [H1 H2]. rewrite removelast_snoc in Hc.
    assert (c <> t).
    { intros ->. revert Hc. apply nodup_snoc_not_in. exact Hnd'. }
    assert (d <> r1).
    { intros ->. rewrite <- (Hhd 0) in Hd. revert Hd.
      apply nodup_not_in_tl. exact Hnd'. }
    unfold nx'. rewrite Hpv', Hrn. unfold pv'. rewrite Hrn, Htp.
    now rewrite !upd_other by assumption.
  - unfold nx'. rewrite Hpv', Hrn. unfold pv'. rewrite Hrn, Htp, !upd_same.
    tauto.
Qed.

(** The loop of [_try_send] stops behind the last element that is not
    below the new priority. *)
Lemma walk_back_finds (pv nx pr : array) (mprio : Z) (l1 : list Z) (a : Z)
      (l2 : list Z) (d : Z) (fuel : nat) :
  linked pv nx (l1 ++ a :: l2) ->
  mprio <= pr a ->
  Forall (fun y => pr y < mprio) l2 ->
  (length l2 < fuel)%nat ->
  walk_back fuel pv pr mprio (last (a :: l2) d) = Some a.
Proof.
  revert fuel. induction l2 as [|z l2 IH] using rev_ind;
    intros fuel Hl Ha Hlow Hfuel.
  - destruct fuel as [|fuel]; [inversion Hfuel|]. cbn.
    destruct (Z.gtb_spec mprio (pr a)); [lia | reflexivity].
  - rewrite length_app in Hfuel. cbn in Hfuel.
    destruct fuel as [|fuel]; [lia|].
    change (a :: l2 ++ [z]) with ((a :: l2) ++ [z]).
    rewrite last_last. cbn [walk_back].
    apply Forall_app in Hlow. destruct Hlow as [Hlow Hz].
    inversion Hz as [|? ? Hz' _]; subst.
    destruct (Z.gtb_spec mprio (pr z)); [|lia].
    destruct (exists_last (l:=a :: l2)) as [l0 [y Hy]]; [discriminate|].
    unfold linked in Hl.
    replace (l1 ++ a :: l2 ++ [z]) with ((l1 ++ l0) ++ y :: [z]) in Hl.
    2:{ rewrite <- app_assoc. f_equal.
        change (a :: l2 ++ [z]) with ((a :: l2) ++ [z]).
        rewrite Hy, <- app_assoc. reflexivity. }
    apply adjacent_app in Hl. destruct Hl as [Hl [[_ Hzp] _]].
    rewrite Hzp.
    replace y with (last (a :: l2) d) by (rewrite Hy; apply last_last).
    apply IH; [|exact Ha | exact Hlow | lia].
    unfold linked. rewrite <- app_assoc, <- Hy in Hl. exact Hl.
Qed.

(** A list splits behind its last element that is not below [mprio]. *)
Lemma split_behind (pr : array) (mprio : Z) (R : list Z) :
  Forall (fun y => pr y < mprio) R \/
  exists l1 a l2, R = l1 ++ a :: l2 /\ mprio <= pr a
                  /\ Forall (fun y => pr y < mprio) l2.
Proof.
  induction R as [|r R IH].
  - left. constructor.
  - destruct IH as [Hlow | [l1 [a [l2 [-> [Ha Hlow]]]]]].
    + destruct (Z_lt_le_dec (pr r) mprio) as [Hr|Hr].
      * left. constructor; assumption.
      * right. exists [], r, R. auto.
    + right. exists (r :: l1), a, l2. auto.
Qed.

(** ** Order of the priorities *)

Lemma last_or_nil (l : list Z) : l = [] \/ exists l0 a, l = l0 ++ [a].
Proof.
  destruct l as [|b l]; [left; reflexivity | right].
  destruct (exists_last (l:=b :: l)) as [l0 [a H]]; [discriminate|].
  exists l0, a. exact H.
Qed.

Lemma descending_head (pr : array) (a : Z) (l : list Z) :
  descending pr (a :: l) -> Forall (fun y => pr y <= pr a) l.
Proof.
  revert a. induction l as [|b l IH]; intros a H; constructor.
  - destruct H as [H _]. exact H.
  - destruct H as [Hab H]. apply IH in H.
    eapply Forall_impl; [|exact H]. cbn. intros y Hy. lia.
Qed.

Lemma descending_above (pr : array) (l1 : list Z) (a : Z) (l2 : list Z) :
  descending pr (l1 ++ a :: l2) -> Forall (fun y => pr a <= pr y) l1.
Proof.
  induction l1 as [|b l1 IH]; intros H; constructor.
  - apply descending_head in H. apply Forall_app in H.
    destruct H as [_ H]. inversion H. assumption.
  - apply IH. eapply adjacent_tail. exact H.
Qed.

Lemma descending_insert (pr : array) (mprio : Z) (l1 l2 : list Z) (x : Z) :
  descending pr (l1 ++ l2) ->
  Forall (fun y => mprio <= pr y) l1 ->
  Forall (fun y => pr y < mprio) l2 ->
  pr x = mprio ->
  descending pr (l1 ++ x :: l2).
Proof.
  unfold descending. intros H H1 H2 Hx.
  apply adjacent_app. split.
  - destruct (last_or_nil l1) as [-> | [l0 [a ->]]]; [exact I|].
    rewrite <- app_assoc. cbn [app].
    rewrite <- app_assoc in H.
    apply adjacent_app in H. destruct H as [H _].
    apply adjacent_app. split; [exact H|]. split; [|exact I].
    apply Forall_app in H1. destruct H1 as [_ H1]. inversion H1. lia.
  - destruct l2 as [|b l2]; [exact I|]. split.
    + inversion H2. lia.
    + apply adjacent_app in H. destruct H as [_ H]. exact H.
Qed.

(** ** Blocks of the content array *)

Lemma slot_bounds (no_index : Z) (q : Message_queue) (i : Z) :
  geometry no_index q -> 0 <= i < msgs_ q ->
  0 < slot_addr q i /\
  slot_addr q i + msg_size_bytes_ q <= 2 ^ 32.
Proof.
  intros [Hs Hm Hl Hh] Hi. unfold slot_addr, sizeof_ptr in *. nia.
Qed.

Lemma slot_apart (no_index : Z) (q : Message_queue) (i j : Z) :
  geometry no_index q -> i <> j ->
  slot_addr q i + msg_size_bytes_ q <= slot_addr q j \/
  slot_addr q j + msg_size_bytes_ q <= slot_addr q i.
Proof.
  intros [Hs Hm Hl Hh] Hij. unfold slot_addr, sizeof_ptr in *. nia.
Qed.

Lemma slot_index (no_index : Z) (q : Message_queue) (i : Z) :
  geometry no_index q ->
  Z.quot (slot_addr q i - queue_addr_ q) (msg_size_bytes_ q) = i.
Proof.
  intros [Hs Hm Hl Hh]. unfold slot_addr, sizeof_ptr in *.
  replace (queue_addr_ q + i * msg_size_bytes_ q - queue_addr_ q)
    with (i * msg_size_bytes_ q) by lia.
  apply Z.quot_mul. lia.
Qed.

Lemma written_outside (m : memory) (dest : Z) (msg : list Z)
      (nbytes size x : Z) :
  0 <= nbytes <= size -> x < dest \/ dest + size <= x ->
  written m dest msg nbytes size x = m x.
Proof.
  intros Hn Hx. unfold written, memset, memcpy_to.
  destruct (nbytes <? size).
  - destruct (Z.leb_spec (dest + nbytes) x),
      (Z.ltb_spec x (dest + nbytes + (size - nbytes)));
      cbn; try lia;
      destruct (Z.leb_spec dest x), (Z.ltb_spec x (dest + nbytes)); cbn;
        try lia; reflexivity.
  - destruct (Z.leb_spec dest x), (Z.ltb_spec x (dest + nbytes)); cbn;
      try lia; reflexivity.
Qed.

Lemma written_inside (m : memory) (dest : Z) (msg : list Z)
      (nbytes size : Z) :
  0 <= nbytes <= size ->
  memcpy_from (written m dest msg nbytes size) dest size
  = payload msg nbytes size.
Proof.
  intros Hn. unfold memcpy_from, payload. apply map_ext_in.
  intros k Hk. apply in_seq in Hk.
  unfold written, memset, memcpy_to.
  destruct (Z.ltb_spec nbytes size).
  - destruct (Z.leb_spec (dest + nbytes) (dest + Z.of_nat k)),
      (Z.ltb_spec (dest + Z.of_nat k) (dest + nbytes + (size - nbytes)));
      cbn; try lia.
    + destruct (Z.ltb_spec (Z.of_nat k) nbytes); [lia | reflexivity].
    + destruct (Z.leb_spec dest (dest + Z.of_nat k)),
        (Z.ltb_spec (dest + Z.of_nat k) (dest + nbytes)); cbn; try lia.
      destruct (Z.ltb_spec (Z.of_nat k) nbytes); [|lia].
      f_equal. lia.
  - destruct (Z.leb_spec dest (dest + Z.of_nat k)),
      (Z.ltb_spec (dest + Z.of_nat k) (dest + nbytes)); cbn; try lia.
    destruct (Z.ltb_spec (Z.of_nat k) nbytes); [|lia].
    f_equal. lia.
Qed.

Lemma map_nth_seq (l : list Z) :
  map (fun k => nth k l 0) (seq 0 (length l)) = l.
Proof.
  induction l as [|a l IH]; [reflexivity|].
  cbn [length seq map nth]. f_equal.
  rewrite <- seq_shift, map_map. exact IH.
Qed.

Lemma payload_full (msg : list Z) (size : Z) :
  Z.of_nat (length msg) = size -> payload msg size size = msg.
Proof.
  intros H. unfold payload. subst size. rewrite Nat2Z.id.
  rewrite <- (map_nth_seq msg) at 2. apply map_ext_in.
  intros k Hk. apply in_seq in Hk.
  destruct (Z.ltb_spec (Z.of_nat k) (Z.of_nat (length msg)));
    [reflexivity | lia].
Qed.

(** ** The queue of the specification *)

Lemma enqueue_at (x : message) (c1 c2 : list message) :
  Forall (fun y => fst x <= fst y) c1 ->
  Forall (fun y => fst y < fst x) c2 ->
  enqueue x (c1 ++ c2) = c1 ++ x :: c2.
Proof.
  intros H1 H2. induction H1 as [|y c1 Hy H1 IH].
  - destruct H2 as [|y c2 Hy H2]; [reflexivity|]. cbn.
    destruct (Z.gtb_spec (fst x) (fst y)); [reflexivity | lia].
  - cbn. destruct (Z.gtb_spec (fst x) (fst y)); [lia|].
    now rewrite IH.
Qed.

(** ** [_try_send] and [_try_receive], step by step *)

Lemma try_send_full (no_index : Z) (fuel : nat) (q : Message_queue)
      (msg : list Z) (nbytes mprio : Z) :
  first_free_ q = nullptr ->
  _try_send no_index fuel q msg nbytes mprio = Some (false, q).
Proof.
  intros H. unfold _try_send. now rewrite H.
Qed.

Lemma try_send_first (no_index : Z) (fuel : nat) (q : Message_queue)
      (msg : list Z) (nbytes mprio : Z) :
  first_free_ q <> nullptr ->
  head_ q = no_index ->
  let x := Z.quot (first_free_ q - queue_addr_ q) (msg_size_bytes_ q) in
  _try_send no_index fuel q msg nbytes mprio
  = Some (true,
          mkMessage_queue (msg_size_bytes_ q) (msgs_ q) (queue_addr_ q)
            (queue_size_bytes_ q) (flags_ q)
            (written (mem_ q) (first_free_ q) msg nbytes (msg_size_bytes_ q))
            (upd (prev_array_ q) x x) (upd (next_array_ q) x x)
            (upd (prio_array_ q) x mprio) x
            (load_ptr (mem_ q) (first_free_ q)) (count_ q + 1)
            (send_list_ q) (wakeup_one (receive_list_ q)) (prev_array_addr_ q)
            (next_array_addr_ q) (prio_array_addr_ q)).
Proof.
  intros Hff Hh x. apply Z.eqb_neq in Hff.
  unfold _try_send. rewrite Hff. cbn. rewrite Hh, Z.eqb_refl. cbn.
  unfold written. destruct (nbytes <? msg_size_bytes_ q); reflexivity.
Qed.

Lemma try_send_behind (no_index : Z) (fuel : nat) (q : Message_queue)
      (msg : list Z) (nbytes mprio : Z) (h ix : Z) :
  first_free_ q <> nullptr ->
  head_ q <> no_index ->
  let x := Z.quot (first_free_ q - queue_addr_ q) (msg_size_bytes_ q) in
  let prio := upd (prio_array_ q) x mprio in
  (if mprio >? prio (head_ q)
   then Some (x, prev_array_ q (head_ q))
   else match walk_back fuel (prev_array_ q) prio mprio
                        (prev_array_ q (head_ q)) with
        | Some ix => Some (head_ q, ix)
        | None => None
        end) = Some (h, ix) ->
  _try_send no_index fuel q msg nbytes mprio
  = Some (true,
          mkMessage_queue (msg_size_bytes_ q) (msgs_ q) (queue_addr_ q)
            (queue_size_bytes_ q) (flags_ q)
            (written (mem_ q) (first_free_ q) msg nbytes (msg_size_bytes_ q))
            (upd (upd (prev_array_ q) x ix)
                 (upd (next_array_ q) x (next_array_ q ix) ix) x)
            (upd (upd (next_array_ q) x (next_array_ q ix)) ix x)
            prio h
            (load_ptr (mem_ q) (first_free_ q)) (count_ q + 1)
            (send_list_ q) (wakeup_one (receive_list_ q)) (prev_array_addr_ q)
            (next_array_addr_ q) (prio_array_addr_ q)).
Proof.
  intros Hff Hh x prio Hfound.
  apply Z.eqb_neq in Hff. apply Z.eqb_neq in Hh.
  unfold _try_send. rewrite Hff. cbn. rewrite Hh.
  fold x. fold prio.
  destruct (mprio >? prio (head_ q)).
  - injection Hfound as <- <-. cbn.
    unfold written. destruct (nbytes <? msg_size_bytes_ q); reflexivity.
  - destruct (walk_back fuel (prev_array_ q) prio mprio
                        (prev_array_ q (head_ q))) as [ix'|];
      [|discriminate].
    injection Hfound as <- <-. cbn.
    unfold written. destruct (nbytes <? msg_size_bytes_ q); reflexivity.
Qed.

Lemma try_receive_empty (no_index : Z) (q : Message_queue) (nbytes : Z)
      (mprio : bool) :
  head_ q = no_index ->
  _try_receive no_index q nbytes mprio = (false, mkReceived q None None).
Proof.
  intros H. unfold _try_receive. now rewrite H, Z.eqb_refl.
Qed.

Lemma try_receive_head (no_index : Z) (q : Message_queue) (nbytes : Z)
      (mprio : bool) :
  head_ q <> no_index ->
  let src := slot_addr q (head_ q) in
  let pv := upd (prev_array_ q) (next_array_ q (head_ q))
                (prev_array_ q (head_ q)) in
  let nx := upd (next_array_ q) (pv (head_ q)) (next_array_ q (head_ q)) in
  _try_receive no_index q nbytes mprio
  = (true,
     mkReceived
       (mkMessage_queue (msg_size_bytes_ q) (msgs_ q) (queue_addr_ q)
          (queue_size_bytes_ q) (flags_ q)
          (store_ptr (mem_ q) src (first_free_ q))
          (if count_ q >? 1 then pv else prev_array_ q)
          (if count_ q >? 1 then nx else next_array_ q)
          (prio_array_ q)
          (if count_ q >? 1 then nx (head_ q) else no_index)
          src (count_ q - 1)
          (wakeup_one (send_list_ q)) (receive_list_ q)
          (prev_array_addr_ q) (next_array_addr_ q) (prio_array_addr_ q))
       (Some (memcpy_from (mem_ q) src nbytes))
       (if mprio then Some (prio_array_ q (head_ q)) else None)).
Proof.
  intros Hh src pv nx. apply Z.eqb_neq in Hh.
  unfold _try_receive. rewrite Hh. fold (slot_addr q (head_ q)). fold src.
  destruct (count_ q >? 1); reflexivity.
Qed.

(** ** The invariant *)

Ltac fields :=
  cbn [msg_size_bytes_ msgs_ queue_addr_ queue_size_bytes_ flags_ mem_
       prev_array_ next_array_ prio_array_ head_ first_free_ count_
       send_list_ receive_list_].

Section Invariant.

Variable no_index : Z.

Lemma inv_slot (q : Message_queue) (L R : list Z) (i : Z) :
  Inv no_index q L R -> In i (L ++ R) -> 0 <= i < msgs_ q.
Proof.
  intros H Hi. pose proof (inv_slots _ _ _ _ H) as Hs.
  rewrite Forall_forall in Hs. apply Hs. exact Hi.
Qed.

Lemma chain_in_range (q : Message_queue) (L : list Z) (p : Z) :
  geometry no_index q ->
  Forall (fun i => 0 <= i < msgs_ q) L ->
  chain (mem_ q) p (map (slot_addr q) L) ->
  0 <= p < 2 ^ 32.
Proof.
  intros Hg Hs Hc. destruct L as [|i L].
  - cbn in Hc. subst p. unfold nullptr. lia.
  - destruct Hc as [-> _]. inversion Hs as [|? ? Hi _]; subst.
    pose proof (slot_bounds no_index q i Hg Hi) as Hb.
    destruct Hg as [Hsz _ _ _]. unfold sizeof_ptr in Hsz. lia.
Qed.

(** Memory that agrees on the blocks of a list of free blocks carries
    the same chain. *)
Lemma chain_frame (q : Message_queue) (m' : memory) (L : list Z) (p i : Z) :
  geometry no_index q ->
  ~ In i L ->
  (forall x, x < slot_addr q i \/ slot_addr q i + msg_size_bytes_ q <= x ->
             m' x = mem_ q x) ->
  chain (mem_ q) p (map (slot_addr q) L) ->
  chain m' p (map (slot_addr q) L).
Proof.
  intros Hg Hi Hm. apply chain_ext.
  intros a Ha x Hx. apply in_map_iff in Ha. destruct Ha as [j [<- Hj]].
  symmetry. apply Hm.
  assert (Hij : i <> j) by (intros ->; contradiction).
  pose proof (slot_apart no_index q i j Hg Hij) as Hap.
  destruct Hg as [Hsz _ _ _]. lia.
Qed.

Lemma contents_frame (q q' : Message_queue) (R : list Z) (i : Z) :
  geometry no_index q ->
  ~ In i R ->
  msg_size_bytes_ q' = msg_size_bytes_ q ->
  queue_addr_ q' = queue_addr_ q ->
  (forall j, In j R -> prio_array_ q' j = prio_array_ q j) ->
  (forall x, x < slot_addr q i \/ slot_addr q i + msg_size_bytes_ q <= x ->
             mem_ q' x = mem_ q x) ->
  contents q' R = contents q R.
Proof.
  intros Hg Hi Hsz Hqa Hpr Hm. unfold contents. apply map_ext_in.
  intros j Hj. rewrite Hpr by exact Hj. f_equal.
  unfold slot_addr at 1. rewrite Hsz, Hqa. fold (slot_addr q j).
  apply memcpy_from_ext. intros x Hx. apply Hm.
  assert (Hij : i <> j) by (intros ->; contradiction).
  pose proof (slot_apart no_index q i j Hg Hij) as Hap. lia.
Qed.

(** A receive from a queue that holds a message: the head block [r] is
    copied out, leaves the ring and becomes the first free block; the other
    messages stay as they are. *)
Lemma try_receive_inv (q : Message_queue) (L : list Z) (r : Z)
      (R : list Z) (nbytes : Z) (mprio : bool) :
  Inv no_index q L (r :: R) ->
  exists q',
    _try_receive no_index q nbytes mprio
    = (true,
       mkReceived q' (Some (memcpy_from (mem_ q) (slot_addr q r) nbytes))
                  (if mprio then Some (prio_array_ q r) else None)) /\
    Inv no_index q' (r :: L) R /\
    contents q' R = contents q R /\
    msg_size_bytes_ q' = msg_size_bytes_ q /\
    msgs_ q' = msgs_ q /\
    queue_addr_ q' = queue_addr_ q.
Proof.
  intros HI. pose proof HI as [Hg Hs Hn Hlen Hf Hr Hd Hc].
  pose proof Hr as [Hh Hl].
  assert (Hrs : 0 <= r < msgs_ q).
  { apply (inv_slot q L (r :: R) r HI). apply in_elt. }
  assert (Hne : head_ q <> no_index).
  { destruct Hg as [_ Hm _ _]. lia. }
  assert (HrL : ~ In r L).
  { apply NoDup_remove_2 in Hn. intros Hin. apply Hn, in_or_app.
    left. exact Hin. }
  assert (HrR : ~ In r R).
  { apply NoDup_remove_2 in Hn. intros Hin. apply Hn, in_or_app.
    right. exact Hin. }
  assert (Hperm : Permutation (L ++ r :: R) ((r :: L) ++ R)).
  { symmetry. apply Permutation_middle. }
  rewrite (try_receive_head no_index q nbytes mprio Hne). rewrite Hh.
  eexists. split; [reflexivity|].
  assert (Hmem : forall x,
             x < slot_addr q r \/ slot_addr q r + msg_size_bytes_ q <= x ->
             store_ptr (mem_ q) (slot_addr q r) (first_free_ q) x
             = mem_ q x).
  { intros x Hx. apply store_ptr_outside.
    destruct Hg as [Hsz _ _ _]. lia. }
  split; [|split; [|fields; auto]].
  - constructor; fields.
    + destruct Hg. constructor; assumption.
    + eapply Permutation_Forall; [exact Hperm | exact Hs].
    + eapply Permutation_NoDup; [exact Hperm | exact Hn].
    + rewrite <- Hlen. f_equal. apply Permutation_length.
      symmetry. exact Hperm.
    + change (chain (store_ptr (mem_ q) (slot_addr q r) (first_free_ q))
                    (slot_addr q r)
                    (slot_addr q r :: map (slot_addr q) L)).
      split; [reflexivity|].
      rewrite load_store_ptr.
      * apply (chain_frame q _ L _ r Hg HrL Hmem). exact Hf.
      * apply (chain_in_range q L _ Hg); [|exact Hf].
        apply Forall_app in Hs. tauto.
    + destruct R as [|r1 R].
      * cbn in Hc. rewrite Hc. cbn. reflexivity.
      * assert (Hgt : (count_ q >? 1) = true).
        { apply Z.gtb_lt. rewrite Hc. cbn [length]. lia. }
        rewrite Hgt. rewrite <- Hh.
        apply (ring_remove no_index _ _ (head_ q) r (r1 :: R)).
        -- discriminate.
        -- exact Hr.
        -- apply NoDup_app_remove_l in Hn. exact Hn.
    + eapply adjacent_tail. exact Hd.
    + rewrite Hc. cbn [length]. lia.
  - apply (contents_frame q _ R r Hg HrR); fields; auto.
Qed.

Lemma descending_same (pr pr' : array) (R : list Z) :
  (forall j, In j R -> pr' j = pr j) ->
  descending pr R -> descending pr' R.
Proof.
  intros H. unfold descending. apply adjacent_ext.
  intros a b Ha Hb Hab. apply in_removelast in Ha. apply in_tl in Hb.
  rewrite !H by assumption. exact Hab.
Qed.

Lemma last_behind (l1 : list Z) (a : Z) (l2 : list Z) (d : Z) :
  last (l1 ++ a :: l2) d = last (a :: l2) d.
Proof.
  induction l1 as [|b l1 IH]; [reflexivity|].
  rewrite <- IH. cbn [app]. destruct (l1 ++ a :: l2) eqn:H;
    [destruct l1; discriminate | reflexivity].
Qed.

Lemma ring_last (pv nx : array) (h r : Z) (R : list Z) (d : Z) :
  ring no_index pv nx h (r :: R) -> pv h = last (r :: R) d.
Proof.
  intros [-> Hl].
  destruct (exists_last (l:=r :: R)) as [l0 [z Hz]]; [discriminate|].
  unfold linked in Hl. rewrite Hz, <- app_assoc in Hl. cbn [app] in Hl.
  apply adjacent_app in Hl. destruct Hl as [_ [[_ Hp] _]].
  rewrite Hz, last_last. exact Hp.
Qed.

(** A send into a queue with a free block [i]: the block leaves the free
    list and enters the ring where the queue of the specification puts
    the message. *)
Lemma try_send_inv (fuel : nat) (q : Message_queue) (i : Z) (L R : list Z)
      (msg : list Z) (nbytes mprio : Z) :
  Inv no_index q (i :: L) R ->
  0 <= nbytes <= msg_size_bytes_ q ->
  (length R <= fuel)%nat ->
  exists q' l1 l2,
    _try_send no_index fuel q msg nbytes mprio = Some (true, q') /\
    R = l1 ++ l2 /\
    Inv no_index q' L (l1 ++ i :: l2) /\
    contents q' (l1 ++ i :: l2)
    = enqueue (mprio, payload msg nbytes (msg_size_bytes_ q)) (contents q R)
    /\
    msg_size_bytes_ q' = msg_size_bytes_ q /\
    msgs_ q' = msgs_ q /\
    queue_addr_ q' = queue_addr_ q.
Proof.
  intros HI Hnb Hfuel. pose proof HI as [Hg Hs Hn Hlen Hf Hr Hd Hc].
  cbn [map chain] in Hf. destruct Hf as [Hff Hf].
  assert (His : 0 <= i < msgs_ q).
  { apply (inv_slot q (i :: L) R i HI). left. reflexivity. }
  pose proof (slot_bounds no_index q i Hg His) as Hib.
  assert (Hnz : first_free_ q <> nullptr).
  { rewrite Hff. unfold nullptr. lia. }
  assert (Hix : Z.quot (first_free_ q - queue_addr_ q) (msg_size_bytes_ q)
                = i).
  { rewrite Hff. apply (slot_index no_index). exact Hg. }
  assert (HiL : ~ In i L).
  { inversion Hn as [|? ? Hin _]. intros HiL. apply Hin, in_or_app.
    left. exact HiL. }
  assert (HiR : ~ In i R).
  { inversion Hn as [|? ? Hin _]. intros HiR. apply Hin, in_or_app.
    right. exact HiR. }
  assert (HnR : NoDup R).
  { apply NoDup_app_remove_l in Hn. exact Hn. }
  set (pr := upd (prio_array_ q) i mprio).
  assert (Hpr : forall j, In j R -> pr j = prio_array_ q j).
  { intros j Hj. unfold pr. apply upd_other. intros ->. contradiction. }
  assert (Hmem : forall x,
             x < slot_addr q i \/ slot_addr q i + msg_size_bytes_ q <= x ->
             written (mem_ q) (first_free_ q) msg nbytes (msg_size_bytes_ q) x
             = mem_ q x).
  { intros x Hx. apply written_outside; [exact Hnb | rewrite Hff; exact Hx]. }
  (* where the message goes, and the ring that results *)
  assert (Hplace :
    exists pv nx h l1 l2,
      R = l1 ++ l2 /\
      Forall (fun y => mprio <= prio_array_ q y) l1 /\
      Forall (fun y => prio_array_ q y < mprio) l2 /\
      ring no_index pv nx h (l1 ++ i :: l2) /\
      _try_send no_index fuel q msg nbytes mprio
      = Some (true,
              mkMessage_queue (msg_size_bytes_ q) (msgs_ q) (queue_addr_ q)
                (queue_size_bytes_ q) (flags_ q)
                (written (mem_ q) (first_free_ q) msg nbytes
                         (msg_size_bytes_ q))
                pv nx pr h (load_ptr (mem_ q) (first_free_ q))
                (count_ q + 1) (send_list_ q)
                (wakeup_one (receive_list_ q)) (prev_array_addr_ q)
                (next_array_addr_ q) (prio_array_addr_ q))).
  { destruct R as [|r R].
    - (* the ring is empty *)
      cbn in Hr.
      exists (upd (prev_array_ q) i i), (upd (next_array_ q) i i), i, [], [].
      split; [reflexivity|]. split; [constructor|]. split; [constructor|].
      split.
      + split; [reflexivity|]. unfold linked. cbn [app adjacent].
        rewrite !upd_same. tauto.
      + rewrite (try_send_first no_index fuel q msg nbytes mprio Hnz Hr).
        rewrite Hix. reflexivity.
    - pose proof Hr as [Hh Hl].
      assert (Hrs : 0 <= r < msgs_ q).
      { apply (inv_slot q (i :: L) (r :: R) r HI). apply in_elt. }
      assert (Hne : head_ q <> no_index).
      { destruct Hg as [_ Hm _ _]. lia. }
      destruct (Z.gtb_spec mprio (pr (head_ q))) as [Hgt|Hle].
      + (* above the head: the new head *)
        pose proof (ring_insert no_index (prev_array_ q) (next_array_ q)
                                (head_ q) [] (r :: R) i) as Hins.
        cbn [app last hd] in Hins.
        eexists _, _, i, [], (r :: R).
        split; [reflexivity|]. split; [constructor|]. split.
        * rewrite Hh, Hpr in Hgt by (left; reflexivity).
          constructor; [lia|].
          apply descending_head in Hd.
          eapply Forall_impl; [|exact Hd]. cbn. intros y Hy. lia.
        * split; [apply Hins; [discriminate | exact Hr | exact HnR
                               | exact HiR]|].
          rewrite (try_send_behind no_index fuel q msg nbytes mprio i
                                   (prev_array_ q (head_ q)) Hnz Hne).
          -- rewrite Hix.
             rewrite (upd_other (next_array_ q) i _ (prev_array_ q (head_ q))).
             ++ reflexivity.
             ++ rewrite (ring_last _ _ _ r R 0 Hr). intros Heq.
                apply HiR. rewrite <- Heq.
                destruct (exists_last (l:=r :: R)) as [l0 [z Hz]];
                  [discriminate|].
                rewrite Hz, last_last. apply in_elt.
          -- rewrite Hix. fold pr.
             destruct (Z.gtb_spec mprio (pr (head_ q))); [reflexivity | lia].
      + (* behind the last message that is not below *)
        destruct (split_behind (prio_array_ q) mprio (r :: R))
          as [Hlow | [l1 [a [l2 [HR [Ha Hlow]]]]]].
        { apply Forall_inv in Hlow.
          rewrite Hh, Hpr in Hle by (left; reflexivity). lia. }
        assert (Hwalk : walk_back fuel (prev_array_ q) pr mprio
                                  (prev_array_ q (head_ q)) = Some a).
        { rewrite (ring_last _ _ _ r R 0 Hr), HR.
          rewrite last_behind.
          apply (walk_back_finds _ (next_array_ q) _ _ l1).
          - rewrite HR in Hl. unfold linked in Hl |- *.
            rewrite <- app_assoc in Hl. cbn [app] in Hl.
            replace (l1 ++ a :: l2 ++ [r]) with ((l1 ++ a :: l2) ++ [r])
              in Hl by (rewrite <- app_assoc; reflexivity).
            destruct (l1 ++ a :: l2) as [|b l] eqn:Hb;
              [destruct l1; discriminate|].
            rewrite <- Hb in *.
            destruct (exists_last (l:=l1 ++ a :: l2)) as [l0 [z Hz]];
              [destruct l1; discriminate|].
            rewrite Hz, <- app_assoc in Hl. cbn [app] in Hl.
            apply adjacent_app in Hl. rewrite <- Hz in Hl. tauto.
          - rewrite Hpr by (rewrite HR; apply in_elt). exact Ha.
          - rewrite Forall_forall in Hlow |- *. intros y Hy.
            rewrite Hpr; [apply Hlow; exact Hy|].
            rewrite HR. apply in_or_app. right. right. exact Hy.
          - assert (Hlen2 : length (r :: R) = length (l1 ++ a :: l2))
              by (now rewrite HR).
            rewrite length_app in Hlen2. cbn [length] in Hlen2, Hfuel. lia. }
        pose proof (ring_insert no_index (prev_array_ q) (next_array_ q)
                                (head_ q) (l1 ++ [a]) l2 i) as Hins.
        rewrite last_last in Hins.
        assert (HR' : r :: R = (l1 ++ [a]) ++ l2).
        { rewrite HR, <- app_assoc. reflexivity. }
        rewrite <- HR' in Hins.
        assert (Hhd : hd i (l1 ++ [a]) = head_ q).
        { rewrite Hh. destruct l1 as [|b l1]; cbn in HR |- *;
            injection HR as -> _; reflexivity. }
        rewrite Hhd in Hins.
        eexists _, _, (head_ q), (l1 ++ [a]), l2.
        split; [exact HR'|]. split.
        * apply Forall_app. split; [|constructor; [exact Ha | constructor]].
          rewrite HR in Hd. apply descending_above in Hd.
          eapply Forall_impl; [|exact Hd]. cbn. intros y Hy. lia.
        * split; [exact Hlow|].
          split; [apply Hins; [discriminate | exact Hr | exact HnR
                               | exact HiR]|].
          rewrite (try_send_behind no_index fuel q msg nbytes mprio
                                   (head_ q) a Hnz Hne).
          -- rewrite Hix.
             rewrite (upd_other (next_array_ q) i _ a).
             ++ reflexivity.
             ++ intros Heq. apply HiR. rewrite <- Heq, HR. apply in_elt.
          -- rewrite Hix. fold pr.
             destruct (Z.gtb_spec mprio (pr (head_ q))); [lia|].
             rewrite Hwalk. reflexivity. }
  destruct Hplace as [pv [nx [h [l1 [l2 [HR [H1 [H2 [Hring Heq]]]]]]]]].
  eexists _, l1, l2. split; [exact Heq|]. split; [exact HR|].
  assert (Hperm : Permutation ((i :: L) ++ R) (L ++ l1 ++ i :: l2)).
  { rewrite HR. cbn [app]. rewrite !app_assoc.
    apply Permutation_middle. }
  split; [|split; [|fields; auto]].
  - constructor; fields.
    + destruct Hg. constructor; assumption.
    + eapply Permutation_Forall; [exact Hperm | exact Hs].
    + eapply Permutation_NoDup; [exact Hperm | exact Hn].
    + rewrite <- Hlen. f_equal. apply Permutation_length.
      symmetry. exact Hperm.
    + change (chain (written (mem_ q) (first_free_ q) msg nbytes
                             (msg_size_bytes_ q))
                    (load_ptr (mem_ q) (first_free_ q))
                    (map (slot_addr q) L)).
      apply (chain_frame q _ L _ i Hg HiL Hmem).
      rewrite Hff. exact Hf.
    + exact Hring.
    + apply descending_insert with (mprio := mprio).
      * rewrite <- HR. apply (descending_same (prio_array_ q)); assumption.
      * rewrite Forall_forall in H1 |- *. intros y Hy.
        rewrite Hpr; [apply H1; exact Hy|].
        rewrite HR. apply in_or_app. left. exact Hy.
      * rewrite Forall_forall in H2 |- *. intros y Hy.
        rewrite Hpr; [apply H2; exact Hy|].
        rewrite HR. apply in_or_app. right. exact Hy.
      * apply upd_same.
    + rewrite Hc, HR, !length_app. cbn [length]. lia.
  - unfold contents at 1. fields. rewrite map_app. cbn [map].
    change (fun i0 => (pr i0,
                       memcpy_from
                         (written (mem_ q) (first_free_ q) msg nbytes
                                  (msg_size_bytes_ q))
                         (queue_addr_ q + i0 * msg_size_bytes_ q)
                         (msg_size_bytes_ q)))
      with (fun i0 => (pr i0,
                       memcpy_from
                         (written (mem_ q) (first_free_ q) msg nbytes
                                  (msg_size_bytes_ q))
                         (slot_addr q i0) (msg_size_bytes_ q))).
    assert (Hsame : forall l, (forall j, In j l -> In j R) ->
              map (fun i0 => (pr i0,
                       memcpy_from
                         (written (mem_ q) (first_free_ q) msg nbytes
                                  (msg_size_bytes_ q))
                         (slot_addr q i0) (msg_size_bytes_ q))) l
              = contents q l).
    { intros l Hl. unfold contents. apply map_ext_in. intros j Hj.
      rewrite Hpr by (apply Hl; exact Hj). f_equal.
      apply memcpy_from_ext. intros x Hx. apply Hmem.
      assert (Hij : i <> j) by (intros ->; apply HiR, Hl; exact Hj).
      pose proof (slot_apart no_index q i j Hg Hij) as Hap. lia. }
    rewrite !Hsame
      by (intros j Hj; rewrite HR; apply in_or_app; auto).
    unfold pr at 1. rewrite upd_same.
    match goal with
    | |- context [slot_addr ?q' i] =>
        change (slot_addr q' i) with (slot_addr q i)
    end.
    rewrite <- Hff, written_inside by exact Hnb.
    rewrite HR. unfold contents at 3. rewrite map_app.
    fold (contents q l1). fold (contents q l2).
    symmetry. apply enqueue_at.
    + unfold contents. rewrite Forall_map. exact H1.
    + unfold contents. rewrite Forall_map. exact H2.
Qed.

End Invariant.

Section Sequences.

Variable no_index : Z.

(** [_init] makes every block free, in the order of the addresses. *)
Lemma init_inv (q : Message_queue) :
  geometry no_index q ->
  Inv no_index (_init no_index q) (all_slots q) [].
Proof.
  intros Hg. pose proof Hg as [Hsz Hm Hlo Hhi].
  destruct (init_static no_index q) as [E1 [E2 [E3 [E4 [E5 [E6 E7]]]]]].
  destruct (init_dynamic no_index q) as [D1 [D2 [D3 [D4 [D5 D6]]]]].
  unfold all_slots. constructor; rewrite ?app_nil_r.
  - constructor; rewrite ?E1, ?E2, ?E3; assumption.
  - rewrite E2. apply Forall_forall. intros i Hi.
    apply in_map_iff in Hi. destruct Hi as [k [<- Hk]].
    apply in_seq in Hk. lia.
  - apply Finite.Injective_map_NoDup; [|apply seq_NoDup].
    intros a b Hab. apply Nat2Z.inj. exact Hab.
  - rewrite length_map, length_seq, E2. lia.
  - rewrite D3, D6, map_map.
    replace (Z.to_nat (msgs_ q)) with (S (Z.to_nat (msgs_ q - 1))) by lia.
    erewrite map_ext; [apply init_blocks_chain|].
    + exact Hsz.
    + exact Hlo.
    + rewrite Z2Nat.id by lia.
      replace (msgs_ q - 1 + 1) with (msgs_ q) by lia. exact Hhi.
    + intros k. unfold slot_addr. rewrite E1, E3. reflexivity.
  - rewrite D2. reflexivity.
  - exact I.
  - rewrite D1. reflexivity.
Qed.

(** Under the invariant the free list read from memory is [L], and the
    count and the free blocks add up to the capacity. *)
Lemma inv_counts (q : Message_queue) (L R : list Z) :
  Inv no_index q L R ->
  free_list (S (Z.to_nat (msgs_ q))) (mem_ q) (first_free_ q)
  = map (slot_addr q) L /\
  count_ q + Z.of_nat (length L) = msgs_ q /\
  0 <= count_ q <= msgs_ q.
Proof.
  intros HI. pose proof HI as [Hg Hs Hn Hlen Hf Hr Hd Hc].
  rewrite length_app in Hlen. split; [|lia].
  apply chain_free_list; [exact Hf | |].
  - apply Forall_forall. intros a Ha.
    apply in_map_iff in Ha. destruct Ha as [i [<- Hi]].
    assert (His : 0 <= i < msgs_ q).
    { apply (inv_slot no_index q L R i HI). apply in_or_app. left. exact Hi. }
    pose proof (slot_bounds no_index q i Hg His). unfold nullptr. lia.
  - rewrite length_map. lia.
Qed.

Lemma inv_full (q : Message_queue) (R : list Z) :
  Inv no_index q [] R -> first_free_ q = nullptr.
Proof.
  intros [_ _ _ _ Hf _ _ _]. exact Hf.
Qed.

Lemma inv_empty (q : Message_queue) (L : list Z) :
  Inv no_index q L [] -> head_ q = no_index.
Proof.
  intros [_ _ _ _ _ Hr _ _]. exact Hr.
Qed.

Lemma inv_ring_length (q : Message_queue) (L R : list Z) :
  Inv no_index q L R -> (length R <= Z.to_nat (msgs_ q))%nat.
Proof.
  intros [_ _ _ Hlen _ _ _ _]. rewrite length_app in Hlen. lia.
Qed.

(** An attempt to send returns and keeps the invariant. *)
Lemma attempt_send_inv (fuel : nat) (q : Message_queue) (L R : list Z)
      (msg : list Z) (nbytes mprio : Z) :
  Inv no_index q L R ->
  0 <= nbytes <= msg_size_bytes_ q ->
  (Z.to_nat (msgs_ q) <= fuel)%nat ->
  exists b q' L' R',
    _try_send no_index fuel q msg nbytes mprio = Some (b, q') /\
    Inv no_index q' L' R' /\
    msg_size_bytes_ q' = msg_size_bytes_ q /\
    msgs_ q' = msgs_ q.
Proof.
  intros HI Hfit Hfuel. destruct L as [|i L].
  - exists false, q, [], R.
    rewrite (try_send_full no_index fuel q msg nbytes mprio
                           (inv_full q R HI)).
    auto.
  - destruct (try_send_inv no_index fuel q i L R msg nbytes mprio HI Hfit)
      as [q' [l1 [l2 [Heq [_ [HI' [_ [E1 [E2 _]]]]]]]]].
    { pose proof (inv_ring_length q (i :: L) R HI). lia. }
    exists true, q', L, (l1 ++ i :: l2). rewrite Heq. auto.
Qed.

(** An attempt to receive keeps the invariant. *)
Lemma attempt_receive_inv (q : Message_queue) (L R : list Z) (nbytes : Z)
      (mprio : bool) :
  Inv no_index q L R ->
  exists L' R',
    Inv no_index (rcv_queue (snd (_try_receive no_index q nbytes mprio)))
        L' R' /\
    msg_size_bytes_ (rcv_queue (snd (_try_receive no_index q nbytes mprio)))
    = msg_size_bytes_ q /\
    msgs_ (rcv_queue (snd (_try_receive no_index q nbytes mprio)))
    = msgs_ q.
Proof.
  intros HI. destruct R as [|r R].
  - exists L, [].
    rewrite (try_receive_empty no_index q nbytes mprio (inv_empty q L HI)).
    cbn. auto.
  - destruct (try_receive_inv no_index q L r R nbytes mprio HI)
      as [q' [Heq [HI' [_ [E1 [E2 _]]]]]].
    exists (r :: L), R. rewrite Heq. cbn. auto.
Qed.

(** Each operation returns and keeps the invariant. *)
Lemma run_operation_inv (max_size : Z) (fuel : nat) (q : Message_queue)
      (L R : list Z) (o : operation) :
  Inv no_index q L R ->
  fits (msg_size_bytes_ q) o ->
  (Z.to_nat (msgs_ q) <= fuel)%nat ->
  exists q' L' R',
    run_operation no_index max_size fuel q o = Some q' /\
    Inv no_index q' L' R' /\
    msg_size_bytes_ q' = msg_size_bytes_ q /\
    msgs_ q' = msgs_ q.
Proof.
  intros HI Hfit Hfuel.
  destruct o as [msg nbytes mprio | nbytes mprio | msg nbytes mprio
                 | msg nbytes mprio | h]; cbn [run_operation].
  - destruct (attempt_send_inv fuel q L R msg nbytes mprio HI Hfit Hfuel)
      as [b [q' [L' [R' [Heq H]]]]].
    exists q', L', R'. rewrite Heq. auto.
  - destruct (attempt_receive_inv q L R nbytes mprio HI) as [L' [R' H]].
    eexists _, L', R'. split; [reflexivity | exact H].
  - unfold try_send, os_assert_err.
    destruct msg as [msg|]; [|exists q, L, R; auto].
    destruct (nbytes >=? msg_size_bytes_ q); [|exists q, L, R; auto].
    destruct (attempt_send_inv fuel q L R msg nbytes mprio HI Hfit Hfuel)
      as [b [q' [L' [R' [Heq H]]]]].
    exists q', L', R'. rewrite Heq. destruct b; auto.
  - unfold try_receive, os_assert_err.
    destruct msg; [|exists q, L, R; auto].
    destruct (nbytes >=? msg_size_bytes_ q); [|exists q, L, R; auto].
    destruct (nbytes <=? max_size); [|exists q, L, R; auto].
    destruct (attempt_receive_inv q L R nbytes mprio HI) as [L' [R' H]].
    destruct (_try_receive no_index q nbytes mprio) as [[] r];
      eexists _, L', R'; (split; [reflexivity | exact H]).
  - destruct h.
    + exists q, L, R. cbn. auto.
    + exists (_init no_index q), (all_slots q), []. cbn.
      destruct (init_static no_index q) as [E1 [E2 _]].
      split; [reflexivity|]. split; [|auto].
      apply init_inv. apply (inv_geometry _ _ _ _ HI).
Qed.

Lemma run_operations_inv (max_size : Z) (fuel : nat) (os : list operation)
      (q : Message_queue) (L R : list Z) :
  Inv no_index q L R ->
  Forall (fits (msg_size_bytes_ q)) os ->
  (Z.to_nat (msgs_ q) <= fuel)%nat ->
  exists q' L' R',
    run_operations no_index max_size fuel q os = Some q' /\
    Inv no_index q' L' R' /\
    msg_size_bytes_ q' = msg_size_bytes_ q /\
    msgs_ q' = msgs_ q.
Proof.
  revert q L R. induction os as [|o os IH]; intros q L R HI Hfit Hfuel.
  - exists q, L, R. cbn. auto.
  - inversion Hfit as [|? ? Ho Hos]; subst.
    destruct (run_operation_inv max_size fuel q L R o HI Ho Hfuel)
      as [q1 [L1 [R1 [Heq [HI1 [E1 E2]]]]]].
    destruct (IH q1 L1 R1 HI1) as [q' [L' [R' [Heq' [HI' [E1' E2']]]]]].
    + rewrite E1. exact Hos.
    + rewrite E2. exact Hfuel.
    + exists q', L', R'. cbn [run_operations]. rewrite Heq.
      split; [exact Heq'|]. split; [exact HI'|]. split; congruence.
Qed.

(** The constructor establishes the invariant of an empty queue. *)
Lemma ctor_inv (flags_allocated sizeof_index sizeof_priority : Z)
      (h : bool) (this : Message_queue)
      (address size new_addr msgs msg_size_bytes : Z) (q0 : Message_queue) :
  Message_queue_ctor no_index flags_allocated sizeof_index sizeof_priority
                     h this address size new_addr msgs msg_size_bytes
  = Some q0 ->
  geometry no_index q0 ->
  msgs_ q0 = msgs /\ msg_size_bytes_ q0 = msg_size_bytes /\
  exists L, Inv no_index q0 L [].
Proof.
  unfold Message_queue_ctor. intros Hctor Hg.
  destruct h; [discriminate|].
  destruct (negb (address =? nullptr) && _); [discriminate|].
  injection Hctor as Hq0.
  cbn [queue_addr_] in Hq0.
  set (q1 := if address =? nullptr then _ else _) in Hq0.
  assert (Hs : msgs_ q1 = msgs /\ msg_size_bytes_ q1 = msg_size_bytes).
  { unfold q1. destruct (address =? nullptr); split; reflexivity. }
  clearbody q1. subst q0.
  destruct (init_static no_index q1) as [E1 [E2 [E3 _]]].
  assert (Hg1 : geometry no_index q1).
  { destruct Hg as [G1 G2 G3 G4]. rewrite E1 in G1. rewrite E2 in G2.
    rewrite E3 in G3. rewrite E1, E2, E3 in G4.
    constructor; assumption. }
  split; [rewrite E2; tauto|]. split; [rewrite E1; tauto|].
  eexists. apply init_inv. exact Hg1.
Qed.

End Sequences.

(** ** What only the constructor assigns *)

Lemma same_storage_refl (q : Message_queue) : same_storage q q.
Proof. repeat split. Qed.

Lemma same_storage_trans (q2 q1 q : Message_queue) :
  same_storage q2 q1 -> same_storage q1 q -> same_storage q2 q.
Proof.
  unfold same_storage. intros H1 H2.
  repeat split; (etransitivity; [apply H1 | apply H2]).
Qed.

Lemma init_storage (no_index : Z) (q : Message_queue) :
  same_storage (_init no_index q) q.
Proof.
  unfold _init. destruct (init_blocks _ _ _ _) as [m p].
  destruct q as [? ? ? ? ? ? ? ? ? ? ? ? [|s sl] [|r rl] ? ? ?]; cbn;
    repeat split; reflexivity.
Qed.

Lemma try_send_storage (no_index : Z) (fuel : nat) (q : Message_queue)
      (msg : list Z) (nbytes mprio : Z) (b : bool) (q' : Message_queue) :
  _try_send no_index fuel q msg nbytes mprio = Some (b, q') ->
  same_storage q' q.
Proof.
  unfold _try_send.
  destruct (first_free_ q =? nullptr).
  { intros H. injection H as _ <-. apply same_storage_refl. }
  cbn [msg_size_bytes_ msgs_ queue_addr_ queue_size_bytes_ flags_ mem_
       prev_array_ next_array_ prio_array_ head_ first_free_ count_
       send_list_ receive_list_].
  destruct (head_ (set_prio _ _) =? no_index).
  { destruct (nbytes <? _); intros H; injection H as _ <-; repeat split. }
  destruct (mprio >? _).
  { destruct (nbytes <? _); intros H; injection H as _ <-; repeat split. }
  destruct (walk_back _ _ _ _ _); [|discriminate].
  destruct (nbytes <? _); intros H; injection H as _ <-; repeat split.
Qed.

Lemma try_receive_storage (no_index : Z) (q : Message_queue) (nbytes : Z)
      (mprio : bool) :
  same_storage (rcv_queue (snd (_try_receive no_index q nbytes mprio))) q.
Proof.
  destruct (Z.eq_dec (head_ q) no_index) as [E|E].
  - rewrite (try_receive_empty no_index q nbytes mprio E).
    apply same_storage_refl.
  - rewrite (try_receive_head no_index q nbytes mprio E). repeat split.
Qed.

Lemma run_operation_storage (no_index max_size : Z) (fuel : nat)
      (q : Message_queue) (o : operation) (q' : Message_queue) :
  run_operation no_index max_size fuel q o = Some q' -> same_storage q' q.
Proof.
  destruct o as [msg nbytes mprio | nbytes mprio | msg nbytes mprio
                 | msg nbytes mprio | h]; cbn [run_operation].
  - destruct (_try_send no_index fuel q msg nbytes mprio) as [[b q1]|] eqn:E;
      intros H; inversion H; subst.
    exact (try_send_storage _ _ _ _ _ _ _ _ E).
  - intros H. injection H as <-. apply try_receive_storage.
  - unfold try_send, os_assert_err. destruct msg as [msg|].
    + destruct (nbytes >=? msg_size_bytes_ q).
      * destruct (_try_send no_index fuel q msg nbytes mprio)
          as [[[] q1]|] eqn:E; intros H; inversion H; subst;
          exact (try_send_storage _ _ _ _ _ _ _ _ E).
      * intros H. injection H as <-. apply same_storage_refl.
    + intros H. injection H as <-. apply same_storage_refl.
  - intros H. injection H as <-.
    unfold try_receive, os_assert_err.
    destruct msg; [|apply same_storage_refl].
    destruct (nbytes >=? msg_size_bytes_ q); [|apply same_storage_refl].
    destruct (nbytes <=? max_size); [|apply same_storage_refl].
    pose proof (try_receive_storage no_index q nbytes mprio) as Hs.
    destruct (_try_receive no_index q nbytes mprio) as [[] r]; exact Hs.
  - intros H. injection H as <-. unfold reset, os_assert_err.
    destruct h; cbn [negb snd];
      [apply same_storage_refl | apply init_storage].
Qed.

Lemma run_operations_storage (no_index max_size : Z) (fuel : nat)
      (os : list operation) (q q' : Message_queue) :
  run_operations no_index max_size fuel q os = Some q' -> same_storage q' q.
Proof.
  revert q. induction os as [|o os IH]; intros q; cbn [run_operations].
  - intros H. injection H as <-. apply same_storage_refl.
  - destruct (run_operation no_index max_size fuel q o) as [q1|] eqn:E;
      [|discriminate].
    intros H. apply (same_storage_trans _ q1).
    + exact (IH _ H).
    + exact (run_operation_storage _ _ _ _ _ _ E).
Qed.

Lemma arrays_in_storage_same (sizeof_index : Z) (q' q : Message_queue) :
  same_storage q' q ->
  arrays_in_storage sizeof_index q -> arrays_in_storage sizeof_index q'.
Proof.
  unfold same_storage, arrays_in_storage.
  intros [-> [-> [-> [-> [-> ->]]]]] H. exact H.
Qed.

(** Over caller's storage the constructor puts the three arrays behind
    the content array. *)
Lemma ctor_arrays (no_index flags_allocated sizeof_index sizeof_priority : Z)
      (h : bool) (this : Message_queue)
      (address size new_addr msgs msg_size_bytes : Z) (q0 : Message_queue) :
  Message_queue_ctor no_index flags_allocated sizeof_index sizeof_priority
                     h this address size new_addr msgs msg_size_bytes
  = Some q0 ->
  address <> nullptr ->
  arrays_in_storage sizeof_index q0.
Proof.
  unfold Message_queue_ctor. intros H Ha. apply Z.eqb_neq in Ha.
  destruct h; [discriminate H|].
  cbn [queue_addr_] in H. rewrite Ha in H.
  destruct (negb false && _); [discriminate H|].
  injection H as <-.
  apply (arrays_in_storage_same _ _ _ (init_storage no_index _)).
  repeat split.
Qed.

(** ** The order of the specification's queue *)

Lemma enqueue_perm (x : message) (l : list message) :
  Permutation (enqueue x l) (x :: l).
Proof.
  induction l as [|y l IH]; cbn.
  - reflexivity.
  - destruct (fst x >? fst y).
    + reflexivity.
    + rewrite IH. apply perm_swap.
Qed.

(** The queue of the specification stays ordered by descending priority. *)
Lemma enqueue_sorted (x : message) (l : list message) :
  StronglySorted before l -> StronglySorted before (enqueue x l).
Proof.
  induction 1 as [|y l Hl IH Hy]; cbn.
  - constructor; constructor.
  - destruct (Z.gtb_spec (fst x) (fst y)) as [Hgt|Hle].
    + constructor; [constructor; assumption|].
      constructor; [unfold before; lia|].
      eapply Forall_impl; [|exact Hy]. unfold before. intros z Hz. lia.
    + constructor; [exact IH|].
      eapply Permutation_Forall; [symmetry; apply enqueue_perm|].
      constructor; [unfold before; lia | exact Hy].
Qed.

(** A message goes behind the messages of its own priority and leaves the
    order of the others alone. *)
Lemma enqueue_filter (p : Z) (x : message) (l : list message) :
  StronglySorted before l ->
  filter (fun m => fst m =? p) (enqueue x l)
  = filter (fun m => fst m =? p) l ++ filter (fun m => fst m =? p) [x].
Proof.
  induction 1 as [|y l Hl IH Hy]; cbn [enqueue].
  - reflexivity.
  - destruct (Z.gtb_spec (fst x) (fst y)) as [Hgt|Hle].
    + cbn [filter]. destruct (Z.eqb_spec (fst x) p) as [Hx|Hx].
      * (* nothing from [y] on has the priority of [x] *)
        assert (Hnone : filter (fun m => fst m =? p) (y :: l) = []).
        { assert (Hall : Forall (fun m => (fst m =? p) = false) (y :: l)).
          { constructor; [apply Z.eqb_neq; lia|].
            eapply Forall_impl; [|exact Hy]. unfold before.
            intros z Hz. apply Z.eqb_neq. lia. }
          clear - Hall. induction Hall as [|z l' Hz _ IH']; [reflexivity|].
          cbn. rewrite Hz. exact IH'. }
        cbn [filter] in Hnone. rewrite Hnone. reflexivity.
      * now rewrite app_nil_r.
    + cbn [filter]. rewrite IH.
      destruct (fst y =? p); reflexivity.
Qed.

Lemma enqueue_all_sorted (xs l : list message) :
  StronglySorted before l -> StronglySorted before (enqueue_all xs l).
Proof.
  revert l. induction xs as [|x xs IH]; intros l Hl; cbn.
  - exact Hl.
  - apply IH, enqueue_sorted, Hl.
Qed.

Lemma enqueue_all_filter (p : Z) (xs l : list message) :
  StronglySorted before l ->
  filter (fun m => fst m =? p) (enqueue_all xs l)
  = filter (fun m => fst m =? p) l ++ filter (fun m => fst m =? p) xs.
Proof.
  revert l. induction xs as [|x xs IH]; intros l Hl;
    cbn [enqueue_all fold_left].
  - now rewrite app_nil_r.
  - change (fold_left (fun acc x0 => enqueue x0 acc) xs (enqueue x l))
      with (enqueue_all xs (enqueue x l)).
    rewrite IH by (apply enqueue_sorted, Hl).
    rewrite enqueue_filter by exact Hl.
    rewrite <- app_assoc. f_equal.
    cbn [filter app]. destruct (fst x =? p); reflexivity.
Qed.

Section Transfer.

Variable no_index : Z.

(** Sends into free blocks all succeed and fill the queue of the
    specification. *)
Lemma send_all_inv (fuel : nat) (xs : list message) (q : Message_queue)
      (L R : list Z) :
  Inv no_index q L R ->
  (length xs <= length L)%nat ->
  Forall (fun x => Z.of_nat (length (snd x)) = msg_size_bytes_ q) xs ->
  (Z.to_nat (msgs_ q) <= fuel)%nat ->
  exists q' L' R',
    send_all no_index fuel q xs = Some (repeat true (length xs), q') /\
    Inv no_index q' L' R' /\
    contents q' R' = enqueue_all xs (contents q R) /\
    length R' = (length R + length xs)%nat /\
    msg_size_bytes_ q' = msg_size_bytes_ q.
Proof.
  revert q L R. induction xs as [|[p m] xs IH]; intros q L R HI Hlen Hsz Hfuel.
  - exists q, L, R. cbn [send_all length repeat].
    split; [reflexivity|]. split; [exact HI|]. split; [reflexivity|].
    split; [lia | reflexivity].
  - destruct L as [|i L]; [cbn in Hlen; lia|].
    inversion Hsz as [|? ? Hm Hsz']; subst. cbn [snd] in Hm.
    pose proof (inv_geometry _ _ _ _ HI) as [G1 G2 G3 G4].
    unfold sizeof_ptr in G1.
    destruct (try_send_inv no_index fuel q i L R m (msg_size_bytes_ q) p HI)
      as [q1 [l1 [l2 [Heq [HR [HI1 [Hcont [E1 [E2 E3]]]]]]]]].
    { lia. }
    { pose proof (inv_ring_length no_index q (i :: L) R HI). lia. }
    rewrite payload_full in Hcont by exact Hm.
    destruct (IH q1 L (l1 ++ i :: l2) HI1)
      as [q' [L' [R' [Heq' [HI' [Hcont' [Hlen' E1']]]]]]].
    + cbn in Hlen. lia.
    + rewrite E1. exact Hsz'.
    + rewrite E2. exact Hfuel.
    + exists q', L', R'. cbn [send_all]. rewrite Heq, Heq'.
      split; [reflexivity|]. split; [exact HI'|]. split.
      * rewrite Hcont', Hcont. reflexivity.
      * split; [|congruence].
        rewrite Hlen', HR, !length_app. cbn [length]. lia.
Qed.

(** As many receives as there are messages return them from the head on. *)
Lemma receive_all_inv (R : list Z) (q : Message_queue) (L : list Z) :
  Inv no_index q L R ->
  exists q' L',
    receive_all no_index (length R) q
    = (map delivered (contents q R), q') /\
    Inv no_index q' L' [].
Proof.
  revert q L. induction R as [|r R IH]; intros q L HI.
  - exists q, L. cbn. auto.
  - destruct (try_receive_inv no_index q L r R (msg_size_bytes_ q) true HI)
      as [q1 [Heq [HI1 [Hcont [E1 [E2 E3]]]]]].
    destruct (IH q1 (r :: L) HI1) as [q' [L' [Heq' HI']]].
    exists q', L'. cbn [length receive_all]. rewrite Heq.
    cbn [rcv_queue rcv_msg rcv_prio]. rewrite Heq', Hcont.
    split; [reflexivity | exact HI'].
Qed.

End Transfer.

Section Main.

Variables no_index max_size flags_allocated sizeof_index sizeof_priority : Z.

(** A queue is built by the constructor over caller's storage, with
    blocks that can hold a pointer, and then used through any sequence of
    sends that stay within their block, receives and resets.  Every
    operation returns, and afterwards the number of enqueued messages plus
    the length of the list of free blocks is the capacity, with the count
    between 0 and the capacity. *)
Theorem queue_conservation (this : Message_queue)
        (address size new_addr msgs msg_size_bytes : Z)
        (q0 : Message_queue) (fuel : nat) (os : list operation) :
  Message_queue_ctor no_index flags_allocated sizeof_index sizeof_priority
                     false this address size new_addr msgs msg_size_bytes
  = Some q0 ->
  address <> nullptr ->
  geometry no_index q0 ->
  Forall (fits msg_size_bytes) os ->
  (Z.to_nat msgs <= fuel)%nat ->
  exists q,
    run_operations no_index max_size fuel q0 os = Some q /\
    count_ q
    + Z.of_nat (length (free_list (S (Z.to_nat msgs)) (mem_ q)
                                  (first_free_ q))) = msgs /\
    0 <= count_ q <= msgs.
Proof.
  intros Hctor _ Hg Hfit Hfuel.
  destruct (ctor_inv no_index _ _ _ _ _ _ _ _ _ _ _ Hctor Hg)
    as [E2 [E1 [L0 HI0]]].
  destruct (run_operations_inv no_index max_size fuel os q0 L0 [] HI0)
    as [q [L [R [Hrun [HI [E1' E2']]]]]].
  - rewrite E1. exact Hfit.
  - rewrite E2. exact Hfuel.
  - exists q. split; [exact Hrun|].
    destruct (inv_counts no_index q L R HI) as [Hfree [Hsum Hrange]].
    rewrite E2', E2 in Hfree, Hsum, Hrange.
    rewrite Hfree, length_map. split; assumption.
Qed.

(** A queue built by the constructor over caller's storage, with blocks
    that can hold a pointer, is empty again after some use.  At most [msgs]
    messages of the message size are sent: every send succeeds.  As many
    receives then return the messages in the order of the specification's
    queue and leave the queue empty; along that order the priorities never
    increase, and the messages of any one priority come out in the order
    in which they were sent. *)
Theorem priority_order_fifo (this : Message_queue)
        (address size new_addr msgs msg_size_bytes : Z)
        (q0 : Message_queue) (fuel : nat) (os : list operation)
        (q : Message_queue) (xs : list message) :
  Message_queue_ctor no_index flags_allocated sizeof_index sizeof_priority
                     false this address size new_addr msgs msg_size_bytes
  = Some q0 ->
  address <> nullptr ->
  geometry no_index q0 ->
  Forall (fits msg_size_bytes) os ->
  (Z.to_nat msgs <= fuel)%nat ->
  run_operations no_index max_size fuel q0 os = Some q ->
  count_ q = 0 ->
  (length xs <= Z.to_nat msgs)%nat ->
  Forall (fun x => Z.of_nat (length (snd x)) = msg_size_bytes) xs ->
  exists q1 q2,
    send_all no_index fuel q xs = Some (repeat true (length xs), q1) /\
    receive_all no_index (length xs) q1
    = (map delivered (enqueue_all xs []), q2) /\
    fst (_try_receive no_index q2 msg_size_bytes true) = false /\
    StronglySorted before (enqueue_all xs []) /\
    forall p, filter (fun m => fst m =? p) (enqueue_all xs [])
              = filter (fun m => fst m =? p) xs.
Proof.
  intros Hctor _ Hg Hfit Hfuel Hrun Hcount Hlen Hsz.
  destruct (ctor_inv no_index _ _ _ _ _ _ _ _ _ _ _ Hctor Hg)
    as [E2 [E1 [L0 HI0]]].
  destruct (run_operations_inv no_index max_size fuel os q0 L0 [] HI0)
    as [q' [L [R [Hrun' [HI [E1' E2']]]]]].
  { rewrite E1. exact Hfit. }
  { rewrite E2. exact Hfuel. }
  rewrite Hrun in Hrun'. injection Hrun' as <-.
  assert (HR : R = []).
  { pose proof (inv_count _ _ _ _ HI) as Hc. rewrite Hcount in Hc.
    destruct R; [reflexivity | cbn in Hc; lia]. }
  subst R.
  assert (HL : length L = Z.to_nat msgs).
  { pose proof (inv_length _ _ _ _ HI) as Hl. rewrite app_nil_r in Hl. lia. }
  destruct (send_all_inv no_index fuel xs q L [] HI)
    as [q1 [L1 [R1 [Hsend [HI1 [Hcont [HlenR E1'']]]]]]].
  { lia. }
  { rewrite E1', E1. exact Hsz. }
  { rewrite E2', E2. exact Hfuel. }
  destruct (receive_all_inv no_index R1 q1 L1 HI1) as [q2 [L2 [Hrecv HI2]]].
  cbn [length Nat.add] in HlenR. rewrite HlenR in Hrecv.
  exists q1, q2. split; [exact Hsend|]. split.
  - rewrite Hrecv, Hcont. reflexivity.
  - split.
    + rewrite (try_receive_empty no_index q2 _ _
                                 (inv_empty no_index q2 L2 HI2)).
      reflexivity.
    + split.
      * apply enqueue_all_sorted. constructor.
      * intros p. apply (enqueue_all_filter p xs []). constructor.
Qed.

(** C4, the copy as the code has it. A receive into a buffer larger than
    the message size, from a queue that is not empty, returns [ok] and
    copies [nbytes] bytes, not the message size: the bytes of the head
    block and of what follows it in memory. *)
Theorem receive_copies_nbytes (q : Message_queue) (nbytes : Z)
        (mprio : bool) :
  head_ q <> no_index ->
  msg_size_bytes_ q < nbytes <= max_size ->
  fst (try_receive no_index max_size q true nbytes mprio) = ok /\
  rcv_msg (snd (try_receive no_index max_size q true nbytes mprio))
  = Some (memcpy_from (mem_ q) (slot_addr q (head_ q)) nbytes) /\
  length (memcpy_from (mem_ q) (slot_addr q (head_ q)) nbytes)
  = Z.to_nat nbytes.
Proof.
  intros Hh [Hlo Hhi].
  unfold try_receive, os_assert_err.
  destruct (Z.geb_spec nbytes (msg_size_bytes_ q)); [|lia].
  destruct (Z.leb_spec nbytes max_size); [|lia].
  rewrite (try_receive_head no_index q nbytes mprio Hh). cbn.
  repeat split. apply memcpy_from_length.
Qed.

End Main.

(** ** Two defects of the constructor *)

Section Defects.

Variables no_index flags_allocated sizeof_index sizeof_priority : Z.

(** C2, the arrays of a queue without caller's storage.  The constructor
    derives the three pointers from [queue_addr_] while it is still null
    and allocates afterwards: the queue has its content array in the
    allocated storage and its arrays of links and priorities at
    [msgs * msg_size_bytes] bytes above [nullptr], not in that storage,
    and there the sends and receives write and read them. *)
Theorem default_queue_arrays_outside_storage (this : Message_queue)
        (initializer_size_bytes new_addr msgs msg_size_bytes : Z) :
  exists q,
    Message_queue_default no_index flags_allocated sizeof_index
                          sizeof_priority false this initializer_size_bytes
                          new_addr msgs msg_size_bytes = Some q /\
    queue_addr_ q = new_addr /\
    first_free_ q = new_addr /\
    prev_array_addr_ q = nullptr + msgs * msg_size_bytes /\
    next_array_addr_ q = prev_array_addr_ q + msgs * sizeof_index /\
    prio_array_addr_ q = next_array_addr_ q + msgs * sizeof_index /\
    (new_addr <> nullptr -> ~ arrays_in_storage sizeof_index q).
Proof.
  unfold Message_queue_default, Message_queue_ctor.
  cbn [queue_addr_]. rewrite Z.eqb_refl. cbn [negb andb].
  eexists. split; [reflexivity|].
  match goal with
  | |- context [_init no_index ?x] =>
      destruct (init_storage no_index x) as [S1 [S2 [S3 [S4 [S5 S6]]]]];
      destruct (init_dynamic no_index x) as [_ [_ [D3 _]]]
  end.
  unfold arrays_in_storage. rewrite S1, S2, S3, S4, S5, S6, D3.
  cbn [msg_size_bytes_ msgs_ queue_addr_ prev_array_addr_ next_array_addr_
       prio_array_addr_].
  repeat split.
  intros Hn [Hp _]. unfold nullptr in *. lia.
Qed.

End Defects.

(** C3, the free list when a block is smaller than a pointer.  A queue of
    three messages of one byte is built over caller's storage at
    0x20000000: [_init] stores a pointer of four bytes at each block, and
    each store overwrites three bytes of the pointer before it.  Whatever
    the memory held, the pointer read back from the first block is 513:
    the list of free blocks leaves the storage after its first block.
    With memory that held zeroes it has two elements, for a capacity of
    three. *)
Theorem small_blocks_break_free_list (this : Message_queue) :
  exists q,
    Message_queue_ctor 255 1 1 1 false this 536870912 64 0 3 1 = Some q /\
    msgs_ q = 3 /\
    count_ q = 0 /\
    first_free_ q = 536870912 /\
    load_ptr (mem_ q) (first_free_ q) = 513 /\
    ((forall x, mem_ this x = 0) ->
     free_list 4 (mem_ q) (first_free_ q) = [536870912; 513] /\
     count_ q + Z.of_nat (length (free_list 4 (mem_ q) (first_free_ q))) = 2).
Proof.
  set (x := mkMessage_queue 1 3 536870912 64 (flags_ this) (mem_ this)
              (prev_array_ this) (next_array_ this) (prio_array_ this) 255
              (first_free_ this) (count_ this) (send_list_ this)
              (receive_list_ this) 536870915 536870918 536870921).
  exists (_init 255 x). split; [reflexivity|].
  destruct (init_static 255 x) as [_ [S2 _]].
  destruct (init_dynamic 255 x) as [D1 [_ [D3 [_ [_ D6]]]]].
  rewrite S2, D1, D3, D6. subst x.
  cbn [msgs_ queue_addr_ mem_ msg_size_bytes_].
  split; [reflexivity|]. split; [reflexivity|]. split; [reflexivity|].
  assert (Hp : load_ptr
                 (store_ptr
                    (fst (init_blocks (Z.to_nat (3 - 1)) (mem_ this)
                                      536870912 1))
                    (snd (init_blocks (Z.to_nat (3 - 1)) (mem_ this)
                                      536870912 1)) nullptr) 536870912
               = 513) by (vm_compute; reflexivity).
  split; [exact Hp|].
  intros Hz.
  assert (Hl : free_list 4
                 (store_ptr
                    (fst (init_blocks (Z.to_nat (3 - 1)) (mem_ this)
                                      536870912 1))
                    (snd (init_blocks (Z.to_nat (3 - 1)) (mem_ this)
                                      536870912 1)) nullptr) 536870912
               = [536870912; 513]).
  { change (free_list 4 ?m 536870912)
      with (536870912 :: free_list 3 m (load_ptr m 536870912)).
    rewrite Hp. f_equal.
    change (free_list 3 ?m 513) with (513 :: free_list 2 m (load_ptr m 513)).
    f_equal.
    match goal with
    | |- free_list 2 ?m ?p = [] =>
        assert (Hq : p = 0);
        [| rewrite Hq; reflexivity]
    end.
    vm_compute. rewrite !Hz. reflexivity. }
  rewrite Hl. split; reflexivity.
Qed.

(** ** The theorems at sample inputs *)

Ltac by_computation :=
  vm_compute; repeat split; try reflexivity;
  try (let H := fresh in intros H; discriminate H).

Lemma queue_conservation_witness :
  exists q,
    run_operations 255 255 3 demo_queue demo_operations = Some q /\
    count_ q + Z.of_nat (length (free_list 4 (mem_ q) (first_free_ q))) = 3
    /\ 0 <= count_ q <= 3.
Proof.
  apply (queue_conservation 255 255 1 1 1 blank_queue 536870912 64 0 3 4
                            demo_queue 3 demo_operations).
  - reflexivity.
  - by_computation.
  - constructor; by_computation.
  - repeat constructor; by_computation.
  - by_computation.
Defined.

Lemma priority_order_fifo_witness :
  exists q1 q2,
    send_all 255 3 demo_queue demo_messages = Some ([true; true; true], q1)
    /\
    receive_all 255 3 q1
    = ([(true, Some [2; 0; 0; 0], Some 9); (true, Some [1; 0; 0; 0], Some 5);
        (true, Some [3; 0; 0; 0], Some 5)], q2) /\
    fst (_try_receive 255 q2 4 true) = false /\
    StronglySorted before (enqueue_all demo_messages []) /\
    forall p, filter (fun m => fst m =? p) (enqueue_all demo_messages [])
              = filter (fun m => fst m =? p) demo_messages.
Proof.
  apply (priority_order_fifo 255 255 1 1 1 blank_queue 536870912 64 0 3 4
                             demo_queue 3 [] demo_queue demo_messages).
  - reflexivity.
  - by_computation.
  - constructor; by_computation.
  - constructor.
  - by_computation.
  - reflexivity.
  - reflexivity.
  - by_computation.
  - repeat constructor.
Defined.

Lemma receive_copies_nbytes_witness :
  fst (try_receive 255 255 demo_sent true 8 true) = ok /\
  rcv_msg (snd (try_receive 255 255 demo_sent true 8 true))
  = Some [1; 2; 3; 4; 5; 6; 7; 8] /\
  length (memcpy_from (mem_ demo_sent) (slot_addr demo_sent (head_ demo_sent))
                      8) = 8%nat.
Proof.
  apply (receive_copies_nbytes 255 255 demo_sent 8 true).
  - by_computation.
  - by_computation.
Defined.

(** * Further properties *)

(** ** Signal flags *)

Lemma testbit_high (s i : Z) :
  0 <= s < 2 ^ sigset_bits -> sigset_bits <= i -> Z.testbit s i = false.
Proof.
  unfold sigset_bits. intros Hs Hi.
  rewrite <- (Z.mod_small s (2 ^ 32)) by exact Hs.
  apply Z.mod_pow2_bits_high. lia.
Qed.

(** The bits kept and the bits cleared by [s & ~mask] make up [s]. *)
Lemma sig_split (s mask : Z) :
  0 <= s < 2 ^ sigset_bits ->
  Z.lor (Z.land s mask) (Z.land s (sig_not mask)) = s /\
  Z.land (Z.land s mask) (Z.land s (sig_not mask)) = 0.
Proof.
  intros Hs. split; apply Z.bits_inj'; intros i Hi.
  - rewrite Z.lor_spec, !Z.land_spec, testbit_sig_not by exact Hi.
    destruct (Z.ltb_spec i sigset_bits) as [Hlt|Hge].
    + destruct (Z.testbit s i), (Z.testbit mask i); reflexivity.
    + rewrite (testbit_high s i Hs Hge). reflexivity.
  - rewrite !Z.land_spec, testbit_sig_not, Z.bits_0 by exact Hi.
    destruct (Z.testbit s i), (Z.testbit mask i), (i <? sigset_bits);
      reflexivity.
Qed.

Lemma lor_land_same (s m : Z) : Z.land (Z.lor s m) m = m.
Proof.
  apply Z.bits_inj'. intros i Hi.
  rewrite Z.land_spec, Z.lor_spec.
  destruct (Z.testbit s i), (Z.testbit m i); reflexivity.
Qed.

Section Signals.

Variables mode_all mode_any mode_clear sig_error : Z.

Lemma sig_raise_eq (t : Thread) (mask : Z) (o : bool) :
  mask <> 0 ->
  sig_raise t mask o
  = (ok, wakeup (set_sig_mask t (Z.lor (sig_mask_ t) mask)),
     if o then Some (sig_mask_ t) else None).
Proof.
  intros Hm. apply Z.eqb_neq in Hm.
  unfold sig_raise, os_assert_err. now rewrite Hm.
Qed.

Lemma sig_get_eq (t : Thread) (mask mode : Z) :
  mask <> 0 ->
  sig_get mode_clear sig_error false t mask mode
  = (Z.land (sig_mask_ t) mask,
     if Z.land mode mode_clear =? 0 then t
     else set_sig_mask t (Z.land (sig_mask_ t) (sig_not mask))).
Proof.
  intros Hm. apply Z.eqb_neq in Hm.
  unfold sig_get, os_assert_err. cbn [negb]. rewrite Hm.
  destruct (Z.land mode mode_clear =? 0); reflexivity.
Qed.

Lemma sig_clear_eq (t : Thread) (mask : Z) (o : bool) :
  mask <> 0 ->
  sig_clear false t mask o
  = (ok, set_sig_mask t (Z.land (sig_mask_ t) (sig_not mask)),
     if o then Some (sig_mask_ t) else None).
Proof.
  intros Hm. apply Z.eqb_neq in Hm.
  unfold sig_clear, os_assert_err. cbn [negb]. now rewrite Hm.
Qed.

(** Two [sig_raise] in a row are one [sig_raise] of the two masks
    together: the flags add up, in either order, and raising a mask again
    changes nothing. *)
Theorem sig_raise_coalesces (t : Thread) (m1 m2 : Z) (o1 o2 o3 : bool) :
  m1 <> 0 -> m2 <> 0 ->
  let t1 := snd (fst (sig_raise t m1 o1)) in
  fst (fst (sig_raise t1 m2 o2)) = ok /\
  snd (fst (sig_raise t1 m2 o2)) = snd (fst (sig_raise t (Z.lor m1 m2) o3))
  /\
  snd (fst (sig_raise t1 m2 o2))
  = snd (fst (sig_raise (snd (fst (sig_raise t m2 o1))) m1 o2)) /\
  snd (fst (sig_raise t1 m1 o2)) = t1.
Proof.
  intros H1 H2.
  assert (H12 : Z.lor m1 m2 <> 0).
  { intros H. apply Z.lor_eq_0_iff in H. tauto. }
  cbv zeta. rewrite !sig_raise_eq by assumption. cbn [fst snd].
  unfold wakeup, set_wakeup_reason, set_sig_mask.
  cbn [prio_ stack_size_bytes_ stack_addr_ func_ func_args_ func_result_
       sig_mask_ sched_state_ wakeup_reason_].
  repeat split.
  - now rewrite Z.lor_assoc.
  - f_equal. rewrite <- !Z.lor_assoc. f_equal. apply Z.lor_comm.
  - f_equal. rewrite <- Z.lor_assoc. f_equal. apply Z.lor_diag.
Qed.

(** What [sig_raise] raised, [sig_get] reads back: all the bits of the
    mask, whatever the flags were before; the pointer of [sig_raise]
    receives the flags as they were. *)
Theorem sig_raise_then_get (t : Thread) (mask mode : Z) :
  mask <> 0 ->
  fst (fst (sig_raise t mask true)) = ok /\
  snd (sig_raise t mask true) = Some (sig_mask_ t) /\
  fst (sig_get mode_clear sig_error false
               (snd (fst (sig_raise t mask true))) mask mode) = mask.
Proof.
  intros Hm. rewrite sig_raise_eq by exact Hm. cbn [fst snd].
  rewrite sig_get_eq by exact Hm. cbn [fst].
  repeat split. apply lor_land_same.
Qed.

(** [sig_get] with the bit [clear] splits the flags in two: the bits
    returned and the bits left in the thread add up to the flags as they
    were and share no bit, and no member but the flags changes; without
    the bit [clear] the thread is left as it is. *)
Theorem sig_get_splits (t : Thread) (mask mode : Z) :
  0 <= sig_mask_ t < 2 ^ sigset_bits ->
  mask <> 0 ->
  let r := sig_get mode_clear sig_error false t mask mode in
  fst r = Z.land (sig_mask_ t) mask /\
  (Z.land mode mode_clear = 0 -> snd r = t) /\
  (Z.land mode mode_clear <> 0 ->
   Z.lor (fst r) (sig_mask_ (snd r)) = sig_mask_ t /\
   Z.land (fst r) (sig_mask_ (snd r)) = 0 /\
   snd r = set_sig_mask t (sig_mask_ (snd r))).
Proof.
  intros Hs Hm. cbv zeta. rewrite sig_get_eq by exact Hm. cbn [fst snd].
  split; [reflexivity|]. split.
  - intros ->. reflexivity.
  - intros Hc. apply Z.eqb_neq in Hc. rewrite Hc.
    destruct (sig_split (sig_mask_ t) mask Hs) as [H1 H2].
    repeat split; assumption.
Qed.

(** After [sig_clear (mask)] no bit of the mask is raised and every other
    flag is as before: [sig_get] of the mask returns 0, [sig_get] of a
    mask that shares no bit with it returns what it returned before.  The
    pointer receives the flags as they were. *)
Theorem sig_clear_then_get (t : Thread) (mask other mode : Z) :
  0 <= sig_mask_ t < 2 ^ sigset_bits ->
  mask <> 0 -> other <> 0 -> Z.land mask other = 0 ->
  let r := sig_clear false t mask true in
  fst (fst r) = ok /\
  snd r = Some (sig_mask_ t) /\
  fst (sig_get mode_clear sig_error false (snd (fst r)) mask mode) = 0 /\
  fst (sig_get mode_clear sig_error false (snd (fst r)) other mode)
  = fst (sig_get mode_clear sig_error false t other mode).
Proof.
  intros Hs Hm Ho Hd. cbv zeta. rewrite sig_clear_eq by exact Hm.
  cbn [fst snd]. rewrite !sig_get_eq by assumption. cbn [fst sig_mask_
  set_sig_mask]. repeat split.
  - apply land_sig_not_land.
  - apply Z.bits_inj'. intros i Hi.
    rewrite !Z.land_spec, testbit_sig_not by exact Hi.
    assert (Hbit : Z.testbit mask i && Z.testbit other i = false).
    { rewrite <- Z.land_spec, Hd. apply Z.bits_0. }
    destruct (Z.ltb_spec i sigset_bits) as [Hlt|Hge].
    + destruct (Z.testbit (sig_mask_ t) i), (Z.testbit mask i),
        (Z.testbit other i); cbn in *; congruence.
    + rewrite (testbit_high _ i Hs Hge). reflexivity.
Qed.

(** An attempt either succeeds or leaves the thread as it is. *)
Lemma try_wait_cases (t : Thread) (mask : Z) (oflags : bool) (mode : Z)
      (r : result_t) (t' : Thread) (o : option Z) :
  _try_wait mode_all mode_any t mask oflags mode = (r, t', o) ->
  r = ok \/ (r = EAGAIN /\ t' = t /\ o = None).
Proof.
  unfold _try_wait.
  destruct (negb (mask =? 0) && negb (Z.land mode mode_all =? 0)).
  - destruct (Z.land (sig_mask_ t) mask =? mask); intros H; inversion H;
      auto.
  - destruct ((mask =? 0) || negb (Z.land mode mode_any =? 0));
      [destruct (negb (sig_mask_ t =? 0))|]; intros H; inversion H; auto.
Qed.

(** [_try_wait] returns [ok] or [EAGAIN].  With [EAGAIN] the thread is
    left as it is and nothing is stored.  With [ok] some flag was raised,
    the flags as they were are stored through the pointer, no flag is
    raised that was not, and no member but the flags changes. *)
Theorem try_wait_outcome (t : Thread) (mask : Z) (oflags : bool) (mode : Z) :
  let r := _try_wait mode_all mode_any t mask oflags mode in
  (fst (fst r) = ok \/ fst (fst r) = EAGAIN) /\
  (fst (fst r) = EAGAIN -> snd (fst r) = t /\ snd r = None) /\
  (fst (fst r) = ok ->
   sig_mask_ t <> 0 /\
   snd r = (if oflags then Some (sig_mask_ t) else None) /\
   Z.land (sig_mask_ (snd (fst r))) (sig_mask_ t) = sig_mask_ (snd (fst r))
   /\ snd (fst r) = set_sig_mask t (sig_mask_ (snd (fst r)))).
Proof.
  cbv zeta. unfold _try_wait.
  destruct (Z.eqb_spec mask 0) as [Hm|Hm]; cbn [negb andb orb].
  - destruct (Z.eqb_spec (sig_mask_ t) 0) as [Hs|Hs]; cbn [negb fst snd].
    + repeat split; auto; discriminate.
    + repeat split; auto; try discriminate.
  - destruct (Z.land mode mode_all =? 0); cbn [negb andb orb].
    + destruct (Z.land mode mode_any =? 0); cbn [negb fst snd].
      * repeat split; auto; discriminate.
      * destruct (Z.eqb_spec (sig_mask_ t) 0) as [Hs|Hs]; cbn [negb fst snd];
          repeat split; auto; discriminate.
    + destruct (Z.eqb_spec (Z.land (sig_mask_ t) mask) mask) as [Ha|Ha];
        cbn [fst snd]; repeat split; auto; try discriminate.
      * intros Hs. rewrite Hs, Z.land_0_l in Ha. congruence.
      * cbn [sig_mask_ set_sig_mask]. rewrite <- Z.land_assoc.
        rewrite (Z.land_comm (sig_not mask)), Z.land_assoc, Z.land_diag.
        reflexivity.
Qed.

(** In the mode [all], for a mask that is not empty, [try_sig_wait]
    succeeds exactly when every bit of the mask is raised; it then stores
    the flags as they were and clears the bits of the mask and no other:
    the flags left and the mask add up to the flags as they were. *)
Theorem try_sig_wait_all (t : Thread) (mask mode : Z) :
  0 <= sig_mask_ t < 2 ^ sigset_bits ->
  mask <> 0 ->
  Z.land mode mode_all <> 0 ->
  let r := try_sig_wait mode_all mode_any false t mask true mode in
  (fst (fst r) = ok <-> Z.land (sig_mask_ t) mask = mask) /\
  (fst (fst r) <> ok -> r = (EAGAIN, t, None)) /\
  (fst (fst r) = ok ->
   snd r = Some (sig_mask_ t) /\
   Z.land (sig_mask_ (snd (fst r))) mask = 0 /\
   Z.lor (sig_mask_ (snd (fst r))) mask = sig_mask_ t).
Proof.
  intros Hs Hm Ha. apply Z.eqb_neq in Hm. apply Z.eqb_neq in Ha.
  cbv zeta. unfold try_sig_wait, os_assert_err, _try_wait. cbn [negb].
  rewrite Hm, Ha. cbn [negb andb].
  destruct (Z.eqb_spec (Z.land (sig_mask_ t) mask) mask) as [He|He];
    cbn [fst snd sig_mask_ set_sig_mask].
  - split; [tauto|]. split; [intros H; contradiction H; reflexivity|].
    intros _. split; [reflexivity|]. split; [apply land_sig_not_land|].
    destruct (sig_split (sig_mask_ t) mask Hs) as [H1 _].
    rewrite He in H1. rewrite Z.lor_comm. exact H1.
  - split; [split; [discriminate | contradiction]|].
    split; [reflexivity | discriminate].
Qed.

(** With a mask that is not empty and a mode that has neither the bit
    [all] nor the bit [any], no flag satisfies the wait: [try_sig_wait]
    fails with [EAGAIN] whatever is raised, and [sig_wait] never returns,
    whatever wakes the thread. *)
Theorem sig_wait_without_all_or_any (env : list wake) (t : Thread)
        (mask : Z) (oflags : bool) (mode : Z) :
  mask <> 0 ->
  Z.land mode mode_all = 0 ->
  Z.land mode mode_any = 0 ->
  try_sig_wait mode_all mode_any false t mask oflags mode = (EAGAIN, t, None)
  /\
  exists t',
    sig_wait mode_all mode_any false env t mask oflags mode
    = Suspended (t', None).
Proof.
  intros Hm Ha Hy. apply Z.eqb_neq in Hm.
  assert (Hw : forall t0, _try_wait mode_all mode_any t0 mask oflags mode
                          = (EAGAIN, t0, None)).
  { intros t0. unfold _try_wait. rewrite Hm, Ha, Hy. reflexivity. }
  split.
  - unfold try_sig_wait, os_assert_err. cbn [negb]. apply Hw.
  - unfold sig_wait, os_assert_err. cbn [negb].
    revert t. induction env as [|w env IH]; intros t; cbn [sig_wait_loop];
      rewrite Hw.
    + exists t. reflexivity.
    + unfold interrupted. apply IH.
Qed.

(** A thread waits in the mode [all] for a mask of which some bit is not
    raised: [sig_wait] suspends it and leaves the flags alone.  When a
    [sig_raise] that completes the mask wakes it, [sig_wait] returns [ok],
    stores the flags as the raise left them and clears the mask. *)
Theorem sig_wait_until_raised (env : list wake) (t : Thread)
        (mask raised mode now : Z) :
  mask <> 0 ->
  Z.land mode mode_all <> 0 ->
  Z.land (sig_mask_ t) mask <> mask ->
  raised <> 0 ->
  Z.land (Z.lor (sig_mask_ t) raised) mask = mask ->
  sig_wait mode_all mode_any false [] t mask true mode = Suspended (t, None)
  /\
  sig_wait mode_all mode_any false (wake_raise raised now :: env) t mask
           true mode
  = Returned ok
      (set_sig_mask (wakeup t)
                    (Z.land (Z.lor (sig_mask_ t) raised) (sig_not mask)),
       Some (Z.lor (sig_mask_ t) raised)).
Proof.
  intros Hm Ha Hno Hr Hyes.
  pose proof Hm as Hm'. pose proof Ha as Ha'.
  apply Z.eqb_neq in Hm. apply Z.eqb_neq in Ha. apply Z.eqb_neq in Hno.
  assert (Hw : _try_wait mode_all mode_any t mask true mode
               = (EAGAIN, t, None)).
  { unfold _try_wait. rewrite Hm, Ha. cbn [negb andb]. now rewrite Hno. }
  unfold sig_wait, os_assert_err. cbn [negb sig_wait_loop].
  rewrite Hw. split; [reflexivity|].
  unfold interrupted. cbn [wake_raise wake_thread].
  rewrite sig_raise_eq by exact Hr. cbn [fst snd].
  destruct env as [|w env]; cbn [sig_wait_loop];
    unfold _try_wait; rewrite Hm, Ha; cbn [negb andb];
    unfold wakeup at 1 2; cbn [sig_mask_ set_wakeup_reason set_sig_mask];
    apply Z.eqb_eq in Hyes; rewrite Hyes; reflexivity.
Qed.

(** [timed_sig_wait] does not fail with a timeout while the flags asked
    for are raised.  If they are at the call, it returns [ok] at once,
    whatever the timeout and the clock.  If they are not and the timeout
    (1 tick for 0) is over at the first reading of the clock, it returns
    [ETIMEDOUT] and the thread is as it was.  Along every trace of
    wake-ups a call that returns does so with [ok] or with [ETIMEDOUT],
    the latter only with the wait still unsatisfied. *)
Theorem timed_sig_wait_timeout (env : list wake) (t : Thread) (mask : Z)
        (oflags : bool) (mode ticks start now : Z) :
  let attempt := _try_wait mode_all mode_any t mask oflags mode in
  let call :=
    timed_sig_wait mode_all mode_any false env t mask oflags mode ticks
                   start now in
  (fst (fst attempt) = ok ->
   call = Returned ok (snd (fst attempt), snd attempt)) /\
  (fst (fst attempt) <> ok ->
   (if ticks =? 0 then 1 else ticks) <= slept now start ->
   call = Returned ETIMEDOUT (t, None)) /\
  (forall r t' out,
      call = Returned r (t', out) ->
      r = ok \/
      r = ETIMEDOUT /\
      _try_wait mode_all mode_any t' mask oflags mode = (EAGAIN, t', None)).
Proof.
  cbv zeta. unfold timed_sig_wait, os_assert_err. cbn [negb].
  set (tk := if ticks =? 0 then 1 else ticks). clearbody tk.
  split; [|split].
  - destruct env as [|w env]; cbn [timed_sig_wait_loop];
      destruct (_try_wait mode_all mode_any t mask oflags mode)
        as [[[] t1] o1]; cbn [fst snd]; intros E; try discriminate E;
      reflexivity.
  - destruct (_try_wait mode_all mode_any t mask oflags mode)
      as [[res t1] o1] eqn:Hw.
    destruct (try_wait_cases t mask oflags mode res t1 o1 Hw)
      as [-> | [-> [-> ->]]]; cbn [fst snd]; intros E Hover;
      [contradiction E; reflexivity|].
    destruct env as [|w env]; cbn [timed_sig_wait_loop]; rewrite Hw;
      destruct (Z.geb_spec (slept now start) tk); try lia; reflexivity.
  - intros r t' out. revert t now.
    induction env as [|w env IH]; intros t now H;
      cbn [timed_sig_wait_loop] in H;
      destruct (_try_wait mode_all mode_any t mask oflags mode)
        as [[res t1] o1] eqn:Hw;
      destruct (try_wait_cases t mask oflags mode res t1 o1 Hw)
        as [-> | [-> [-> ->]]];
      try (inversion H; left; reflexivity);
      destruct (slept now start >=? tk);
      try (inversion H; subst; right; split; [reflexivity | exact Hw]);
      try discriminate H.
    unfold interrupted in H. apply IH in H. exact H.
Qed.

End Signals.

(** ** Life cycle and priority *)

(** The value given to [exit] is what [join] stores: a thread that has
    not terminated takes the value and becomes terminated, [join] from a
    thread returns [ok] and stores that value, and a later [exit] changes
    nothing, so the first value stays. *)
Theorem exit_then_join (t : Thread) (value other : Z) :
  sched_state_ t <> terminated ->
  exists t1,
    exit false t value = Some t1 /\
    sched_state_ t1 = terminated /\
    join false t1 true = (ok, Some value) /\
    exit false t1 other = Some t1 /\
    sig_mask_ t1 = sig_mask_ t /\ prio_ t1 = prio_ t.
Proof.
  intros Hs. exists (set_sched_state (set_func_result t value) terminated).
  unfold exit, join, os_assert_err. cbn [negb].
  destruct (sched_state_ t) eqn:E; try (contradiction Hs; reflexivity);
    repeat split.
Qed.

Section PriorityProperties.

Variables priority_none priority_error : Z.

(** A priority set from a thread is the priority read back, and no other
    member changes; from an interrupt handler the call fails with [EPERM]
    and the priority stays, and the read returns the error value. *)
Theorem sched_prio_set_then_get (t : Thread) (prio : Z) :
  prio <> priority_none ->
  (exists t1,
      sched_prio_set priority_none false t prio = Some (ok, t1) /\
      sched_prio priority_error false t1 = prio /\
      t1 = set_thread_prio t prio) /\
  sched_prio_set priority_none true t prio = Some (EPERM, t) /\
  sched_prio priority_error true t = priority_error.
Proof.
  intros Hp. apply Z.eqb_neq in Hp.
  unfold sched_prio_set, sched_prio, os_assert_err. cbn [negb].
  rewrite Hp. split; [|split; reflexivity].
  eexists. repeat split.
Qed.

End PriorityProperties.

(** ** The queue in any state it can reach *)

(** The wait lists have no part in the invariant. *)
Lemma inv_send_list (no_index : Z) (q : Message_queue) (L R : list Z)
      (l : Waiting_threads_list) :
  Inv no_index q L R -> Inv no_index (set_send_list q l) L R.
Proof.
  intros [[g1 g2 g3 g4] H2 H3 H4 H5 H6 H7 H8].
  constructor; [constructor|..]; assumption.
Qed.

Lemma inv_receive_list (no_index : Z) (q : Message_queue) (L R : list Z)
      (l : Waiting_threads_list) :
  Inv no_index q L R -> Inv no_index (set_receive_list q l) L R.
Proof.
  intros [[g1 g2 g3 g4] H2 H3 H4 H5 H6 H7 H8].
  constructor; [constructor|..]; assumption.
Qed.

(** What an attempt to send does to the wait lists. *)
Lemma try_send_lists (no_index : Z) (fuel : nat) (q : Message_queue)
      (msg : list Z) (nbytes mprio : Z) (b : bool) (q' : Message_queue) :
  _try_send no_index fuel q msg nbytes mprio = Some (b, q') ->
  send_list_ q' = send_list_ q /\
  receive_list_ q'
  = (if b then wakeup_one (receive_list_ q) else receive_list_ q).
Proof.
  unfold _try_send.
  destruct (first_free_ q =? nullptr).
  { intros H. inversion H. split; reflexivity. }
  fields.
  destruct (head_ (set_prio _ _) =? no_index).
  { destruct (nbytes <? _); intros H; inversion H; split; reflexivity. }
  destruct (mprio >? _).
  { destruct (nbytes <? _); intros H; inversion H; split; reflexivity. }
  destruct (walk_back _ _ _ _ _); [|discriminate].
  destruct (nbytes <? _); intros H; inversion H; split; reflexivity.
Qed.

(** What an attempt to receive does to the wait lists. *)
Lemma try_receive_lists (no_index : Z) (q : Message_queue) (nbytes : Z)
      (mprio : bool) :
  let r := _try_receive no_index q nbytes mprio in
  receive_list_ (rcv_queue (snd r)) = receive_list_ q /\
  send_list_ (rcv_queue (snd r))
  = (if fst r then wakeup_one (send_list_ q) else send_list_ q).
Proof.
  cbv zeta. destruct (Z.eq_dec (head_ q) no_index) as [E|E].
  - rewrite (try_receive_empty no_index q nbytes mprio E). split; reflexivity.
  - rewrite (try_receive_head no_index q nbytes mprio E). split; reflexivity.
Qed.

(** The state after the constructor over caller's storage and any use
    satisfies the invariant, and has its arrays behind the content
    array. *)
Lemma used_inv (no_index max_size flags_allocated sizeof_index
                sizeof_priority : Z) (this : Message_queue)
      (address size new_addr msgs msg_size_bytes : Z)
      (q0 : Message_queue) (fuel : nat) (os : list operation)
      (q : Message_queue) :
  Message_queue_ctor no_index flags_allocated sizeof_index sizeof_priority
                     false this address size new_addr msgs msg_size_bytes
  = Some q0 ->
  address <> nullptr ->
  geometry no_index q0 ->
  Forall (fits msg_size_bytes) os ->
  (Z.to_nat msgs <= fuel)%nat ->
  run_operations no_index max_size fuel q0 os = Some q ->
  exists L R,
    Inv no_index q L R /\ msg_size_bytes_ q = msg_size_bytes /\
    msgs_ q = msgs /\ arrays_in_storage sizeof_index q.
Proof.
  intros Hctor Haddr Hg Hfit Hfuel Hrun.
  destruct (ctor_inv no_index _ _ _ _ _ _ _ _ _ _ _ Hctor Hg)
    as [E2 [E1 [L0 HI0]]].
  destruct (run_operations_inv no_index max_size fuel os q0 L0 [] HI0)
    as [q' [L [R [Hrun' [HI [E1' E2']]]]]].
  { rewrite E1. exact Hfit. }
  { rewrite E2. exact Hfuel. }
  rewrite Hrun in Hrun'. injection Hrun' as <-.
  exists L, R. split; [exact HI|]. split; [congruence|].
  split; [congruence|].
  apply (arrays_in_storage_same _ _ q0).
  - exact (run_operations_storage _ _ _ _ _ _ Hrun).
  - exact (ctor_arrays _ _ _ _ _ _ _ _ _ _ _ _ Hctor Haddr).
Qed.

(** A queue with a free block takes a message that fits; a queue
    without one refuses it. *)
Lemma send_cases (no_index : Z) (fuel : nat) (q : Message_queue)
      (L R : list Z) (msg : list Z) (nbytes mprio : Z) :
  Inv no_index q L R ->
  0 <= nbytes <= msg_size_bytes_ q ->
  (Z.to_nat (msgs_ q) <= fuel)%nat ->
  (count_ q = msgs_ q /\ L = [] /\
   _try_send no_index fuel q msg nbytes mprio = Some (false, q)) \/
  (count_ q < msgs_ q /\
   exists q' i L' l1 l2,
     L = i :: L' /\ R = l1 ++ l2 /\
     _try_send no_index fuel q msg nbytes mprio = Some (true, q') /\
     Inv no_index q' L' (l1 ++ i :: l2) /\
     contents q' (l1 ++ i :: l2)
     = enqueue (mprio, payload msg nbytes (msg_size_bytes_ q))
               (contents q R) /\
     msg_size_bytes_ q' = msg_size_bytes_ q /\
     msgs_ q' = msgs_ q /\
     count_ q' = count_ q + 1).
Proof.
  intros HI Hfit Hfuel.
  pose proof (inv_count _ _ _ _ HI) as Hc.
  pose proof (inv_length _ _ _ _ HI) as Hl. rewrite length_app in Hl.
  destruct L as [|i L'].
  - left. split; [cbn in Hl; lia|]. split; [reflexivity|].
    apply try_send_full. apply (inv_full no_index q R HI).
  - right. split; [cbn in Hl; lia|].
    destruct (try_send_inv no_index fuel q i L' R msg nbytes mprio HI Hfit)
      as [q' [l1 [l2 [Hs [HR [HI' [Hcont [E1 [E2 E3]]]]]]]]].
    { pose proof (inv_ring_length no_index q _ _ HI). lia. }
    exists q', i, L', l1, l2.
    repeat (split; [first [reflexivity | assumption]|]).
    pose proof (inv_count _ _ _ _ HI') as Hc'.
    rewrite Hc', Hc, HR, !length_app. cbn [length]. lia.
Qed.

(** A queue that holds a message hands out the one at its head; an
    empty queue hands out nothing. *)
Lemma receive_cases (no_index : Z) (q : Message_queue) (L R : list Z)
      (nbytes : Z) (mprio : bool) :
  Inv no_index q L R ->
  (count_ q = 0 /\ R = [] /\
   _try_receive no_index q nbytes mprio = (false, mkReceived q None None))
  \/
  (0 < count_ q /\
   exists q' r R',
     R = r :: R' /\
     _try_receive no_index q nbytes mprio
     = (true,
        mkReceived q' (Some (memcpy_from (mem_ q) (slot_addr q r) nbytes))
                   (if mprio then Some (prio_array_ q r) else None)) /\
     Inv no_index q' (r :: L) R' /\
     contents q' R' = contents q R' /\
     msg_size_bytes_ q' = msg_size_bytes_ q /\
     msgs_ q' = msgs_ q /\
     count_ q' = count_ q - 1).
Proof.
  intros HI. pose proof (inv_count _ _ _ _ HI) as Hc.
  destruct R as [|r R'].
  - left. split; [exact Hc|]. split; [reflexivity|].
    apply try_receive_empty. apply (inv_empty no_index q L HI).
  - right. split; [cbn [length] in Hc; lia|].
    destruct (try_receive_inv no_index q L r R' nbytes mprio HI)
      as [q' [Hr [HI' [Hcont [E1 [E2 E3]]]]]].
    exists q', r, R'.
    repeat (split; [first [reflexivity | assumption]|]).
    pose proof (inv_count _ _ _ _ HI') as Hc'. rewrite Hc', Hc.
    cbn [length]. lia.
Qed.

(** Priorities that do not increase from a block to the next do not
    increase along the whole list. *)
Lemma descending_sorted (q : Message_queue) (R : list Z) :
  descending (prio_array_ q) R -> StronglySorted before (contents q R).
Proof.
  induction R as [|a R IH]; intros H; cbn [contents map].
  - constructor.
  - constructor.
    + apply IH. exact (adjacent_tail _ a R H).
    + apply descending_head in H. rewrite Forall_forall in H.
      apply Forall_forall. intros x Hx. unfold contents in Hx.
      apply in_map_iff in Hx. destruct Hx as [j [<- Hj]].
      unfold before. cbn [fst]. apply H. exact Hj.
Qed.

Lemma contents_sizes (q : Message_queue) (R : list Z) :
  0 <= msg_size_bytes_ q ->
  Forall (fun x => Z.of_nat (length (snd x)) = msg_size_bytes_ q)
         (contents q R).
Proof.
  intros Hm. apply Forall_forall. intros x Hx. unfold contents in Hx.
  apply in_map_iff in Hx. destruct Hx as [j [<- Hj]]. cbn [snd].
  rewrite memcpy_from_length. lia.
Qed.

Lemma delivered_injective (xs ys : list message) :
  map delivered xs = map delivered ys -> xs = ys.
Proof.
  revert ys. induction xs as [|[p b] xs IH]; intros [|[p' b'] ys] H;
    try discriminate H; [reflexivity|].
  cbn in H. inversion H. f_equal. apply IH. assumption.
Qed.

(** Following [next_array_] from the head of a ring goes through its
    blocks in order. *)
Lemma ring_walk_linked (pv nx : array) (l : list Z) (c : Z) :
  linked pv nx (l ++ [c]) ->
  ring_walk (length l) nx (hd c l) = l.
Proof.
  unfold linked. induction l as [|a l IH]; intros H; [reflexivity|].
  cbn [length ring_walk hd]. f_equal.
  destruct l as [|b l'].
  - reflexivity.
  - cbn [app adjacent] in H. destruct H as [[Hn _] H].
    rewrite Hn. apply (IH H).
Qed.

Lemma adjacent_next (P : Z -> Z -> Prop) (l : list Z) (a : Z) :
  adjacent P l -> In a (removelast l) -> exists b, In b (tl l) /\ P a b.
Proof.
  induction l as [|x l IH]; intros H Ha; [destruct Ha|].
  destruct l as [|y l']; [destruct Ha|].
  cbn [adjacent] in H. destruct H as [Hxy H].
  change (removelast (x :: y :: l')) with (x :: removelast (y :: l')) in Ha.
  destruct Ha as [<- | Ha].
  - exists y. split; [left; reflexivity | exact Hxy].
  - destruct (IH H Ha) as [b [Hb Pb]]. exists b.
    split; [right; exact Hb | exact Pb].
Qed.

Lemma adjacent_prev (P : Z -> Z -> Prop) (l : list Z) (b : Z) :
  adjacent P l -> In b (tl l) -> exists a, In a (removelast l) /\ P a b.
Proof.
  induction l as [|x l IH]; intros H Hb; [destruct Hb|].
  destruct l as [|y l']; [destruct Hb|].
  cbn [adjacent] in H. destruct H as [Hxy H].
  change (removelast (x :: y :: l')) with (x :: removelast (y :: l')).
  cbn [tl] in Hb. destruct Hb as [<- | Hb].
  - exists x. split; [left; reflexivity | exact Hxy].
  - destruct (IH H (Hb : In b (tl (y :: l')))) as [a [Ha Pa]]. exists a.
    split; [right; exact Ha | exact Pa].
Qed.

(** In a ring [prev_array_] and [next_array_] undo each other. *)
Lemma ring_inverse (no_index : Z) (pv nx : array) (h : Z) (R : list Z)
      (i : Z) :
  ring no_index pv nx h R -> In i R ->
  pv (nx i) = i /\ nx (pv i) = i.
Proof.
  destruct R as [|r R']; intros H Hi; [destruct Hi|].
  destruct H as [_ H]. unfold linked in H. split.
  - destruct (adjacent_next _ _ i H) as [b [_ [Hn Hp]]].
    + rewrite removelast_snoc. exact Hi.
    + rewrite Hn. exact Hp.
  - destruct (adjacent_prev _ _ i H) as [a [_ [Hn Hp]]].
    + cbn [app tl]. apply in_or_app.
      destruct Hi as [<- | Hi]; [right; left; reflexivity | left; exact Hi].
    + rewrite Hp. exact Hn.
Qed.

(** The blocks of the two lists of the invariant are all the blocks. *)
Lemma inv_all_slots (no_index : Z) (q : Message_queue) (L R : list Z) :
  Inv no_index q L R -> Permutation (L ++ R) (all_slots q).
Proof.
  intros HI. apply NoDup_Permutation_bis.
  - exact (inv_nodup _ _ _ _ HI).
  - unfold all_slots. rewrite length_map, length_seq.
    pose proof (inv_length _ _ _ _ HI). lia.
  - intros i Hi. pose proof (inv_slot no_index q L R i HI Hi) as Hr.
    unfold all_slots. apply in_map_iff. exists (Z.to_nat i).
    split; [lia|]. apply in_seq. lia.
Qed.

Section InUse.

(** A queue [q] in use: built by the constructor over caller's storage
    that is well-formed, and then used through any operations whose sends
    stay within their blocks. *)
Variables no_index max_size flags_allocated sizeof_index sizeof_priority : Z.
Variable this : Message_queue.
Variables address size new_addr msgs msg_size_bytes : Z.
Variable q0 : Message_queue.
Variable fuel : nat.
Variable os : list operation.
Variable q : Message_queue.

Hypothesis built :
  Message_queue_ctor no_index flags_allocated sizeof_index sizeof_priority
                     false this address size new_addr msgs msg_size_bytes
  = Some q0.
Hypothesis caller_storage : address <> nullptr.
Hypothesis sound : geometry no_index q0.
Hypothesis within : Forall (fits msg_size_bytes) os.
Hypothesis enough : (Z.to_nat msgs <= fuel)%nat.
Hypothesis used : run_operations no_index max_size fuel q0 os = Some q.

Ltac in_use L R HI E1 E2 :=
  destruct (used_inv no_index max_size flags_allocated sizeof_index
                     sizeof_priority this address size new_addr msgs
                     msg_size_bytes q0 fuel os q built caller_storage sound
                     within enough used) as [L [R [HI [E1 [E2 _]]]]].

(** In any state the queue can reach, [try_send] of a message of the
    message size returns: with [ok] and one message more while fewer than
    [msgs] messages are enqueued, with [EAGAIN] and the queue as it was
    once [msgs] are. *)
Theorem try_send_until_full (msg : list Z) (mprio : Z) :
  exists r q',
    try_send no_index fuel q (Some msg) msg_size_bytes mprio = Some (r, q')
    /\
    0 <= count_ q <= msgs /\
    (count_ q < msgs -> r = ok /\ count_ q' = count_ q + 1) /\
    (count_ q = msgs -> r = EAGAIN /\ q' = q).
Proof.
  in_use L R HI E1 E2.
  pose proof (geo_size _ _ (inv_geometry _ _ _ _ HI)) as Hsz.
  unfold sizeof_ptr in Hsz.
  destruct (inv_counts no_index q L R HI) as [_ [_ Hrange]].
  unfold try_send, os_assert_err. rewrite <- E1.
  destruct (Z.geb_spec (msg_size_bytes_ q) (msg_size_bytes_ q)); [|lia].
  destruct (send_cases no_index fuel q L R msg (msg_size_bytes_ q) mprio HI)
    as [[Hc [HL Hs]] | [Hc [q' [i [L' [l1 [l2 HH]]]]]]]; try lia.
  - rewrite Hs. exists EAGAIN, q. repeat split; try lia.
  - destruct HH as [_ [_ [Hs [_ [_ [_ [_ Hc']]]]]]]. rewrite Hs.
    exists ok, q'. repeat split; try lia.
Qed.

(** In any state the queue can reach, with a message size within
    [max_size], [try_receive] into a buffer of the message size returns
    [ok], a message of that size and one message less while the queue
    holds a message, and [EAGAIN] with the queue as it was when it holds
    none. *)
Theorem try_receive_until_empty (mprio : bool) :
  msg_size_bytes <= max_size ->
  let r := try_receive no_index max_size q true msg_size_bytes mprio in
  (0 < count_ q ->
   fst r = ok /\ count_ (rcv_queue (snd r)) = count_ q - 1 /\
   exists bytes,
     rcv_msg (snd r) = Some bytes /\
     Z.of_nat (length bytes) = msg_size_bytes) /\
  (count_ q = 0 -> r = (EAGAIN, mkReceived q None None)).
Proof.
  intros Hmax. in_use L R HI E1 E2.
  pose proof (geo_size _ _ (inv_geometry _ _ _ _ HI)) as Hsz.
  unfold sizeof_ptr in Hsz.
  cbv zeta. unfold try_receive, os_assert_err. rewrite <- E1 in *.
  destruct (Z.geb_spec (msg_size_bytes_ q) (msg_size_bytes_ q)); [|lia].
  destruct (Z.leb_spec (msg_size_bytes_ q) max_size); [|lia].
  destruct (receive_cases no_index q L R (msg_size_bytes_ q) mprio HI)
    as [[Hc [HR Hr]] | [Hc [q' [r [R' HH]]]]].
  - rewrite Hr. split; [lia | reflexivity].
  - destruct HH as [_ [Hr [_ [_ [_ [_ Hc']]]]]]. rewrite Hr.
    cbn [fst snd rcv_queue rcv_msg]. split; [|lia].
    intros _. split; [reflexivity|]. split; [exact Hc'|].
    eexists. split; [reflexivity|]. rewrite memcpy_from_length. lia.
Qed.

(** In any state the queue can reach, receiving as many times as the
    count says empties the queue: every receive succeeds and returns a
    message of the message size, the priorities returned never increase,
    and the next attempt finds the queue empty. *)
Theorem receive_all_in_priority_order :
  exists xs q',
    receive_all no_index (Z.to_nat (count_ q)) q = (map delivered xs, q')
    /\
    Z.of_nat (length xs) = count_ q /\
    Forall (fun x => Z.of_nat (length (snd x)) = msg_size_bytes) xs /\
    StronglySorted before xs /\
    count_ q' = 0 /\
    _try_receive no_index q' msg_size_bytes true
    = (false, mkReceived q' None None).
Proof.
  in_use L R HI E1 E2.
  pose proof (geo_size _ _ (inv_geometry _ _ _ _ HI)) as Hsz.
  unfold sizeof_ptr in Hsz.
  destruct (receive_all_inv no_index R q L HI) as [q' [L' [Hrecv HI']]].
  pose proof (inv_count _ _ _ _ HI) as Hc.
  exists (contents q R), q'.
  rewrite Hc, Nat2Z.id. split; [exact Hrecv|].
  split; [unfold contents; now rewrite length_map|].
  split; [rewrite <- E1; apply contents_sizes; lia|].
  split; [apply descending_sorted; exact (inv_sorted _ _ _ _ HI)|].
  split; [exact (inv_count _ _ _ _ HI')|].
  apply try_receive_empty. exact (inv_empty no_index q' L' HI').
Qed.

(** In any state the queue can reach with a free block, a send of at
    most the message size puts the message, padded with zeroes to the
    message size, behind the enqueued messages of its priority or above
    and before those below: receiving everything afterwards returns what
    it would have returned before, with the new message inserted at that
    place. *)
Theorem send_inserts_by_priority (msg : list Z) (nbytes mprio : Z) :
  count_ q < msgs ->
  0 <= nbytes <= msg_size_bytes ->
  exists xs q1 q' q2,
    receive_all no_index (Z.to_nat (count_ q)) q = (map delivered xs, q1)
    /\
    _try_send no_index fuel q msg nbytes mprio = Some (true, q') /\
    receive_all no_index (S (Z.to_nat (count_ q))) q'
    = (map delivered
           (enqueue (mprio, payload msg nbytes msg_size_bytes) xs), q2).
Proof.
  intros Hroom Hfit. in_use L R HI E1 E2.
  destruct (receive_all_inv no_index R q L HI) as [q1 [L1 [Hrecv _]]].
  pose proof (inv_count _ _ _ _ HI) as Hc.
  destruct (send_cases no_index fuel q L R msg nbytes mprio HI)
    as [[Hc' _] | [_ [q' [i [L' [l1 [l2 HH]]]]]]]; try lia.
  destruct HH as [_ [HR [Hs [HI' [Hcont [_ [_ Hc']]]]]]].
  destruct (receive_all_inv no_index _ q' L' HI') as [q2 [L2 [Hrecv' _]]].
  exists (contents q R), q1, q', q2.
  rewrite Hc, Nat2Z.id. split; [exact Hrecv|]. split; [exact Hs|].
  rewrite Hcont, E1 in Hrecv'. rewrite <- Hrecv'. f_equal.
  rewrite HR, !length_app. cbn [length]. lia.
Qed.

(** In any state the queue can reach, every block is either free or
    enqueued and none is both: the blocks on the list of free blocks read
    from memory, together with those met when following [next_array_]
    from the head for [count_] steps, are the blocks of the content
    array, each once.  Along the enqueued ones [prev_array_] and
    [next_array_] undo each other. *)
Theorem blocks_free_or_enqueued :
  let enqueued :=
    ring_walk (Z.to_nat (count_ q)) (next_array_ q) (head_ q) in
  Permutation
    (free_list (S (Z.to_nat msgs)) (mem_ q) (first_free_ q)
     ++ map (slot_addr q) enqueued)
    (map (slot_addr q) (all_slots q)) /\
  forall i, In i enqueued ->
            prev_array_ q (next_array_ q i) = i /\
            next_array_ q (prev_array_ q i) = i.
Proof.
  in_use L R HI E1 E2. cbv zeta.
  destruct (inv_counts no_index q L R HI) as [Hfree _].
  pose proof (inv_count _ _ _ _ HI) as Hc.
  pose proof (inv_ring _ _ _ _ HI) as Hring.
  assert (Hwalk : ring_walk (Z.to_nat (count_ q)) (next_array_ q) (head_ q)
                  = R).
  { rewrite Hc, Nat2Z.id. destruct R as [|r R']; [reflexivity|].
    destruct Hring as [Hh Hl]. rewrite Hh.
    exact (ring_walk_linked _ _ (r :: R') r Hl). }
  rewrite Hwalk. rewrite E2 in Hfree. rewrite Hfree, <- map_app. split.
  - apply Permutation_map. exact (inv_all_slots no_index q L R HI).
  - intros i Hi. exact (ring_inverse no_index _ _ _ R i Hring Hi).
Qed.

(** A thread that calls [send] on a queue holding [msgs] messages is
    suspended, enrolled behind the senders already waiting.  Woken after a
    receive took the message at the head, it returns [ok] and is no longer
    on the list of waiting senders; the queue is full again and holds the
    messages it held behind the head, with the message sent, cut or
    padded with zeroes to the message size, inserted by its priority. *)
Theorem send_waits_for_room (env : list wake) (crt : Thread)
        (crt_addr : Z) (msg : list Z) (mprio now : Z) :
  count_ q = msgs ->
  send no_index false fuel [] crt crt_addr q (Some msg) msg_size_bytes mprio
  = Some (Suspended (set_send_list q (send_list_ q ++ [crt_addr]))) /\
  exists q' xs q1 q2,
    send no_index false fuel
         (wake_after_receive no_index msg_size_bytes true now :: env)
         crt crt_addr q (Some msg) msg_size_bytes mprio
    = Some (Returned ok q') /\
    count_ q' = msgs /\ ~ In crt_addr (send_list_ q') /\
    receive_all no_index (Z.to_nat msgs) q = (map delivered xs, q1) /\
    receive_all no_index (Z.to_nat msgs) q'
    = (map delivered
           (enqueue (mprio, payload msg msg_size_bytes msg_size_bytes)
                    (tl xs)), q2).
Proof.
  intros Hfull. in_use L R HI E1 E2.
  pose proof (inv_geometry _ _ _ _ HI) as Hg.
  pose proof (geo_size _ _ Hg) as Hsz. unfold sizeof_ptr in Hsz.
  pose proof (geo_msgs _ _ Hg) as Hn.
  pose proof (inv_count _ _ _ _ HI) as Hcount.
  destruct (receive_all_inv no_index R q L HI) as [qa [La [Hall _]]].
  unfold send, os_assert_err. cbn [negb]. rewrite <- E1.
  destruct (Z.geb_spec (msg_size_bytes_ q) (msg_size_bytes_ q)); [|lia].
  destruct (send_cases no_index fuel q L R msg (msg_size_bytes_ q) mprio HI)
    as [[_ [HL Hs]] | [Hc _]]; try lia.
  cbn [send_loop]. rewrite Hs. split; [reflexivity|].
  unfold interrupted. cbn [wake_after_receive wake_queue wake_thread].
  set (qe := enrol_sender q crt_addr).
  assert (HIe : Inv no_index qe L R) by (apply inv_send_list; exact HI).
  destruct (receive_cases no_index qe L R (msg_size_bytes_ q) true HIe)
    as [[Hc _] | [_ [q1 [r [R' HH]]]]].
  { change (count_ qe) with (count_ q) in Hc. lia. }
  destruct HH as [HR [Hr [HI1 [Hkept [F1 [F2 Hc1]]]]]]. rewrite Hr.
  cbn [snd rcv_queue].
  change (msg_size_bytes_ qe) with (msg_size_bytes_ q) in F1.
  change (msgs_ qe) with (msgs_ q) in F2.
  change (count_ qe) with (count_ q) in Hc1.
  change (contents qe R') with (contents q R') in Hkept.
  set (ql := leave_senders q1 crt_addr).
  assert (HIl : Inv no_index ql (r :: L) R')
    by (apply inv_send_list; exact HI1).
  destruct (send_cases no_index fuel ql (r :: L) R' msg (msg_size_bytes_ q)
                       mprio HIl)
    as [[_ [HL' _]] | [_ [q' [i [L' [l1 [l2 HH]]]]]]];
    try discriminate HL'.
  { change (msg_size_bytes_ ql) with (msg_size_bytes_ q1). lia. }
  { change (msgs_ ql) with (msgs_ q1). lia. }
  destruct HH as [_ [HR' [Hs' [HI' [Hcont [_ [_ Hc']]]]]]].
  change (contents ql R') with (contents q1 R') in Hcont.
  change (msg_size_bytes_ ql) with (msg_size_bytes_ q1) in Hcont.
  rewrite Hkept, F1 in Hcont.
  destruct (receive_all_inv no_index _ q' L' HI') as [qb [Lb [Hall' _]]].
  assert (Hlen : length R = Z.to_nat (msgs_ q)) by lia.
  assert (Hlen' : length (l1 ++ i :: l2) = Z.to_nat (msgs_ q)).
  { rewrite <- Hlen, HR, HR'. cbn [length]. rewrite !length_app.
    cbn [length]. lia. }
  rewrite Hlen in Hall. rewrite Hlen', Hcont in Hall'.
  exists q', (contents q R), qa, qb. split.
  - destruct env; cbn [send_loop]; rewrite Hs'; reflexivity.
  - split.
    + change (count_ ql) with (count_ q1) in Hc'. lia.
    + split.
      * destruct (try_send_lists _ _ _ _ _ _ _ _ Hs') as [Hl _].
        rewrite Hl. unfold ql, leave_senders, list_remove.
        cbn [send_list_ set_send_list]. intros Hin.
        apply filter_In in Hin. destruct Hin as [_ Hin].
        rewrite Z.eqb_refl in Hin. discriminate Hin.
      * rewrite <- E2. split; [exact Hall|].
        rewrite HR. cbn [contents map tl]. exact Hall'.
Qed.

(** On a queue whose message size is within [max_size], a thread that
    calls [receive] with a buffer of the message size while the queue is
    empty is suspended, enrolled behind the receivers already waiting.
    Woken after a send of at most the message size, it returns [ok] with
    the message sent, padded with zeroes to the message size, and its
    priority; the queue is empty again and the thread is no longer on the
    list of waiting receivers. *)
Theorem receive_waits_for_message (env : list wake) (crt : Thread)
        (crt_addr : Z) (msg : list Z) (nbytes mprio now : Z)
        (want_prio : bool) :
  count_ q = 0 ->
  0 <= nbytes <= msg_size_bytes ->
  msg_size_bytes <= max_size ->
  receive no_index max_size false [] crt crt_addr q true msg_size_bytes
          want_prio
  = Suspended
      (mkReceived (set_receive_list q (receive_list_ q ++ [crt_addr]))
                  None None) /\
  exists rc,
    receive no_index max_size false
            (wake_after_send no_index fuel msg nbytes mprio now :: env)
            crt crt_addr q true msg_size_bytes want_prio
    = Returned ok rc /\
    rcv_msg rc = Some (payload msg nbytes msg_size_bytes) /\
    rcv_prio rc = (if want_prio then Some mprio else None) /\
    count_ (rcv_queue rc) = 0 /\
    ~ In crt_addr (receive_list_ (rcv_queue rc)).
Proof.
  intros Hempty Hfit Hmax. in_use L R HI E1 E2.
  pose proof (inv_geometry _ _ _ _ HI) as Hg.
  pose proof (geo_msgs _ _ Hg) as Hn.
  unfold receive, os_assert_err. cbn [negb]. rewrite <- E1 in *.
  destruct (Z.geb_spec (msg_size_bytes_ q) (msg_size_bytes_ q)); [|lia].
  destruct (Z.leb_spec (msg_size_bytes_ q) max_size); [|lia].
  destruct (receive_cases no_index q L R (msg_size_bytes_ q) want_prio HI)
    as [[_ [HR Hr]] | [Hc _]]; try lia.
  cbn [receive_loop]. rewrite Hr. cbn [rcv_queue].
  split; [reflexivity|].
  unfold interrupted. cbn [wake_after_send wake_queue wake_thread].
  set (qe := enrol_receiver q crt_addr).
  assert (HIe : Inv no_index qe L R)
    by (apply inv_receive_list; exact HI).
  destruct (send_cases no_index fuel qe L R msg nbytes mprio HIe)
    as [[Hc _] | [_ [q1 [i [L' [l1 [l2 HH]]]]]]].
  { exact Hfit. }
  { change (msgs_ qe) with (msgs_ q). lia. }
  { change (count_ qe) with (count_ q) in Hc.
    change (msgs_ qe) with (msgs_ q) in Hc. lia. }
  destruct HH as [_ [HR' [Hs [HI1 [Hcont [F1 [F2 Hc1]]]]]]]. rewrite Hs.
  subst R. destruct l1; [|discriminate HR']. destruct l2; [|discriminate HR'].
  cbn [app contents map enqueue] in HI1, Hcont.
  injection Hcont as Hprio Hbytes.
  change (msg_size_bytes_ qe) with (msg_size_bytes_ q) in *.
  set (ql := leave_receivers q1 crt_addr).
  assert (HIl : Inv no_index ql L' [i])
    by (apply inv_receive_list; exact HI1).
  destruct (receive_cases no_index ql L' [i] (msg_size_bytes_ q) want_prio
                          HIl)
    as [[_ [HR _]] | [_ [q' [r [R' HH]]]]]; [discriminate HR|].
  destruct HH as [HR [Hr' [HI' [_ [_ [_ Hc']]]]]].
  injection HR as <- <-.
  eexists. split.
  - destruct env; cbn [receive_loop]; rewrite Hr'; reflexivity.
  - cbn [rcv_msg rcv_prio rcv_queue].
    change (mem_ ql) with (mem_ q1).
    change (slot_addr ql i) with (slot_addr q1 i).
    change (prio_array_ ql i) with (prio_array_ q1 i).
    rewrite F1 in Hbytes. rewrite Hbytes, Hprio.
    split; [reflexivity|]. split; [reflexivity|]. split.
    + exact (inv_count _ _ _ _ HI').
    + destruct (try_receive_lists no_index ql (msg_size_bytes_ q) want_prio)
        as [Hl _].
      rewrite Hr' in Hl. cbn [snd rcv_queue] in Hl. rewrite Hl.
      unfold ql, leave_receivers, list_remove.
      cbn [receive_list_ set_receive_list]. intros Hin.
      apply filter_In in Hin. destruct Hin as [_ Hin].
      rewrite Z.eqb_refl in Hin. discriminate Hin.
Qed.

(** [timed_send] does not time out while there is room: in any state the
    queue can reach with fewer than [msgs] messages it returns [ok] with
    one message more, whatever the timeout and the clock.  On a queue
    holding [msgs] messages, with the timeout (1 tick for 0) already
    over at the first reading of the clock, it returns [ETIMEDOUT] and
    the queue is as it was, the thread not enrolled. *)
Theorem timed_send_timeout (env : list wake) (crt : Thread) (crt_addr : Z)
        (msg : list Z) (mprio timeout start now : Z) :
  let call :=
    timed_send no_index false fuel env crt crt_addr q (Some msg)
               msg_size_bytes mprio timeout start now in
  (count_ q < msgs ->
   exists q', call = Some (Returned ok q') /\ count_ q' = count_ q + 1) /\
  (count_ q = msgs ->
   (if timeout =? 0 then 1 else timeout) <= slept now start ->
   call = Some (Returned ETIMEDOUT q)).
Proof.
  in_use L R HI E1 E2. cbv zeta.
  pose proof (geo_size _ _ (inv_geometry _ _ _ _ HI)) as Hsz.
  unfold sizeof_ptr in Hsz.
  unfold timed_send, os_assert_err. cbn [negb]. rewrite <- E1.
  destruct (Z.geb_spec (msg_size_bytes_ q) (msg_size_bytes_ q)); [|lia].
  set (tk := if timeout =? 0 then 1 else timeout).
  destruct (send_cases no_index fuel q L R msg (msg_size_bytes_ q) mprio HI)
    as [[Hc [_ Hs]] | [Hc [q' [i [L' [l1 [l2 HH]]]]]]]; try lia.
  - split; [lia|]. intros _ Hover.
    destruct env; cbn [timed_send_loop]; rewrite Hs;
      destruct (Z.geb_spec (slept now start) tk); try lia; reflexivity.
  - destruct HH as [_ [_ [Hs [_ [_ [_ [_ Hc']]]]]]].
    split; [|lia]. intros _. exists q'. split; [|exact Hc'].
    destruct env; cbn [timed_send_loop]; rewrite Hs; reflexivity.
Qed.

(** On a queue whose message size is within [max_size], [timed_receive]
    with a buffer of the message size does not time out while a message
    is enqueued: in any state the queue can reach with a message it
    returns [ok] with one message less, whatever the timeout and the
    clock.  On an empty queue, with the timeout (1 tick for 0) already
    over at the first reading of the clock, it returns [ETIMEDOUT], writes
    nothing and leaves the queue as it was, the thread not enrolled. *)
Theorem timed_receive_timeout (env : list wake) (crt : Thread)
        (crt_addr : Z) (want_prio : bool) (timeout start now : Z) :
  msg_size_bytes <= max_size ->
  let call :=
    timed_receive no_index max_size false env crt crt_addr q true
                  msg_size_bytes want_prio timeout start now in
  (0 < count_ q ->
   exists rc,
     call = Returned ok rc /\ count_ (rcv_queue rc) = count_ q - 1) /\
  (count_ q = 0 ->
   (if timeout =? 0 then 1 else timeout) <= slept now start ->
   call = Returned ETIMEDOUT (mkReceived q None None)).
Proof.
  intros Hmax. in_use L R HI E1 E2. cbv zeta.
  unfold timed_receive, os_assert_err. cbn [negb]. rewrite <- E1 in Hmax.
  rewrite <- E1.
  destruct (Z.geb_spec (msg_size_bytes_ q) (msg_size_bytes_ q)); [|lia].
  destruct (Z.leb_spec (msg_size_bytes_ q) max_size); [|lia].
  set (tk := if timeout =? 0 then 1 else timeout).
  destruct (receive_cases no_index q L R (msg_size_bytes_ q) want_prio HI)
    as [[Hc [_ Hr]] | [Hc [q' [r [R' HH]]]]].
  - split; [lia|]. intros _ Hover.
    destruct env; cbn [timed_receive_loop]; rewrite Hr;
      destruct (Z.geb_spec (slept now start) tk); try lia; reflexivity.
  - destruct HH as [_ [Hr [_ [_ [_ [_ Hc']]]]]].
    split; [|lia]. intros _. eexists. split.
    + destruct env; cbn [timed_receive_loop]; rewrite Hr; reflexivity.
    + exact Hc'.
Qed.

End InUse.

(** ** Calls that fail *)

Lemma try_send_refused (no_index : Z) (fuel : nat) (q : Message_queue)
      (msg : list Z) (nbytes mprio : Z) (q' : Message_queue) :
  _try_send no_index fuel q msg nbytes mprio = Some (false, q') ->
  q' = q /\ first_free_ q = nullptr.
Proof.
  unfold _try_send.
  destruct (Z.eqb_spec (first_free_ q) nullptr) as [E|E].
  { intros H. injection H as <-. split; [reflexivity | exact E]. }
  fields.
  destruct (head_ (set_prio _ _) =? no_index).
  { destruct (nbytes <? _); intros H; discriminate H. }
  destruct (mprio >? _).
  { destruct (nbytes <? _); intros H; discriminate H. }
  destruct (walk_back _ _ _ _ _); [|discriminate].
  destruct (nbytes <? _); intros H; discriminate H.
Qed.

Lemma try_receive_refused (no_index : Z) (q : Message_queue) (nbytes : Z)
      (mprio : bool) (rc : received) :
  _try_receive no_index q nbytes mprio = (false, rc) ->
  rc = mkReceived q None None /\ head_ q = no_index.
Proof.
  destruct (Z.eq_dec (head_ q) no_index) as [E|E].
  - rewrite (try_receive_empty no_index q nbytes mprio E).
    intros H. injection H as <-. split; [reflexivity | exact E].
  - rewrite (try_receive_head no_index q nbytes mprio E). discriminate.
Qed.

Lemma timed_send_loop_timeout (no_index : Z) (fuel : nat) (env : list wake)
      (crt : Thread) (crt_addr : Z) (q : Message_queue) (msg : list Z)
      (nbytes mprio timeout start now : Z) (q' : Message_queue) :
  timed_send_loop no_index fuel env crt crt_addr q msg nbytes mprio timeout
                  start now = Some (Returned ETIMEDOUT q') ->
  first_free_ q' = nullptr.
Proof.
  revert crt q now. induction env as [|w env IH]; intros crt q now;
    cbn [timed_send_loop];
    destruct (_try_send no_index fuel q msg nbytes mprio) as [[[] q1]|]
      eqn:Hs; try discriminate;
    apply try_send_refused in Hs; destruct Hs as [-> Hfree];
    destruct (slept now start >=? timeout); intros H;
    try (inversion H; subst; exact Hfree); try discriminate H.
  unfold interrupted in H. exact (IH _ _ _ H).
Qed.

Lemma timed_receive_loop_timeout (no_index : Z) (env : list wake)
      (crt : Thread) (crt_addr : Z) (q : Message_queue) (nbytes : Z)
      (mprio : bool) (timeout start now : Z) (rc : received) :
  timed_receive_loop no_index env crt crt_addr q nbytes mprio timeout start
                     now = Returned ETIMEDOUT rc ->
  head_ (rcv_queue rc) = no_index /\ rcv_msg rc = None /\ rcv_prio rc = None.
Proof.
  revert crt q now. induction env as [|w env IH]; intros crt q now;
    cbn [timed_receive_loop];
    destruct (_try_receive no_index q nbytes mprio) as [[] r1] eqn:Hr;
    try discriminate;
    apply try_receive_refused in Hr; destruct Hr as [-> Hhead];
    destruct (slept now start >=? timeout); intros H;
    try (inversion H; subst; repeat split; exact Hhead);
    try discriminate H.
  unfold interrupted in H. exact (IH _ _ _ H).
Qed.

Section QueueCalls.

Variables no_index max_size flags_allocated sizeof_index sizeof_priority : Z.

(** A call that does not return [ok] has done nothing to the queue and
    has written nothing: [try_send], [try_receive], [send], [receive]
    and [reset] whatever they return, [timed_send] and [timed_receive]
    unless they return [ETIMEDOUT] (the queue is then as the last wake-up
    left it). *)
Theorem failed_calls_change_nothing (h : bool) (fuel : nat)
        (env : list wake) (crt : Thread) (crt_addr : Z) (q : Message_queue)
        (msg : option (list Z)) (buf : bool) (nbytes mprio : Z)
        (want_prio : bool) (timeout start now : Z) :
  (forall r q',
      try_send no_index fuel q msg nbytes mprio = Some (r, q') ->
      r <> ok -> q' = q) /\
  (forall r rc,
      try_receive no_index max_size q buf nbytes want_prio = (r, rc) ->
      r <> ok -> rc = mkReceived q None None) /\
  (forall r q',
      send no_index h fuel env crt crt_addr q msg nbytes mprio
      = Some (Returned r q') ->
      r <> ok -> q' = q) /\
  (forall r rc,
      receive no_index max_size h env crt crt_addr q buf nbytes want_prio
      = Returned r rc ->
      r <> ok -> rc = mkReceived q None None) /\
  (forall r q',
      timed_send no_index h fuel env crt crt_addr q msg nbytes mprio timeout
                 start now = Some (Returned r q') ->
      r <> ok -> r <> ETIMEDOUT -> q' = q) /\
  (forall r rc,
      timed_receive no_index max_size h env crt crt_addr q buf nbytes
                    want_prio timeout start now = Returned r rc ->
      r <> ok -> r <> ETIMEDOUT -> rc = mkReceived q None None) /\
  (forall r q', reset no_index h q = (r, q') -> r <> ok -> q' = q).
Proof.
  repeat split; intros r x H Hr.
  - unfold try_send, os_assert_err in H. destruct msg as [m|].
    + destruct (nbytes >=? msg_size_bytes_ q).
      * destruct (_try_send no_index fuel q m nbytes mprio)
          as [[[] q1]|] eqn:Hs; inversion H; subst;
          [contradiction Hr; reflexivity|].
        apply try_send_refused in Hs. apply Hs.
      * inversion H. reflexivity.
    + inversion H. reflexivity.
  - unfold try_receive, os_assert_err in H.
    destruct buf; [|inversion H; reflexivity].
    destruct (nbytes >=? msg_size_bytes_ q); [|inversion H; reflexivity].
    destruct (nbytes <=? max_size); [|inversion H; reflexivity].
    destruct (_try_receive no_index q nbytes want_prio) as [[] r1] eqn:Hs;
      inversion H; subst; [contradiction Hr; reflexivity|].
    apply try_receive_refused in Hs. apply Hs.
  - unfold send, os_assert_err in H.
    destruct h; cbn [negb] in H; [inversion H; reflexivity|].
    destruct msg as [m|]; [|inversion H; reflexivity].
    destruct (nbytes >=? msg_size_bytes_ q); [|inversion H; reflexivity].
    apply send_loop_result in H. contradiction.
  - unfold receive, os_assert_err in H.
    destruct h; cbn [negb] in H; [inversion H; reflexivity|].
    destruct buf; [|inversion H; reflexivity].
    destruct (nbytes >=? msg_size_bytes_ q); [|inversion H; reflexivity].
    destruct (nbytes <=? max_size); [|inversion H; reflexivity].
    apply receive_loop_result in H. contradiction.
  - intros Ht. unfold timed_send, os_assert_err in H.
    destruct h; cbn [negb] in H; [inversion H; reflexivity|].
    destruct msg as [m|]; [|inversion H; reflexivity].
    destruct (nbytes >=? msg_size_bytes_ q); [|inversion H; reflexivity].
    apply timed_send_loop_result in H. destruct H; contradiction.
  - intros Ht. unfold timed_receive, os_assert_err in H.
    destruct h; cbn [negb] in H; [inversion H; reflexivity|].
    destruct buf; [|inversion H; reflexivity].
    destruct (nbytes >=? msg_size_bytes_ q); [|inversion H; reflexivity].
    destruct (nbytes <=? max_size); [|inversion H; reflexivity].
    apply timed_receive_loop_result in H. destruct H; contradiction.
  - unfold reset, os_assert_err in H.
    destruct h; cbn [negb] in H; inversion H; subst;
      [reflexivity | contradiction Hr; reflexivity].
Qed.

(** A timed call returns [ETIMEDOUT] only with nothing to do at that
    moment: [timed_send] on a queue without a free block, [timed_receive]
    on a queue without a message, and nothing is written to the
    receiver's buffer. *)
Theorem timeout_only_when_blocked (h : bool) (fuel : nat) (env : list wake)
        (crt : Thread) (crt_addr : Z) (q : Message_queue)
        (msg : option (list Z)) (buf : bool) (nbytes mprio : Z)
        (want_prio : bool) (timeout start now : Z) :
  (forall q',
      timed_send no_index h fuel env crt crt_addr q msg nbytes mprio timeout
                 start now = Some (Returned ETIMEDOUT q') ->
      first_free_ q' = nullptr) /\
  (forall rc,
      timed_receive no_index max_size h env crt crt_addr q buf nbytes
                    want_prio timeout start now = Returned ETIMEDOUT rc ->
      head_ (rcv_queue rc) = no_index /\
      rcv_msg rc = None /\ rcv_prio rc = None).
Proof.
  split.
  - intros q' H. unfold timed_send, os_assert_err in H.
    destruct h; cbn [negb] in H; [discriminate H|].
    destruct msg as [m|]; [|discriminate H].
    destruct (nbytes >=? msg_size_bytes_ q); [|discriminate H].
    exact (timed_send_loop_timeout _ _ _ _ _ _ _ _ _ _ _ _ _ H).
  - intros rc H. unfold timed_receive, os_assert_err in H.
    destruct h; cbn [negb] in H; [discriminate H|].
    destruct buf; [|discriminate H].
    destruct (nbytes >=? msg_size_bytes_ q); [|discriminate H].
    destruct (nbytes <=? max_size); [|discriminate H].
    exact (timed_receive_loop_timeout _ _ _ _ _ _ _ _ _ _ _ H).
Qed.

(** A queue whose message size is above [max_size] cannot be received
    from: no buffer size passes both checks of the size, and every
    variant of receive fails and leaves the queue as it is. *)
Theorem no_receive_above_max_size (h : bool) (env : list wake)
        (crt : Thread) (crt_addr : Z) (q : Message_queue) (buf : bool)
        (nbytes : Z) (want_prio : bool) (timeout start now : Z) :
  max_size < msg_size_bytes_ q ->
  try_receive no_index max_size q buf nbytes want_prio
  = (if buf then EMSGSIZE else EINVAL, mkReceived q None None) /\
  (exists r,
      receive no_index max_size h env crt crt_addr q buf nbytes want_prio
      = Returned r (mkReceived q None None) /\ r <> ok) /\
  (exists r,
      timed_receive no_index max_size h env crt crt_addr q buf nbytes
                    want_prio timeout start now
      = Returned r (mkReceived q None None) /\ r <> ok).
Proof.
  intros Hmax.
  unfold try_receive, receive, timed_receive, os_assert_err.
  destruct buf; cbn [negb].
  - destruct (Z.geb_spec nbytes (msg_size_bytes_ q));
      [destruct (Z.leb_spec nbytes max_size); [lia|]|];
      (split; [reflexivity|]);
      destruct h; cbn [negb];
      split; eexists; split; try reflexivity; discriminate.
  - split; [reflexivity|].
    destruct h; cbn [negb];
      split; eexists; split; try reflexivity; discriminate.
Qed.


(** The constructor fails exactly when it is called from an interrupt
    handler, or over caller's storage whose size is not positive or is
    below what [msgs] messages and their three arrays take.  Without
    caller's storage it takes what the allocation returns, which it does
    not check, and sets the flag [flags_allocated]; it leaves the queue
    empty, with nothing waiting. *)
Theorem ctor_outcome (h : bool) (this : Message_queue)
        (address size new_addr msgs msg_size_bytes : Z) :
  let storage_size :=
    msgs * (msg_size_bytes + 2 * sizeof_index + sizeof_priority) in
  let built :=
    Message_queue_ctor no_index flags_allocated sizeof_index sizeof_priority
                       h this address size new_addr msgs msg_size_bytes in
  (built = None <->
   h = true \/ (address <> nullptr /\ (size <= 0 \/ size < storage_size)))
  /\
  forall q,
    built = Some q ->
    msgs_ q = msgs /\ msg_size_bytes_ q = msg_size_bytes /\
    queue_addr_ q = (if address =? nullptr then new_addr else address) /\
    flags_ q = (if address =? nullptr
                then Z.lor (flags_ this) flags_allocated
                else flags_ this) /\
    count_ q = 0 /\ head_ q = no_index /\ first_free_ q = queue_addr_ q /\
    send_list_ q = [] /\ receive_list_ q = [].
Proof.
  cbv zeta. unfold Message_queue_ctor.
  destruct h.
  { split; [split; [left; reflexivity | reflexivity] | discriminate]. }
  set (storage := msgs * (msg_size_bytes + 2 * sizeof_index
                          + sizeof_priority)).
  fields.
  destruct (Z.eqb_spec address nullptr) as [Ea|Ea]; cbn [negb andb].
  - split.
    + split; [discriminate|]. intros [H | [H _]]; [discriminate | lia].
    + intros q H. injection H as <-.
      match goal with
      | |- context [_init no_index ?x] =>
          destruct (init_static no_index x) as [S1 [S2 [S3 [S4 _]]]];
          destruct (init_dynamic no_index x) as [D1 [D2 [D3 [D4 [D5 _]]]]]
      end.
      rewrite S1, S2, S3, S4, D1, D2, D3, D4, D5. repeat split.
  - destruct (Z.gtb_spec size 0) as [Hs|Hs]; cbn [negb andb];
      [destruct (Z.geb_spec size storage) as [Hg|Hg]; cbn [negb andb]|].
    + split.
      * split; [discriminate|]. intros [H | [_ H]]; [discriminate | lia].
      * intros q H. injection H as <-.
        match goal with
        | |- context [_init no_index ?x] =>
            destruct (init_static no_index x) as [S1 [S2 [S3 [S4 _]]]];
            destruct (init_dynamic no_index x)
              as [D1 [D2 [D3 [D4 [D5 _]]]]]
        end.
        rewrite S1, S2, S3, S4, D1, D2, D3, D4, D5. repeat split.
    + split; [|discriminate].
      split; [intros _; right; split; [exact Ea | lia] | reflexivity].
    + split; [|discriminate].
      split; [intros _; right; split; [exact Ea | lia] | reflexivity].
Qed.

End QueueCalls.

(** ** The further properties at sample inputs *)

(** The sample queue after operations that fit is a state the queue can
    reach. *)
Lemma demo_reached (os : list operation) :
  Forall (fits 4) os ->
  run_operations 255 255 3 demo_queue os = Some (demo_after os).
Proof.
  intros Hfit. unfold demo_after.
  destruct (run_operations 255 255 3 demo_queue os) as [q|] eqn:E;
    [reflexivity|].
  exfalso.
  assert (Hc : Message_queue_ctor 255 1 1 1 false blank_queue 536870912 64
                                  0 3 4 = Some demo_queue) by reflexivity.
  assert (Hg : geometry 255 demo_queue) by (constructor; by_computation).
  destruct (ctor_inv 255 _ _ _ _ _ _ _ _ _ _ _ Hc Hg) as [E2 [E1 [L0 HI0]]].
  destruct (run_operations_inv 255 255 3 os demo_queue L0 [] HI0)
    as [q' [L [R [Hrun _]]]].
  - rewrite E1. exact Hfit.
  - rewrite E2. by_computation.
  - rewrite Hrun in E. discriminate E.
Qed.

Lemma sig_raise_coalesces_witness :
  let t1 := snd (fst (sig_raise (thread0 1) 2 true)) in
  fst (fst (sig_raise t1 4 false)) = ok /\
  snd (fst (sig_raise t1 4 false))
  = snd (fst (sig_raise (thread0 1) (Z.lor 2 4) true)) /\
  snd (fst (sig_raise t1 4 false))
  = snd (fst (sig_raise (snd (fst (sig_raise (thread0 1) 4 true))) 2 false))
  /\
  snd (fst (sig_raise t1 2 false)) = t1.
Proof.
  apply (sig_raise_coalesces (thread0 1) 2 4 true false true).
  - discriminate.
  - discriminate.
Defined.

Lemma sig_raise_then_get_witness :
  fst (fst (sig_raise (thread0 1) 6 true)) = ok /\
  snd (sig_raise (thread0 1) 6 true) = Some (sig_mask_ (thread0 1)) /\
  fst (sig_get 4 2147483648 false (snd (fst (sig_raise (thread0 1) 6 true)))
               6 0) = 6.
Proof.
  apply (sig_raise_then_get 4 2147483648 (thread0 1) 6 0).
  discriminate.
Defined.

Lemma sig_get_splits_witness :
  let r := sig_get 4 2147483648 false (thread0 7) 5 4 in
  fst r = Z.land (sig_mask_ (thread0 7)) 5 /\
  (Z.land 4 4 = 0 -> snd r = thread0 7) /\
  (Z.land 4 4 <> 0 ->
   Z.lor (fst r) (sig_mask_ (snd r)) = sig_mask_ (thread0 7) /\
   Z.land (fst r) (sig_mask_ (snd r)) = 0 /\
   snd r = set_sig_mask (thread0 7) (sig_mask_ (snd r))).
Proof.
  apply (sig_get_splits 4 2147483648 (thread0 7) 5 4).
  - by_computation.
  - discriminate.
Defined.

Lemma sig_clear_then_get_witness :
  let r := sig_clear false (thread0 7) 1 true in
  fst (fst r) = ok /\
  snd r = Some (sig_mask_ (thread0 7)) /\
  fst (sig_get 4 2147483648 false (snd (fst r)) 1 0) = 0 /\
  fst (sig_get 4 2147483648 false (snd (fst r)) 6 0)
  = fst (sig_get 4 2147483648 false (thread0 7) 6 0).
Proof.
  apply (sig_clear_then_get 4 2147483648 (thread0 7) 1 6 0).
  - by_computation.
  - discriminate.
  - discriminate.
  - reflexivity.
Defined.

Lemma try_sig_wait_all_witness :
  let r := try_sig_wait 1 2 false (thread0 7) 5 true 1 in
  (fst (fst r) = ok <-> Z.land (sig_mask_ (thread0 7)) 5 = 5) /\
  (fst (fst r) <> ok -> r = (EAGAIN, thread0 7, None)) /\
  (fst (fst r) = ok ->
   snd r = Some (sig_mask_ (thread0 7)) /\
   Z.land (sig_mask_ (snd (fst r))) 5 = 0 /\
   Z.lor (sig_mask_ (snd (fst r))) 5 = sig_mask_ (thread0 7)).
Proof.
  apply (try_sig_wait_all 1 2 (thread0 7) 5 1).
  - by_computation.
  - discriminate.
  - discriminate.
Defined.

Lemma sig_wait_without_all_or_any_witness :
  try_sig_wait 1 2 false (thread0 4) 4 true 4 = (EAGAIN, thread0 4, None) /\
  exists t',
    sig_wait 1 2 false [wake_raise 4 1] (thread0 4) 4 true 4
    = Suspended (t', None).
Proof.
  apply (sig_wait_without_all_or_any 1 2 [wake_raise 4 1] (thread0 4) 4 true
                                     4).
  - discriminate.
  - reflexivity.
  - reflexivity.
Defined.

Lemma sig_wait_until_raised_witness :
  sig_wait 1 2 false [] (thread0 1) 3 true 1 = Suspended (thread0 1, None) /\
  sig_wait 1 2 false (wake_raise 2 5 :: []) (thread0 1) 3 true 1
  = Returned ok
      (set_sig_mask (wakeup (thread0 1))
                    (Z.land (Z.lor (sig_mask_ (thread0 1)) 2) (sig_not 3)),
       Some (Z.lor (sig_mask_ (thread0 1)) 2)).
Proof.
  apply (sig_wait_until_raised 1 2 [] (thread0 1) 3 2 1 5).
  - discriminate.
  - discriminate.
  - discriminate.
  - discriminate.
  - reflexivity.
Defined.

Lemma exit_then_join_witness :
  exists t1,
    exit false (thread0 0) 42 = Some t1 /\
    sched_state_ t1 = terminated /\
    join false t1 true = (ok, Some 42) /\
    exit false t1 7 = Some t1 /\
    sig_mask_ t1 = sig_mask_ (thread0 0) /\ prio_ t1 = prio_ (thread0 0).
Proof.
  apply (exit_then_join (thread0 0) 42 7).
  discriminate.
Defined.

Lemma sched_prio_set_then_get_witness :
  (exists t1,
      sched_prio_set 0 false (thread0 0) 9 = Some (ok, t1) /\
      sched_prio 255 false t1 = 9 /\
      t1 = set_thread_prio (thread0 0) 9) /\
  sched_prio_set 0 true (thread0 0) 9 = Some (EPERM, thread0 0) /\
  sched_prio 255 true (thread0 0) = 255.
Proof.
  apply (sched_prio_set_then_get 0 255 (thread0 0) 9).
  discriminate.
Defined.

Lemma try_send_until_full_witness :
  exists r q',
    try_send 255 3 (demo_after demo_fill) (Some [7; 7; 7; 7]) 4 1
    = Some (r, q') /\
    0 <= count_ (demo_after demo_fill) <= 3 /\
    (count_ (demo_after demo_fill) < 3 ->
     r = ok /\ count_ q' = count_ (demo_after demo_fill) + 1) /\
    (count_ (demo_after demo_fill) = 3 ->
     r = EAGAIN /\ q' = demo_after demo_fill).
Proof.
  apply (try_send_until_full 255 255 1 1 1 blank_queue 536870912 64 0 3 4
                             demo_queue 3 demo_fill (demo_after demo_fill)).
  - reflexivity.
  - by_computation.
  - constructor; by_computation.
  - repeat constructor; by_computation.
  - by_computation.
  - apply demo_reached. repeat constructor; by_computation.
Defined.

Lemma try_receive_until_empty_witness :
  let r := try_receive 255 255 (demo_after demo_fill) true 4 true in
  (0 < count_ (demo_after demo_fill) ->
   fst r = ok /\
   count_ (rcv_queue (snd r)) = count_ (demo_after demo_fill) - 1 /\
   exists bytes,
     rcv_msg (snd r) = Some bytes /\ Z.of_nat (length bytes) = 4) /\
  (count_ (demo_after demo_fill) = 0 ->
   r = (EAGAIN, mkReceived (demo_after demo_fill) None None)).
Proof.
  apply (try_receive_until_empty 255 255 1 1 1 blank_queue 536870912 64 0 3
                                 4 demo_queue 3 demo_fill
                                 (demo_after demo_fill)).
  - reflexivity.
  - by_computation.
  - constructor; by_computation.
  - repeat constructor; by_computation.
  - by_computation.
  - apply demo_reached. repeat constructor; by_computation.
  - by_computation.
Defined.

Lemma receive_all_in_priority_order_witness :
  exists xs q',
    receive_all 255 (Z.to_nat (count_ (demo_after demo_some)))
                (demo_after demo_some) = (map delivered xs, q') /\
    Z.of_nat (length xs) = count_ (demo_after demo_some) /\
    Forall (fun x => Z.of_nat (length (snd x)) = 4) xs /\
    StronglySorted before xs /\
    count_ q' = 0 /\
    _try_receive 255 q' 4 true = (false, mkReceived q' None None).
Proof.
  apply (receive_all_in_priority_order
           255 255 1 1 1 blank_queue 536870912 64 0 3 4 demo_queue 3
           demo_some (demo_after demo_some)).
  - reflexivity.
  - by_computation.
  - constructor; by_computation.
  - repeat constructor; by_computation.
  - by_computation.
  - apply demo_reached. repeat constructor; by_computation.
Defined.

Lemma send_inserts_by_priority_witness :
  exists xs q1 q' q2,
    receive_all 255 (Z.to_nat (count_ (demo_after demo_some)))
                (demo_after demo_some) = (map delivered xs, q1) /\
    _try_send 255 3 (demo_after demo_some) [7; 7] 2 5 = Some (true, q') /\
    receive_all 255 (S (Z.to_nat (count_ (demo_after demo_some)))) q'
    = (map delivered (enqueue (5, payload [7; 7] 2 4) xs), q2).
Proof.
  apply (send_inserts_by_priority
           255 255 1 1 1 blank_queue 536870912 64 0 3 4 demo_queue 3
           demo_some (demo_after demo_some)).
  - reflexivity.
  - by_computation.
  - constructor; by_computation.
  - repeat constructor; by_computation.
  - by_computation.
  - apply demo_reached. repeat constructor; by_computation.
  - by_computation.
  - by_computation.
Defined.

Lemma blocks_free_or_enqueued_witness :
  let enqueued :=
    ring_walk (Z.to_nat (count_ (demo_after demo_some)))
              (next_array_ (demo_after demo_some))
              (head_ (demo_after demo_some)) in
  Permutation
    (free_list (S (Z.to_nat 3)) (mem_ (demo_after demo_some))
               (first_free_ (demo_after demo_some))
     ++ map (slot_addr (demo_after demo_some)) enqueued)
    (map (slot_addr (demo_after demo_some))
         (all_slots (demo_after demo_some))) /\
  forall i, In i enqueued ->
            prev_array_ (demo_after demo_some)
                        (next_array_ (demo_after demo_some) i) = i /\
            next_array_ (demo_after demo_some)
                        (prev_array_ (demo_after demo_some) i) = i.
Proof.
  apply (blocks_free_or_enqueued
           255 255 1 1 1 blank_queue 536870912 64 0 3 4 demo_queue 3
           demo_some (demo_after demo_some)).
  - reflexivity.
  - by_computation.
  - constructor; by_computation.
  - repeat constructor; by_computation.
  - by_computation.
  - apply demo_reached. repeat constructor; by_computation.
Defined.

Lemma send_waits_for_room_witness :
  send 255 false 3 [] (thread0 0) 1000 (demo_after demo_fill)
       (Some [7; 7; 7; 7]) 4 1
  = Some (Suspended
            (set_send_list (demo_after demo_fill)
                           (send_list_ (demo_after demo_fill) ++ [1000])))
  /\
  exists q' xs q1 q2,
    send 255 false 3 (wake_after_receive 255 4 true 1 :: []) (thread0 0)
         1000 (demo_after demo_fill) (Some [7; 7; 7; 7]) 4 1
    = Some (Returned ok q') /\
    count_ q' = 3 /\ ~ In 1000 (send_list_ q') /\
    receive_all 255 (Z.to_nat 3) (demo_after demo_fill)
    = (map delivered xs, q1) /\
    receive_all 255 (Z.to_nat 3) q'
    = (map delivered (enqueue (1, payload [7; 7; 7; 7] 4 4) (tl xs)), q2).
Proof.
  refine (send_waits_for_room
            255 255 1 1 1 blank_queue 536870912 64 0 3 4 demo_queue 3
            demo_fill (demo_after demo_fill) _ _ _ _ _ _ [] (thread0 0) 1000
            [7; 7; 7; 7] 1 1 _).
  - reflexivity.
  - by_computation.
  - constructor; by_computation.
  - repeat constructor; by_computation.
  - by_computation.
  - apply demo_reached. repeat constructor; by_computation.
  - by_computation.
Defined.

Lemma receive_waits_for_message_witness :
  receive 255 255 false [] (thread0 0) 1000 demo_queue true 4 true
  = Suspended
      (mkReceived (set_receive_list demo_queue
                                    (receive_list_ demo_queue ++ [1000]))
                  None None) /\
  exists rc,
    receive 255 255 false (wake_after_send 255 3 [7; 7] 2 5 1 :: [])
            (thread0 0) 1000 demo_queue true 4 true
    = Returned ok rc /\
    rcv_msg rc = Some (payload [7; 7] 2 4) /\
    rcv_prio rc = (if true then Some 5 else None) /\
    count_ (rcv_queue rc) = 0 /\
    ~ In 1000 (receive_list_ (rcv_queue rc)).
Proof.
  refine (receive_waits_for_message
            255 255 1 1 1 blank_queue 536870912 64 0 3 4 demo_queue 3
            [] demo_queue _ _ _ _ _ _ [] (thread0 0) 1000 [7; 7] 2 5 1 true
            _ _ _).
  - reflexivity.
  - by_computation.
  - constructor; by_computation.
  - constructor.
  - by_computation.
  - reflexivity.
  - reflexivity.
  - by_computation.
  - by_computation.
Defined.

Lemma timed_send_timeout_witness :
  let call :=
    timed_send 255 false 3 [] (thread0 0) 1000 (demo_after demo_fill)
               (Some [7; 7; 7; 7]) 4 1 0 10 11 in
  (count_ (demo_after demo_fill) < 3 ->
   exists q',
     call = Some (Returned ok q') /\
     count_ q' = count_ (demo_after demo_fill) + 1) /\
  (count_ (demo_after demo_fill) = 3 ->
   (if 0 =? 0 then 1 else 0) <= slept 11 10 ->
   call = Some (Returned ETIMEDOUT (demo_after demo_fill))).
Proof.
  refine (timed_send_timeout
            255 255 1 1 1 blank_queue 536870912 64 0 3 4 demo_queue 3
            demo_fill (demo_after demo_fill) _ _ _ _ _ _ [] (thread0 0) 1000
            [7; 7; 7; 7] 1 0 10 11).
  - reflexivity.
  - by_computation.
  - constructor; by_computation.
  - repeat constructor; by_computation.
  - by_computation.
  - apply demo_reached. repeat constructor; by_computation.
Defined.

Lemma timed_receive_timeout_witness :
  let call :=
    timed_receive 255 255 false [] (thread0 0) 1000 demo_queue true 4 true
                  5 10 20 in
  (0 < count_ demo_queue ->
   exists rc,
     call = Returned ok rc /\
     count_ (rcv_queue rc) = count_ demo_queue - 1) /\
  (count_ demo_queue = 0 ->
   (if 5 =? 0 then 1 else 5) <= slept 20 10 ->
   call = Returned ETIMEDOUT (mkReceived demo_queue None None)).
Proof.
  refine (timed_receive_timeout
            255 255 1 1 1 blank_queue 536870912 64 0 3 4 demo_queue 3
            [] demo_queue _ _ _ _ _ _ [] (thread0 0) 1000 true 5 10 20 _).
  - reflexivity.
  - by_computation.
  - constructor; by_computation.
  - constructor.
  - by_computation.
  - reflexivity.
  - by_computation.
Defined.

Lemma no_receive_above_max_size_witness :
  try_receive 255 255 wide_queue true 300 true
  = (if true then EMSGSIZE else EINVAL, mkReceived wide_queue None None) /\
  (exists r,
      receive 255 255 false [] (thread0 0) 1000 wide_queue true 300 true
      = Returned r (mkReceived wide_queue None None) /\ r <> ok) /\
  (exists r,
      timed_receive 255 255 false [] (thread0 0) 1000 wide_queue true 300
                    true 5 0 0
      = Returned r (mkReceived wide_queue None None) /\ r <> ok).
Proof.
  apply (no_receive_above_max_size 255 255 false [] (thread0 0) 1000
                                   wide_queue true 300 true 5 0 0).
  by_computation.
Defined.

